(** * Big 12 championship projections: a shallow embedding of
      [big12ChampionshipOdds.py] and the properties of its schedule loader,
      season simulator, tie-break engine, standings resolver and aggregator.

    Conventions of the embedding.
    - A Python list used as a row ([team], [game]) is a record whose fields
      carry the names the source comments give to the indices.
    - In-place mutation of the shared [teams] and [games] lists is explicit
      state passing: every function returns the lists it has mutated.
    - Python exceptions and [sys.exit] are the [Raise] results of [result].
    - Floats are IEEE 754 binary64 values ([spec_float] with precision 53 and
      maximal exponent 1024); Python compares numbers by exact value.
    - The random module is an oracle: the k-th call of [random.random] and
      the k-th call of [randrange] return what the oracle holds at index k;
      the state counts the calls made so far. *)

From Stdlib Require Import String Ascii OrderedTypeEx.
From Stdlib Require Import List Bool Arith ZArith QArith Lia.
From Stdlib Require Import Permutation Sorted SpecFloat.
Import ListNotations.

Close Scope Q_scope.
Local Open Scope string_scope.
Local Open Scope nat_scope.
Local Open Scope list_scope.

(** [a == b] on identifiers. *)
Infix "==" := String.eqb (at level 70, no associativity).

(* ================================================================== *)
(** ** Results of fallible code *)

Inductive PyError : Type :=
| ValueError          (* max() of an empty sequence, int(nan), randrange(0) *)
| OverflowError       (* int(inf) *)
| UnboundLocalError   (* a local read before any assignment *)
| SystemExit (code : Z).

Inductive result (A : Type) : Type :=
| Ok (a : A)
| Raise (e : PyError)
| OutOfFuel.          (* the iteration budget of a modelled loop ran out *)

Arguments Ok {A} a.
Arguments Raise {A} e.
Arguments OutOfFuel {A}.

Definition bind {A B : Type} (c : result A) (k : A -> result B) : result B :=
  match c with
  | Ok a => k a
  | Raise e => Raise e
  | OutOfFuel => OutOfFuel
  end.

Notation "x <- c1 ;; c2" := (bind c1 (fun x => c2))
  (at level 61, c1 at next level, right associativity).
Notation "' pat <- c1 ;; c2" := (bind c1 (fun x => match x with pat => c2 end))
  (at level 61, pat pattern, c1 at next level, right associativity).

(* ================================================================== *)
(** ** Python numbers: ints and binary64 floats *)

Module PyNum.

Definition prec : Z := 53.
Definition emax : Z := 1024.

Inductive number : Type :=
| PyInt (z : Z)
| PyFloat (f : spec_float).

(** The exact value of a number, a rational for the finite ones. *)
Inductive xval : Type :=
| XNaN
| XInf (negative : bool)
| XFin (q : Q).

(** [S754_finite s m e] is the float [(-1)^s * m * 2^e]. *)
Definition finite_value (s : bool) (m : positive) (e : Z) : Q :=
  (inject_Z (if s then Zneg m else Zpos m) * Qpower 2 e)%Q.

Definition float_val (f : spec_float) : xval :=
  match f with
  | S754_zero _ => XFin 0%Q
  | S754_infinity s => XInf s
  | S754_nan => XNaN
  | S754_finite s m e => XFin (finite_value s m e)
  end.

Definition number_val (x : number) : xval :=
  match x with
  | PyInt z => XFin (inject_Z z)
  | PyFloat f => float_val f
  end.

(** [None] is the unordered case (a NaN operand). *)
Definition num_compare (x y : number) : option comparison :=
  match number_val x, number_val y with
  | XNaN, _ => None
  | _, XNaN => None
  | XInf s1, XInf s2 =>
      Some (match s1, s2 with
            | true, false => Lt
            | false, true => Gt
            | _, _ => Eq
            end)
  | XInf s, XFin _ => Some (if s then Lt else Gt)
  | XFin _, XInf s => Some (if s then Gt else Lt)
  | XFin q1, XFin q2 => Some (Qcompare q1 q2)
  end.

(** [x < y], [x >= y] and [x == y] of Python. *)
Definition py_lt (x y : number) : bool :=
  match num_compare x y with Some Lt => true | _ => false end.

Definition py_ge (x y : number) : bool :=
  match num_compare x y with Some Gt => true | Some Eq => true | _ => false end.

Definition py_eq (x y : number) : bool :=
  match num_compare x y with Some Eq => true | _ => false end.

Definition is_nan (x : number) : bool :=
  match number_val x with XNaN => true | _ => false end.

(** [int(f)] for a float: truncation toward zero; NaN and the infinities
    raise. *)
Definition py_int (f : spec_float) : result Z :=
  match f with
  | S754_zero _ => Ok 0%Z
  | S754_infinity _ => Raise OverflowError
  | S754_nan => Raise ValueError
  | S754_finite s m e =>
      let sm := if s then Zneg m else Zpos m in
      Ok (if (0 <=? e)%Z then sm * 2 ^ e else Z.quot sm (2 ^ (- e)))%Z
  end.

(** [1.0] and the float subtraction [x - y], rounded to nearest even. *)
Definition one : spec_float := S754_finite false 4503599627370496 (-52).
Definition zero : spec_float := S754_zero false.
Definition fsub (x y : spec_float) : spec_float := SFsub prec emax x y.

(** [r] is a value [random.random()] can return: [0.0 <= r < 1.0]. *)
Definition unit_draw (r : spec_float) : Prop :=
  py_ge (PyFloat r) (PyInt 0) = true /\ py_lt (PyFloat r) (PyInt 1) = true.

End PyNum.
Import PyNum.

(* ================================================================== *)
(** ** The random module as an oracle *)

Record Rng : Type := mkRng {
  uniformDraws : nat -> spec_float;  (* k-th value of random.random() *)
  rangeDraws : nat -> nat;           (* k-th raw value behind randrange *)
  randomCalls : nat;
  randrangeCalls : nat
}.

Definition random_random (rng : Rng) : spec_float * Rng :=
  (uniformDraws rng (randomCalls rng),
   mkRng (uniformDraws rng) (rangeDraws rng)
         (S (randomCalls rng)) (randrangeCalls rng)).

Definition randrange (n : nat) (rng : Rng) : result (nat * Rng) :=
  if n =? 0 then Raise ValueError
  else Ok (rangeDraws rng (randrangeCalls rng) mod n,
           mkRng (uniformDraws rng) (rangeDraws rng)
                 (randomCalls rng) (S (randrangeCalls rng))).

(* ================================================================== *)
(** ** Data model *)

(** [game = [home, away, probability, result, 0]]; index 4 is never read. *)
Record Game : Type := mkGame {
  home : string;             (* game[0], the reference side *)
  away : string;             (* game[1] *)
  winProbability : number;   (* game[2], for the reference side *)
  gameResult : nat           (* game[3]: 1 when the reference side won *)
}.

(** [team = [name, seasonWins, tieWins, firsts, seconds, 0, currentPlace]];
    index 5 is never read or written. *)
Record Team : Type := mkTeam {
  name : string;             (* team[0] *)
  seasonWins : nat;          (* team[1] *)
  tieWins : nat;             (* team[2], scratch of the tie-break criteria *)
  firstPlaceCount : nat;     (* team[3] *)
  secondPlaceCount : nat;    (* team[4] *)
  currentPlace : nat         (* team[6]: 0 is unplaced *)
}.

Definition setResult (g : Game) (r : nat) : Game :=
  mkGame (home g) (away g) (winProbability g) r.

Definition setProbability (g : Game) (p : number) : Game :=
  mkGame (home g) (away g) p (gameResult g).

Definition addSeasonWin (t : Team) : Team :=
  mkTeam (name t) (S (seasonWins t)) (tieWins t)
         (firstPlaceCount t) (secondPlaceCount t) (currentPlace t).

Definition setTieWins (t : Team) (n : nat) : Team :=
  mkTeam (name t) (seasonWins t) n
         (firstPlaceCount t) (secondPlaceCount t) (currentPlace t).

Definition addTieWins (n : nat) (t : Team) : Team :=
  setTieWins t (tieWins t + n).

Definition resetSeason (t : Team) : Team :=
  mkTeam (name t) 0 0 (firstPlaceCount t) (secondPlaceCount t) 0.

Definition placeFirst (t : Team) : Team :=
  mkTeam (name t) (seasonWins t) (tieWins t)
         (S (firstPlaceCount t)) (secondPlaceCount t) 1.

Definition placeSecond (t : Team) : Team :=
  mkTeam (name t) (seasonWins t) (tieWins t)
         (firstPlaceCount t) (S (secondPlaceCount t)) 2.

Definition setPlace (t : Team) (p : nat) : Team :=
  mkTeam (name t) (seasonWins t) (tieWins t)
         (firstPlaceCount t) (secondPlaceCount t) p.

(* ================================================================== *)
(** ** Lists of identifiers: [in], [sorted], [!=] *)

Definition inb (s : string) (l : list string) : bool :=
  existsb (String.eqb s) l.

Fixpoint insert (s : string) (l : list string) : list string :=
  match l with
  | [] => [s]
  | x :: rest => if String.leb s x then s :: l else x :: insert s rest
  end.

(** [sorted(l)] on strings: ascending in code-point order. *)
Definition sorted (l : list string) : list string :=
  fold_right insert [] l.

Definition names_eq_dec : forall a b : list string, {a = b} + {a <> b} :=
  list_eq_dec string_dec.

(** [max(...)] of a sequence of ints. *)
Definition py_max (l : list nat) : result nat :=
  match l with
  | [] => Raise ValueError
  | x :: rest => Ok (fold_left Nat.max rest x)
  end.

Definition py_sum (l : list nat) : nat := fold_left Nat.add l 0.

(* ================================================================== *)
(** ** Schedule loading *)

(** A parsed CSV row [row[0], row[1], float(row[2])]. *)
Definition RawGame : Type := (string * string * spec_float)%type.

(** [loadTeamsFromCSV]: the sorted set of all identifiers of the rows. *)
Definition loadTeamsFromCSV (rows : list RawGame) : list string :=
  sorted (nodup string_dec
            (flat_map (fun row : RawGame => [fst (fst row); snd (fst row)]) rows)).

(** One pass of the "Convert to normalized format" loop. *)
Definition normalizeGame (rawGame : RawGame) : Game :=
  let teamName := fst (fst rawGame) in
  let opponent := snd (fst rawGame) in
  let teamWinProbability := snd rawGame in
  if String.ltb teamName opponent
  then mkGame teamName opponent (PyFloat teamWinProbability) 0
  else mkGame opponent teamName (PyFloat (fsub one teamWinProbability)) 0.

(** One pass of the loop turning [1.0] and [0.0] into ints:
    [if game[2] == int(game[2]): game[2] = int(game[2])]. *)
Definition integerize (game : Game) : result Game :=
  match winProbability game with
  | PyInt _ => Ok game
  | PyFloat f =>
      z <- py_int f ;;
      Ok (if py_eq (PyFloat f) (PyInt z) then setProbability game (PyInt z)
          else game)
  end.

Fixpoint integerizeAll (games : list Game) : result (list Game) :=
  match games with
  | [] => Ok []
  | game :: rest =>
      game' <- integerize game ;;
      rest' <- integerizeAll rest ;;
      Ok (game' :: rest')
  end.

Definition expectedGameCount (bigTwelveTeams : list string) : nat :=
  9 * length bigTwelveTeams / 2.

Definition loadGameData (bigTwelveTeams : list string) (rawGames : list RawGame)
  : result (list Game) :=
  let games := map normalizeGame rawGames in
  if length games =? expectedGameCount bigTwelveTeams
  then integerizeAll games
  else Raise (SystemExit 1).

Definition initializeTeamData (bigTwelveTeams : list string) : list Team :=
  map (fun teamName => mkTeam teamName 0 0 0 0 0) bigTwelveTeams.

(* ================================================================== *)
(** ** Season simulator *)

(** The inner [for team in teams] loop of one game, with draw [r]. *)
Fixpoint simulateGameTeams (r : spec_float) (game : Game) (teams : list Team)
  : Game * list Team :=
  match teams with
  | [] => (game, [])
  | team :: rest =>
      let '(game1, team1) :=
        if home game == name team then
          if py_lt (PyFloat r) (winProbability game)
          then (setResult game 1, addSeasonWin team)
          else (game, team)
        else if away game == name team then
          if py_ge (PyFloat r) (winProbability game)
          then (game, addSeasonWin team)
          else (game, team)
        else (game, team) in
      let '(game2, rest') := simulateGameTeams r game1 rest in
      (game2, team1 :: rest')
  end.

(** The body of [for game in games]. *)
Definition simulateGame (game : Game) (teams : list Team) (rng : Rng)
  : Game * list Team * Rng :=
  let game0 := setResult game 0 in
  let '(randomValue, rng') := random_random rng in
  let '(game', teams') := simulateGameTeams randomValue game0 teams in
  (game', teams', rng').

Fixpoint simulateLoop (games : list Game) (teams : list Team) (rng : Rng)
  : list Game * list Team * Rng :=
  match games with
  | [] => ([], teams, rng)
  | game :: rest =>
      let '(game', teams1, rng1) := simulateGame game teams rng in
      let '(rest', teams2, rng2) := simulateLoop rest teams1 rng1 in
      (game' :: rest', teams2, rng2)
  end.

Definition simulateGames (games : list Game) (teams : list Team) (rng : Rng)
  : list Game * list Team * Rng :=
  simulateLoop games (map resetSeason teams) rng.

(* ================================================================== *)
(** ** Tie-break criteria *)

Definition findTeamsWithRecord (teams : list Team) (wins : nat)
  (excludePlaced : bool) : list string :=
  sorted (map name
            (filter (fun team => (seasonWins team =? wins) &&
                                 (negb excludePlaced || (currentPlace team =? 0)))
                    teams)).

Definition resetTieWins (teams : list Team) : list Team :=
  map (fun team => setTieWins team 0) teams.

Definition headToHeadGame (game : Game) (team : Team) : Team :=
  if (gameResult game =? 1) && (name team == home game) then addTieWins 1 team
  else if (gameResult game =? 0) && (name team == away game) then addTieWins 1 team
  else team.

Definition getHeadToHeadRecord (games : list Game) (teams : list Team)
  (teamList : list string) : list Team :=
  fold_left
    (fun teams game =>
       if inb (home game) teamList && inb (away game) teamList
       then map (headToHeadGame game) teams
       else teams)
    games (resetTieWins teams).

(** The body of the innermost [for opponent in opponentList]. *)
Definition recordVsOpponent (game : Game) (teamName opponent : string)
  (teams : list Team) : list Team :=
  if (home game == teamName) && (away game == opponent) then
    map (fun team => if (gameResult game =? 1) && (name team == teamName)
                     then addTieWins 1 team else team) teams
  else if (away game == teamName) && (home game == opponent) then
    map (fun team => if (gameResult game =? 0) && (name team == teamName)
                     then addTieWins 1 team else team) teams
  else teams.

Definition getRecordVsCommonOpponents (games : list Game) (teams : list Team)
  (teamList opponentList : list string) : list Team :=
  fold_left
    (fun teams game =>
       fold_left
         (fun teams teamName =>
            fold_left (fun teams opponent =>
                         recordVsOpponent game teamName opponent teams)
                      opponentList teams)
         teamList teams)
    games (resetTieWins teams).

(** The opponents of [teamName], one entry per game played. *)
Definition opponentsOf (games : list Game) (teamName : string) : list string :=
  flat_map (fun game => if home game == teamName then [away game]
                        else if away game == teamName then [home game]
                        else [])
           games.

Definition findCommonOpponents (games : list Game) (teams : list Team)
  (teamList : list string) : list string :=
  let teamOpponents :=
    map (fun team => opponentsOf games (name team))
        (filter (fun team => inb (name team) teamList) teams) in
  map name
      (filter (fun team =>
                 negb (inb (name team) teamList) &&
                 forallb (fun opponentList => inb (name team) opponentList)
                         teamOpponents)
              teams).

(** [for opponent in teams: if other == opponent[0]: team[2] += opponent[1]] *)
Definition addOpponentWins (other : string) (teams : list Team) (team : Team)
  : Team :=
  fold_left (fun team opponent =>
               if other == name opponent
               then addTieWins (seasonWins opponent) team else team)
            teams team.

(** The body of [for game in games] of [calculateOpponentStrength].  The inner
    loops read only [opponent[1]], which this function never writes, so the
    list they traverse is the one the pass started from. *)
Definition strengthGame (game : Game) (teams : list Team) : list Team :=
  map (fun team =>
         if home game == name team then addOpponentWins (away game) teams team
         else if away game == name team then addOpponentWins (home game) teams team
         else team)
      teams.

Definition calculateOpponentStrength (games : list Game) (teams : list Team)
  (teamList : list string) : list Team :=
  fold_left (fun teams game => strengthGame game teams) games (resetTieWins teams).

(* ================================================================== *)
(** ** Tie-break engine *)

(** [max(team[2] for team in teams if team[0] in winners)] *)
Definition maxTieWinsAmong (teams : list Team) (winners : list string)
  : result nat :=
  py_max (map tieWins (filter (fun team => inb (name team) winners) teams)).

(** [[team[0] for team in teams if team[0] in winners and team[2] == m]],
    then [.sort()]. *)
Definition keepByTieWins (teams : list Team) (winners : list string) (m : nat)
  : list string :=
  sorted (map name
            (filter (fun team => inb (name team) winners && (tieWins team =? m))
                    teams)).

(** Step 1 of the two-team procedure: the first game between the two decides. *)
Fixpoint headToHead (games : list Game) (w0 w1 : string) : option string :=
  match games with
  | [] => None
  | game :: rest =>
      if (home game == w0) && (away game == w1) then
        Some (if gameResult game =? 1 then w0 else w1)
      else if (home game == w1) && (away game == w0) then
        Some (if gameResult game =? 1 then w1 else w0)
      else headToHead rest w0 w1
  end.

(** Step 2, [while recordLevel >= 0], entered with [levels = recordLevel + 1].
    The second component is [Some newWinners] when the loop left by [break]. *)
Fixpoint commonOpponentTiers (games : list Game) (commonOpponents : list string)
  (winners : list string) (levels : nat) (teams : list Team)
  : result (list Team * option (list string)) :=
  match levels with
  | 0 => Ok (teams, None)
  | S recordLevel =>
      let opponentsAtLevel :=
        map name (filter (fun team => (seasonWins team =? recordLevel) &&
                                      inb (name team) commonOpponents) teams) in
      match opponentsAtLevel with
      | [] => commonOpponentTiers games commonOpponents winners recordLevel teams
      | _ :: _ =>
          let teams1 :=
            getRecordVsCommonOpponents games teams winners opponentsAtLevel in
          maxTieWins <- maxTieWinsAmong teams1 winners ;;
          if 0 <? maxTieWins then
            let newWinners := keepByTieWins teams1 winners maxTieWins in
            if names_eq_dec newWinners winners
            then commonOpponentTiers games commonOpponents winners recordLevel teams1
            else Ok (teams1, Some newWinners)
          else commonOpponentTiers games commonOpponents winners recordLevel teams1
      end
  end.

(** Step 3: record against all common opponents. *)
Definition recordVsAllCommon (games : list Game) (commonOpponents : list string)
  (winners : list string) (teams : list Team)
  : result (list Team * option (list string)) :=
  match commonOpponents with
  | [] => Ok (teams, None)
  | _ :: _ =>
      let teams1 :=
        getRecordVsCommonOpponents games teams winners commonOpponents in
      maxTieWins <- maxTieWinsAmong teams1 winners ;;
      if 0 <? maxTieWins then
        let newWinners := keepByTieWins teams1 winners maxTieWins in
        if names_eq_dec newWinners winners then Ok (teams1, None)
        else Ok (teams1, Some newWinners)
      else Ok (teams1, None)
  end.

(** Step 4: strength of schedule. *)
Definition strengthOfSchedule (games : list Game) (winners : list string)
  (teams : list Team) : result (list Team * option (list string)) :=
  let teams1 := calculateOpponentStrength games teams winners in
  maxStrength <- maxTieWinsAmong teams1 winners ;;
  let newWinners := keepByTieWins teams1 winners maxStrength in
  if names_eq_dec newWinners winners then Ok (teams1, None)
  else Ok (teams1, Some newWinners).

Definition orKeep (shrunk : option (list string)) (winners : list string)
  : list string :=
  match shrunk with Some newWinners => newWinners | None => winners end.

(** The outcome of a call: the mutated teams, [winners], [usedRandom] and the
    state of the random module. *)
Definition Outcome : Type := (list Team * list string * bool * Rng)%type.

(** Steps 1 to 4 of the [len(winners) == 2] branch.  Each
    [if len(winners) == 1: return winners, usedRandom] leaves with the
    winners found so far; the caller below returns them. *)
Definition twoTeamCriteria (games : list Game) (teams : list Team)
  (winners : list string) : result (list Team * list string) :=
  (* Step 1: head-to-head *)
  let winners1 :=
    match winners with
    | [w0; w1] =>
        match headToHead games w0 w1 with
        | Some w => [w]
        | None => winners
        end
    | _ => winners
    end in
  if length winners1 =? 1 then Ok (teams, winners1) else
  (* Step 2: common opponents, tier by tier *)
  maxWins <- py_max (map seasonWins teams) ;;
  let commonOpponents := findCommonOpponents games teams winners1 in
  '(teams2, shrunk2) <-
     commonOpponentTiers games commonOpponents winners1 (S maxWins) teams ;;
  let winners2 := orKeep shrunk2 winners1 in
  if length winners2 =? 1 then Ok (teams2, winners2) else
  (* Step 3: all common opponents *)
  '(teams3, shrunk3) <- recordVsAllCommon games commonOpponents winners2 teams2 ;;
  let winners3 := orKeep shrunk3 winners2 in
  if length winners3 =? 1 then Ok (teams3, winners3) else
  (* Step 4: strength of schedule *)
  '(teams4, shrunk4) <- strengthOfSchedule games winners3 teams3 ;;
  Ok (teams4, orKeep shrunk4 winners3).

(** The [len(winners) == 2] branch of [resolveTiebreaker]: the criteria, then
    step 5, the random selection. *)
Definition twoTeamTiebreaker (games : list Game) (teams : list Team)
  (winners : list string) (rng : Rng) : result Outcome :=
  '(teams', winners') <- twoTeamCriteria games teams winners ;;
  if length winners' =? 1 then Ok (teams', winners', false, rng)
  else if 1 <? length winners' then
    '(k, rng') <- randrange (length winners') rng ;;
    Ok (teams', [nth k winners' ""], true, rng')
  else Ok (teams', winners', false, rng).

(** Step 1 of the multi-team loop: head-to-head among the group. *)
Definition groupHeadToHead (games : list Game) (winners : list string)
  (teams : list Team) : result (list Team * option (list string)) :=
  let teams1 := getHeadToHeadRecord games teams winners in
  let totalHeadToHeadGames :=
    py_sum (map tieWins (filter (fun team => inb (name team) winners) teams1)) in
  let expectedGames := (length winners - 1) * length winners / 2 in
  if totalHeadToHeadGames =? expectedGames then
    maxWins <- maxTieWinsAmong teams1 winners ;;
    let newWinners := keepByTieWins teams1 winners maxWins in
    if names_eq_dec newWinners winners then Ok (teams1, None)
    else Ok (teams1, Some newWinners)
  else
    let maxPossibleWins := length winners - 1 in
    let newWinners := keepByTieWins teams1 winners maxPossibleWins in
    if names_eq_dec newWinners winners then Ok (teams1, None)
    else match newWinners with
         | [] => Ok (teams1, None)
         | _ :: _ => Ok (teams1, Some newWinners)
         end.

(** Steps 1 to 4 of one pass of [while len(winners) > 2]: [Some newWinners]
    when a criterion shrank the group (the pass ends by [continue]), [None]
    when the pass reaches step 5. *)
Definition multiTeamCriteria (games : list Game) (teams : list Team)
  (winners : list string) : result (list Team * option (list string)) :=
  '(teams1, shrunk1) <- groupHeadToHead games winners teams ;;
  match shrunk1 with
  | Some newWinners => Ok (teams1, Some newWinners)
  | None =>
      maxWins <- py_max (map seasonWins teams1) ;;
      let commonOpponents := findCommonOpponents games teams1 winners in
      '(teams2, shrunk2) <-
         commonOpponentTiers games commonOpponents winners (S maxWins) teams1 ;;
      match shrunk2 with
      | Some newWinners => Ok (teams2, Some newWinners)
      | None =>
          '(teams3, shrunk3) <-
             recordVsAllCommon games commonOpponents winners teams2 ;;
          match shrunk3 with
          | Some newWinners => Ok (teams3, Some newWinners)
          | None => strengthOfSchedule games winners teams3
          end
      end
  end.

(** [while len(winners) > 2]; [fuel] bounds the number of passes. *)
Fixpoint multiTeamLoop (fuel : nat) (games : list Game) (teams : list Team)
  (winners : list string) (rng : Rng) : result Outcome :=
  if length winners <=? 2 then Ok (teams, winners, false, rng) else
  match fuel with
  | 0 => OutOfFuel
  | S fuel' =>
      '(teams', shrunk) <- multiTeamCriteria games teams winners ;;
      match shrunk with
      | Some newWinners => multiTeamLoop fuel' games teams' newWinners rng
      | None =>
          (* Step 5: random selection for 3+ teams, then [break] *)
          '(k, rng') <- randrange (length winners) rng ;;
          Ok (teams', [nth k winners ""], true, rng')
      end
  end.

(** [resolveTiebreaker] with an explicit budget for the multi-team loop.  The
    recursive call of the source receives two teams and so runs the two-team
    branch on [sorted(winners)]. *)
Definition resolveTiebreakerFuel (fuel : nat) (games : list Game)
  (teams : list Team) (tiedTeams : list string) (rng : Rng) : result Outcome :=
  let winners := sorted tiedTeams in
  if length winners =? 1 then Ok (teams, winners, false, rng)
  else if length winners =? 2 then twoTeamTiebreaker games teams winners rng
  else
    '(teams', winners', usedRandom, rng') <-
       multiTeamLoop fuel games teams winners rng ;;
    if length winners' =? 2
    then twoTeamTiebreaker games teams' (sorted winners') rng'
    else Ok (teams', winners', usedRandom, rng').

Definition resolveTiebreaker (games : list Game) (teams : list Team)
  (tiedTeams : list string) (rng : Rng) : result Outcome :=
  resolveTiebreakerFuel (length tiedTeams) games teams tiedTeams rng.

(* ================================================================== *)
(** ** Standings resolver *)

(** [maxWins] over the unplaced teams, starting from 0. *)
Definition maxUnplacedWins (teams : list Team) : nat :=
  fold_left (fun maxWins team =>
               if (currentPlace team =? 0) && (maxWins <? seasonWins team)
               then seasonWins team else maxWins)
            teams 0.

(** The "Assign place to winner(s)" loop.  [firstPlaceTeam] and
    [secondPlaceTeam] are unbound ([None]) until assigned. *)
Fixpoint assignPlace (currentPlace : nat) (winners : list string)
  (teams : list Team) (firstPlaceTeam secondPlaceTeam : option string)
  : list Team * option string * option string :=
  match teams with
  | [] => ([], firstPlaceTeam, secondPlaceTeam)
  | team :: rest =>
      let '(team', first', second') :=
        if inb (name team) winners then
          if currentPlace =? 1
          then (placeFirst team, Some (name team), secondPlaceTeam)
          else if currentPlace =? 2
          then (placeSecond team, firstPlaceTeam, Some (name team))
          else (setPlace team currentPlace, firstPlaceTeam, secondPlaceTeam)
        else (team, firstPlaceTeam, secondPlaceTeam) in
      let '(rest', first'', second'') :=
        assignPlace currentPlace winners rest first' second' in
      (team' :: rest', first'', second'')
  end.

(** The locals of [determineStandings] between two passes of its loop. *)
Record Standing : Type := mkStanding {
  stTeams : list Team;
  stFirst : option string;
  stSecond : option string;
  stRandom : nat;            (* randomTiebreakersUsed *)
  stRng : Rng
}.

(** One pass of [while currentPlace <= 2]. *)
Definition standingsPass (currentPlace : nat) (games : list Game) (st : Standing)
  : result Standing :=
  let maxWins := maxUnplacedWins (stTeams st) in
  let tiedTeams := findTeamsWithRecord (stTeams st) maxWins true in
  match tiedTeams with
  | [] => Ok st
  | _ :: _ =>
      '(teams1, winners, usedRandom, rng1) <-
         resolveTiebreaker games (stTeams st) tiedTeams (stRng st) ;;
      let randomTiebreakersUsed :=
        if usedRandom : bool then stRandom st + 1 else stRandom st in
      let '(teams2, first, second) :=
        assignPlace currentPlace winners teams1 (stFirst st) (stSecond st) in
      Ok (mkStanding teams2 first second randomTiebreakersUsed rng1)
  end.

(** What [determineStandings] returns, with the mutated teams and the state
    of the random module. *)
Record Standings : Type := mkStandings {
  firstPlace : string;
  secondPlace : string;
  randomUsed : nat;
  placedTeams : list Team;
  rngAfter : Rng
}.

Definition determineStandings (games : list Game) (teams : list Team) (rng : Rng)
  : result Standings :=
  st1 <- standingsPass 1 games (mkStanding teams None None 0 rng) ;;
  st2 <- standingsPass 2 games st1 ;;
  match stFirst st2, stSecond st2 with
  | Some firstPlaceTeam, Some secondPlaceTeam =>
      Ok (mkStandings firstPlaceTeam secondPlaceTeam (stRandom st2)
                      (stTeams st2) (stRng st2))
  | _, _ => Raise UnboundLocalError
  end.

(* ================================================================== *)
(** ** Monte Carlo aggregator *)

(** The accumulators of [runSimulations] the properties below speak of; the
    matchup table and the Iowa State histograms are separate lists that
    neither the trials nor [totalRandomTiebreakers] read. *)
Record Run : Type := mkRun {
  runGames : list Game;
  runTeams : list Team;
  totalRandomTiebreakers : nat;
  trialsUsingRandom : nat;   (* ghost: trials with [randomUsed > 0] *)
  runRng : Rng
}.

(** [for simulationNumber in range(numberOfRuns)] *)
Fixpoint simulationLoop (numberOfRuns : nat) (run : Run) : result Run :=
  match numberOfRuns with
  | 0 => Ok run
  | S remaining =>
      let '(games1, teams1, rng1) :=
        simulateGames (runGames run) (runTeams run) (runRng run) in
      s <- determineStandings games1 teams1 rng1 ;;
      simulationLoop remaining
        (mkRun games1 (placedTeams s)
               (totalRandomTiebreakers run + randomUsed s)
               (trialsUsingRandom run + (if 0 <? randomUsed s then 1 else 0))
               (rngAfter s))
  end.

Definition runSimulations (numberOfRuns : nat) (rows : list RawGame) (rng : Rng)
  : result Run :=
  let bigTwelveTeams := loadTeamsFromCSV rows in
  games <- loadGameData bigTwelveTeams rows ;;
  let teams := initializeTeamData bigTwelveTeams in
  simulationLoop numberOfRuns (mkRun games teams 0 0 rng).

(* ================================================================== *)
(** ** Vocabulary of the properties *)

(** *** Schedule rows *)

(** The swapped form [(team2, team1, 1 - prob)] of a row. *)
Definition swapRow (row : RawGame) : RawGame :=
  (snd (fst row), fst (fst row), fsub one (snd row)).

(** What [loadGameData] stores for one row: normalized, then integerized. *)
Definition storedFixture (row : RawGame) : result Game :=
  integerize (normalizeGame row).

(** The float [0.1], that is [0x1.999999999999ap-4]. *)
Definition tenth : spec_float := S754_finite false 7205759403792794 (-56).

(** The float [1.5]. *)
Definition threeHalves : spec_float := S754_finite false 6755399441055744 (-52).

(** The float [0.5]. *)
Definition half : spec_float := S754_finite false 4503599627370496 (-53).

(** A random module whose every draw is [0.5] and whose k-th [randrange(n)]
    is [k mod n]. *)
Definition rngHalf : Rng := mkRng (fun _ => half) (fun k => k) 0 0.

(** A stored probability [int(...)] accepts: neither NaN nor infinite. *)
Definition finiteNumber (x : number) : bool :=
  match number_val x with XFin _ => true | _ => false end.

(** A probability inside [0, 1]. *)
Definition inUnitRange (x : number) : bool :=
  py_ge x (PyInt 0) && negb (py_lt (PyInt 1) x).

(** Nine rows [("A", "B", 1.5)]: the right count for two teams, every
    probability out of range. *)
Definition rowsOutOfRange : list RawGame := repeat ("A", "B", threeHalves) 9.

(** [game'] holds the fixture [game] with an equal probability unplayed. *)
Definition sameFixture (game game' : Game) : Prop :=
  home game' = home game /\ away game' = away game /\
  gameResult game' = gameResult game /\
  py_eq (winProbability game') (winProbability game) = true.

(** *** Strength of schedule *)

(** The season wins of the team named [teamName] (a sum, were the name held
    by several teams; 0 when by none). *)
Definition winsOf (teams : list Team) (teamName : string) : nat :=
  list_sum (map seasonWins (filter (fun team => teamName == name team) teams)).

(** Opponents' wins, once per game played. *)
Definition strengthPerGame (games : list Game) (teams : list Team)
  (teamName : string) : nat :=
  list_sum (map (winsOf teams) (opponentsOf games teamName)).

(** Opponents' wins, once per opponent played. *)
Definition strengthPerOpponent (games : list Game) (teams : list Team)
  (teamName : string) : nat :=
  list_sum (map (winsOf teams) (nodup string_dec (opponentsOf games teamName))).

(** [A] and [B] meet twice and win once each. *)
Definition rematchGames : list Game :=
  [mkGame "A" "B" (PyInt 1) 1; mkGame "A" "B" (PyInt 0) 0].
Definition rematchTeams : list Team :=
  [mkTeam "A" 1 0 0 0 0; mkTeam "B" 1 0 0 0 0].

(** *** Season simulation *)

(** Every value the oracle holds for [random.random()] lies in [0, 1). *)
Definition validDraws (rng : Rng) : Prop :=
  forall k, unit_draw (uniformDraws rng k).

(** A fixture of the data model over [teams]: two distinct identifiers of
    the team list and a probability that is a number. *)
Definition wellFormedFixture (teams : list Team) (game : Game) : Prop :=
  home game <> away game /\
  In (home game) (map name teams) /\
  In (away game) (map name teams) /\
  is_nan (winProbability game) = false.

(** Only the teams named [winner] have their win count incremented. *)
Definition creditWinner (winner : string) (teams : list Team) : list Team :=
  map (fun team => if name team == winner then addSeasonWin team else team)
      teams.

(** The simulation as the specification words it: one draw per fixture; the
    reference side wins when the draw is below the probability, the other
    side otherwise; the winner is recorded and credited. *)
Fixpoint seasonBySpec (games : list Game) (teams : list Team) (rng : Rng)
  : list Game * list Team * Rng :=
  match games with
  | [] => ([], teams, rng)
  | game :: rest =>
      let '(r, rng1) := random_random rng in
      let '(game', winner) :=
        if py_lt (PyFloat r) (winProbability game)
        then (setResult game 1, home game)
        else (setResult game 0, away game) in
      let '(rest', teams2, rng2) :=
        seasonBySpec rest (creditWinner winner teams) rng1 in
      (game' :: rest', teams2, rng2)
  end.

Definition simulateGamesBySpec (games : list Game) (teams : list Team)
  (rng : Rng) : list Game * list Team * Rng :=
  seasonBySpec games (map resetSeason teams) rng.

(** Every probability of the schedule is exactly 0 or exactly 1. *)
Definition decidedSchedule (games : list Game) : Prop :=
  Forall (fun game => py_eq (winProbability game) (PyInt 0) = true \/
                      py_eq (winProbability game) (PyInt 1) = true) games.

(** *** Candidate sets *)

(** [a <= b] on identifiers. *)
Definition nameLe (a b : string) : Prop := String.leb a b = true.

(** A candidate set over the identifiers [names]: ascending, without
    repetition, nonempty, made of identifiers of the team list. *)
Record Candidates (names winners : list string) : Prop := mkCandidates {
  candSorted : StronglySorted nameLe winners;
  candNoDup : NoDup winners;
  candNonEmpty : winners <> [];
  candKnown : incl winners names
}.

(** [teams'] is [teams] up to the scratch tie metric. *)
Definition sameSeason (teams teams' : list Team) : Prop :=
  resetTieWins teams' = resetTieWins teams.

(** [game] is played between [a] and [b]. *)
Definition between (a b : string) (game : Game) : Prop :=
  (home game = a /\ away game = b) \/ (home game = b /\ away game = a).

(** The recorded outcome of [game] is a win for [a]. *)
Definition wonBy (a : string) (game : Game) : Prop :=
  (home game = a /\ gameResult game = 1) \/
  (away game = a /\ gameResult game <> 1).

(** What a criterion may do to the candidate set: leave it, or replace it
    by a strictly smaller candidate set drawn from it. *)
Definition Shrinks (names winners : list string)
  (shrunk : option (list string)) : Prop :=
  match shrunk with
  | None => True
  | Some newWinners =>
      Candidates names newWinners /\ incl newWinners winners /\
      length newWinners < length winners
  end.

(** A criterion ran to its end on [teams] and [winners]. *)
Definition CriterionOk (teams : list Team) (winners : list string)
  (r : result (list Team * option (list string))) : Prop :=
  exists teams' shrunk,
    r = Ok (teams', shrunk) /\ sameSeason teams teams' /\
    Shrinks (map name teams) winners shrunk.

(** *** The random fallback *)

(** The random module after one more call of [randrange]. *)
Definition afterRandrange (rng : Rng) : Rng :=
  mkRng (uniformDraws rng) (rangeDraws rng)
        (randomCalls rng) (S (randrangeCalls rng)).

(** The flag [used] tells whether [randrange] was called between [rng] and
    [rng']: once when set, not at all when clear. *)
Definition fallbackFlag (used : bool) (rng rng' : Rng) : Prop :=
  if used then rng' = afterRandrange rng else rng' = rng.

(** Three teams without a game between them, and no game at all. *)
Definition idleTeams : list Team :=
  [mkTeam "A" 0 0 0 0 0; mkTeam "B" 0 0 0 0 0; mkTeam "C" 0 0 0 0 0].

(** *** Standings *)

(** The locals [st] of [determineStandings], the random module replaced. *)
Definition withRng (st : Standing) (rng : Rng) : Standing :=
  mkStanding (stTeams st) (stFirst st) (stSecond st) (stRandom st) rng.

(** The mark the "Assign place" loop leaves on the teams named [winner]. *)
Definition markPlace (currentPlace : nat) (winner : string) (teams : list Team)
  : list Team :=
  map (fun team =>
         if name team == winner then
           if currentPlace =? 1 then placeFirst team
           else if currentPlace =? 2 then placeSecond team
           else setPlace team currentPlace
         else team)
      teams.

(** *** A schedule of three pairs *)

(** Six teams in three pairs that meet nine times each, 27 rows for six
    teams: the first of each pair has won five meetings and lost four. *)
Definition pairRows (a b : string) : list RawGame :=
  repeat (a, b, one) 5 ++ repeat (a, b, zero) 4.

Definition pairedRows : list RawGame :=
  pairRows "A" "B" ++ pairRows "C" "D" ++ pairRows "E" "F".

(** A random module whose every draw is [0.1] and whose k-th [randrange(n)]
    is [(k + 1) mod n]. *)
Definition rngTenth : Rng := mkRng (fun _ => tenth) (fun k => S k) 0 0.

(* ================================================================== *)
(** ** Championship matchups *)

(** [matchup = [team, team, count]] *)
Record Matchup : Type := mkMatchup {
  matchupHome : string;      (* matchup[0] *)
  matchupAway : string;      (* matchup[1] *)
  matchupCount : nat         (* matchup[2] *)
}.

(** [for i in range(len(teams)): for j in range(i + 1, len(teams))] *)
Definition initializeChampionshipMatchups (bigTwelveTeams : list string)
  : list Matchup :=
  flat_map
    (fun i =>
       map (fun j => mkMatchup (nth i bigTwelveTeams "") (nth j bigTwelveTeams "") 0)
           (seq (i + 1) (length bigTwelveTeams - (i + 1))))
    (seq 0 (length bigTwelveTeams)).

(** The test of the "Track championship matchup" loop. *)
Definition matchupOf (first second : string) (matchup : Matchup) : bool :=
  ((first == matchupHome matchup) || (first == matchupAway matchup)) &&
  ((second == matchupHome matchup) || (second == matchupAway matchup)).

(** "Track championship matchup": the first row found is incremented, then
    [break]. *)
Fixpoint recordMatchup (first second : string)
  (championshipMatchups : list Matchup) : list Matchup :=
  match championshipMatchups with
  | [] => []
  | matchup :: rest =>
      if matchupOf first second matchup
      then mkMatchup (matchupHome matchup) (matchupAway matchup)
                     (S (matchupCount matchup)) :: rest
      else matchup :: recordMatchup first second rest
  end.

(* ================================================================== *)
(** ** The Iowa State histograms *)

Definition iowaStateNonConferenceWins : nat := 3.

(** A list after an indexed write, or the [IndexError] of the write. *)
Inductive Indexed (A : Type) : Type :=
| InRange (a : A)
| IndexError.

Arguments InRange {A} a.
Arguments IndexError {A}.

(** [l[k] += 1] *)
Fixpoint incrAt (k : nat) (l : list nat) : Indexed (list nat) :=
  match l, k with
  | [], _ => IndexError
  | x :: rest, 0 => InRange (S x :: rest)
  | x :: rest, S k' =>
      match incrAt k' rest with
      | InRange rest' => InRange (x :: rest')
      | IndexError => IndexError
      end
  end.

(** "Track Iowa State specific data": the first team named ["Iowa St."]
    decides, then [break].  [0 <= totalWins] always holds of a count. *)
Fixpoint trackIowaState (teams : list Team) (first second : string)
  (iowaStateWins iowaStateChampionshipChances : list nat)
  : Indexed (list nat * list nat) :=
  match teams with
  | [] => InRange (iowaStateWins, iowaStateChampionshipChances)
  | team :: rest =>
      if name team == "Iowa St." then
        let conferenceWins := seasonWins team in
        let totalWins := conferenceWins + iowaStateNonConferenceWins in
        if totalWins <=? 12 then
          match incrAt totalWins iowaStateWins with
          | IndexError => IndexError
          | InRange wins' =>
              if (first == "Iowa St.") || (second == "Iowa St.") then
                match incrAt totalWins iowaStateChampionshipChances with
                | IndexError => IndexError
                | InRange chances' => InRange (wins', chances')
                end
              else InRange (wins', iowaStateChampionshipChances)
          end
        else InRange (iowaStateWins, iowaStateChampionshipChances)
      else trackIowaState rest first second
                          iowaStateWins iowaStateChampionshipChances
  end.

(* ================================================================== *)
(** ** The aggregator with all its accumulators *)

(** What [runSimulations] returns, with the games and the state of the
    random module. *)
Record FullRun : Type := mkFullRun {
  fullGames : list Game;
  fullTeams : list Team;
  championshipMatchups : list Matchup;
  iowaStateWins : list nat;
  iowaStateChampionshipChances : list nat;
  fullRandomTiebreakers : nat;
  fullRng : Rng
}.

(** [for simulationNumber in range(numberOfRuns)], every accumulator
    included; the second layer of the result is the [IndexError] of a
    histogram write. *)
Fixpoint simulationLoopFull (numberOfRuns : nat) (run : FullRun)
  : result (Indexed FullRun) :=
  match numberOfRuns with
  | 0 => Ok (InRange run)
  | S remaining =>
      let '(games1, teams1, rng1) :=
        simulateGames (fullGames run) (fullTeams run) (fullRng run) in
      s <- determineStandings games1 teams1 rng1 ;;
      let matchups' :=
        recordMatchup (firstPlace s) (secondPlace s) (championshipMatchups run) in
      match trackIowaState (placedTeams s) (firstPlace s) (secondPlace s)
                           (iowaStateWins run) (iowaStateChampionshipChances run)
      with
      | IndexError => Ok IndexError
      | InRange (wins', chances') =>
          simulationLoopFull remaining
            (mkFullRun games1 (placedTeams s) matchups' wins' chances'
                       (fullRandomTiebreakers run + randomUsed s) (rngAfter s))
      end
  end.

Definition runSimulationsFull (numberOfRuns : nat) (rows : list RawGame)
  (rng : Rng) : result (Indexed FullRun) :=
  let bigTwelveTeams := loadTeamsFromCSV rows in
  games <- loadGameData bigTwelveTeams rows ;;
  let teams := initializeTeamData bigTwelveTeams in
  let championshipMatchups := initializeChampionshipMatchups bigTwelveTeams in
  simulationLoopFull numberOfRuns
    (mkFullRun games teams championshipMatchups
               (repeat 0 13) (repeat 0 13) 0 rng).

(* ================================================================== *)
(** ** The import script, [big12GamesImport.py] *)





(** [s.endswith(suffix)] *)
Fixpoint endswith (s suffix : string) : bool :=
  (s == suffix) ||
  match s with
  | EmptyString => false
  | String _ rest => endswith rest suffix
  end.

(** [name + "." if name.endswith(" St") else name] *)
Definition standardizeName (teamName : string) : string :=
  if endswith teamName " St" then teamName ++ "." else teamName.

(** [standardizeTeamNames]: both identifiers of every game. *)
Definition standardizeTeamNames (games : list RawGame) : list RawGame :=
  map (fun game : RawGame =>
         (standardizeName (fst (fst game)), standardizeName (snd (fst game)),
          snd game))
      games.

(** A dict from identifiers to counts, in insertion order. *)
Definition Counts : Type := list (string * nat).

(** [d.get(key, 0)] *)
Fixpoint countsGet (d : Counts) (key : string) : nat :=
  match d with
  | [] => 0
  | (k, v) :: rest => if k == key then v else countsGet rest key
  end.

(** [d[key] = value] *)
Fixpoint countsSet (d : Counts) (key : string) (value : nat) : Counts :=
  match d with
  | [] => [(key, value)]
  | (k, v) :: rest =>
      if k == key then (k, value) :: rest
      else (k, v) :: countsSet rest key value
  end.

(** The "Count games per team" loop of [validateGameCounts]. *)
Definition teamGameCounts (games : list RawGame) : Counts :=
  fold_left
    (fun d (game : RawGame) =>
       let team1 := fst (fst game) in
       let team2 := snd (fst game) in
       let d1 := countsSet d team1 (countsGet d team1 + 1) in
       countsSet d1 team2 (countsGet d1 team2 + 1))
    games [].

(** A warning line [validateGameCounts] prints. *)
Inductive CountWarning : Type :=
| TotalGames (expectedGames found : nat)
| TeamGames (standardizedName : string) (gameCount : nat).

(** [validateGameCounts], as the list of the warnings it prints;
    [bigTwelveTeams] holds [[name, id]] rows. *)
Definition validateGameCounts (bigTwelveTeams : list (string * string))
  (games : list RawGame) : list CountWarning :=
  let expectedGames := 9 * length bigTwelveTeams / 2 in
  (if length games =? expectedGames then []
   else [TotalGames expectedGames (length games)]) ++
  flat_map
    (fun team : string * string =>
       let standardizedName := standardizeName (fst team) in
       let gameCount := countsGet (teamGameCounts games) standardizedName in
       if gameCount =? 9 then [] else [TeamGames standardizedName gameCount])
    bigTwelveTeams.

(* ================================================================== *)
(** ** Vocabulary of the further properties *)

(** [s] is one of the two identifiers of a row. *)
Definition rowNames (row : RawGame) : list string :=
  [fst (fst row); snd (fst row)].

(** All pairs of a list, each element with those after it. *)
Fixpoint pairings (teams : list string) : list Matchup :=
  match teams with
  | [] => []
  | team :: rest =>
      map (fun other => mkMatchup team other 0) rest ++ pairings rest
  end.

(** The two identifiers of a matchup. *)
Definition matchupPair (matchup : Matchup) : string * string :=
  (matchupHome matchup, matchupAway matchup).

(** The number of games of [games] that [teamName] plays. *)
Definition gamesPlayed (games : list Game) (teamName : string) : nat :=
  length (filter (fun game => (home game == teamName) || (away game == teamName))
                 games).

(** The fixture of [game], its recorded outcome put aside. *)
Definition fixtureOf (game : Game) : Game := setResult game 0.

(** The last character of a string. *)
Fixpoint lastChar (s : string) : option ascii :=
  match s with
  | EmptyString => None
  | String c EmptyString => Some c
  | String _ rest => lastChar rest
  end.

(** The number of rows of [games] naming [teamName], a row naming it twice
    counted twice. *)
Definition appearances (games : list RawGame) (teamName : string) : nat :=
  list_sum (map (fun game : RawGame =>
                   (if fst (fst game) == teamName then 1 else 0) +
                   (if snd (fst game) == teamName then 1 else 0))
                games).


(** [game] is decided in favour of [teamName], as [getHeadToHeadRecord]
    reads it. *)
Definition creditedTo (game : Game) (teamName : string) : bool :=
  (gameResult game =? 1) && (teamName == home game) ||
  (gameResult game =? 0) && (teamName == away game).

(** The games of [games] between two teams of [teamList]. *)
Definition groupGames (games : list Game) (teamList : list string) : list Game :=
  filter (fun game => inb (home game) teamList && inb (away game) teamList)
         games.

(** The games among [teamList] decided in favour of [teamName]. *)
Definition headToHeadWins (games : list Game) (teamList : list string)
  (teamName : string) : nat :=
  length (filter (fun game => creditedTo game teamName)
                 (groupGames games teamList)).

(** Totals of the accumulators of a run. *)
Definition matchupTotal (table : list Matchup) : nat :=
  list_sum (map matchupCount table).

Definition firstsTotal (teams : list Team) : nat :=
  list_sum (map firstPlaceCount teams).

Definition secondsTotal (teams : list Team) : nat :=
  list_sum (map secondPlaceCount teams).

(** The 1st and 2nd places counted for [teamName]. *)
Definition placementsOf (teams : list Team) (teamName : string) : nat :=
  list_sum (map (fun team =>
                   if name team == teamName
                   then firstPlaceCount team + secondPlaceCount team else 0)
                teams).

(** What of a team outlives a trial. *)
Definition tally (team : Team) : string * nat * nat :=
  (name team, firstPlaceCount team, secondPlaceCount team).

(** The state of the accumulators after [trials] trials of the schedule
    [schedule] over the teams [names]. *)
Record Aggregated (schedule : list Game) (names : list string) (trials : nat)
  (run : FullRun) : Prop := mkAggregated {
  aggFixtures : map fixtureOf (fullGames run) = map fixtureOf schedule;
  aggNames : map name (fullTeams run) = names;
  aggPairs : map matchupPair (championshipMatchups run)
             = map matchupPair (initializeChampionshipMatchups names);
  aggMatchups : matchupTotal (championshipMatchups run) = trials;
  aggFirsts : firstsTotal (fullTeams run) = trials;
  aggSeconds : secondsTotal (fullTeams run) = trials;
  aggPlacements : forall teamName,
      placementsOf (fullTeams run) teamName <= trials;
  aggWinsLength : length (iowaStateWins run) = 13;
  aggChancesLength : length (iowaStateChampionshipChances run) = 13;
  aggChances : Forall2 le (iowaStateChampionshipChances run) (iowaStateWins run);
  aggWins : list_sum (iowaStateWins run) <= trials;
  aggIowa : In "Iowa St." names -> gamesPlayed schedule "Iowa St." <= 9 ->
            list_sum (iowaStateWins run) = trials /\
            list_sum (iowaStateChampionshipChances run)
            = placementsOf (fullTeams run) "Iowa St."
}.

(** A schedule of two pairs, Iowa State in one of them. *)
Definition iowaRows : list RawGame :=
  pairRows "Iowa St." "Kansas" ++ pairRows "Baylor" "Utah".

(** The standardized names of the listed teams. *)
Definition listedNames (bigTwelveTeams : list (string * string)) : list string :=
  map (fun team : string * string => standardizeName (fst team)) bigTwelveTeams.

(** Two listed teams that play each other nine times. *)
Definition twoListed : list (string * string) :=
  [("Iowa St", "id1"); ("Kansas", "id2")].
Definition nineGames : list RawGame := repeat ("Iowa St.", "Kansas", half) 9.

(** What the innermost body of [getRecordVsCommonOpponents] adds to the
    tie metric of the team named [teamName'], for one game, one team of
    [teamList] and one opponent of [opponentList]. *)
Definition vsCredit (game : Game) (teamName opponent teamName' : string) : nat :=
  if (home game == teamName) && (away game == opponent) then
    if (gameResult game =? 1) && (teamName' == teamName) then 1 else 0
  else if (away game == teamName) && (home game == opponent) then
    if (gameResult game =? 0) && (teamName' == teamName) then 1 else 0
  else 0.

(** [game] is won by [teamName] against a team of [opponentList]; a game
    of [teamName] with itself counts as a home game. *)
Definition wonAgainst (opponentList : list string) (teamName : string)
  (game : Game) : bool :=
  if home game == teamName
  then inb (away game) opponentList && (gameResult game =? 1)
  else (away game == teamName) && inb (home game) opponentList &&
       (gameResult game =? 0).

(* ================================================================== *)
(** ** Order of identifiers *)

Lemma ltb_asym s1 s2 : String.ltb s1 s2 = true -> String.ltb s2 s1 = false.
Proof.
  unfold String.ltb. rewrite (String.compare_antisym s2 s1).
  destruct (String.compare s1 s2); simpl; congruence.
Qed.

Lemma ltb_total s1 s2 :
  s1 <> s2 -> String.ltb s1 s2 = true \/ String.ltb s2 s1 = true.
Proof.
  intros Hne. unfold String.ltb. rewrite (String.compare_antisym s2 s1).
  destruct (String.compare s1 s2) eqn:E; simpl; auto.
  apply String.compare_eq_iff in E. contradiction.
Qed.

(* ================================================================== *)
(** ** Schedule loading *)

(** C8, as amended.  For a row with distinct identifiers, the row and its
    swapped form are stored with the same ordered pair, the alphabetically
    earlier identifier on the reference side.  When [team2] is the earlier
    one, both are stored identically.  When [team1] is the earlier one, the
    row stores [prob] and the swapped form stores what the row
    [(team1, team2, 1.0 - (1.0 - prob))] stores: the double complement is
    rounded twice. *)
Theorem canonical_swap (team1 team2 : string) (prob : spec_float) :
  team1 <> team2 ->
  let g := normalizeGame (team1, team2, prob) in
  let g' := normalizeGame (swapRow (team1, team2, prob)) in
  home g = home g' /\ away g = away g' /\
  String.ltb (home g) (away g) = true /\
  (String.ltb team2 team1 = true ->
     g = g' /\ storedFixture (team1, team2, prob)
               = storedFixture (swapRow (team1, team2, prob))) /\
  (String.ltb team1 team2 = true ->
     g = mkGame team1 team2 (PyFloat prob) 0 /\
     g' = mkGame team1 team2 (PyFloat (fsub one (fsub one prob))) 0 /\
     storedFixture (swapRow (team1, team2, prob))
     = storedFixture (team1, team2, fsub one (fsub one prob))).
Proof.
  intros Hne. unfold storedFixture, swapRow, normalizeGame; simpl.
  destruct (ltb_total _ _ Hne) as [H | H];
    rewrite H, (ltb_asym _ _ H); simpl; repeat split; auto; discriminate.
Qed.

Lemma canonical_swap_witness :
  let g := normalizeGame ("Baylor", "Utah", tenth) in
  let g' := normalizeGame (swapRow ("Baylor", "Utah", tenth)) in
  home g = home g' /\ away g = away g' /\
  String.ltb (home g) (away g) = true /\
  (String.ltb "Utah" "Baylor" = true ->
     g = g' /\ storedFixture ("Baylor", "Utah", tenth)
               = storedFixture (swapRow ("Baylor", "Utah", tenth))) /\
  (String.ltb "Baylor" "Utah" = true ->
     g = mkGame "Baylor" "Utah" (PyFloat tenth) 0 /\
     g' = mkGame "Baylor" "Utah" (PyFloat (fsub one (fsub one tenth))) 0 /\
     storedFixture (swapRow ("Baylor", "Utah", tenth))
     = storedFixture ("Baylor", "Utah", fsub one (fsub one tenth))).
Proof.
  apply (canonical_swap "Baylor" "Utah" tenth). discriminate.
Defined.

(** C8, as stated, fails at the row [("Baylor", "Utah", 0.1)]: the row stores
    [0.1], its swapped form [("Utah", "Baylor", 0.9)] stores
    [1.0 - 0.9 = 0.09999999999999998], and the two are not even equal as
    numbers. *)
Lemma canonical_swap_differs :
  "Baylor" <> "Utah" /\
  storedFixture ("Baylor", "Utah", tenth)
  <> storedFixture (swapRow ("Baylor", "Utah", tenth)) /\
  (forall g g', storedFixture ("Baylor", "Utah", tenth) = Ok g ->
      storedFixture (swapRow ("Baylor", "Utah", tenth)) = Ok g' ->
      py_eq (winProbability g) (winProbability g') = false).
Proof.
  split; [discriminate|]. split.
  - vm_compute. discriminate.
  - intros g g'. vm_compute. intros H1 H2.
    injection H1 as <-. injection H2 as <-. reflexivity.
Qed.

Lemma py_eq_refl x : finiteNumber x = true -> py_eq x x = true.
Proof.
  unfold finiteNumber, py_eq, num_compare.
  destruct (number_val x) as [| s | q]; try discriminate. intros _.
  replace (Qcompare q q) with Eq; [reflexivity|].
  symmetry. apply Qeq_alt. reflexivity.
Qed.

Lemma integerize_finite game :
  finiteNumber (winProbability game) = true ->
  exists game', integerize game = Ok game' /\ sameFixture game game'.
Proof.
  intros Hfin. unfold integerize.
  destruct (winProbability game) as [z | f] eqn:Hp.
  - exists game. split; [reflexivity|]. unfold sameFixture.
    rewrite Hp. repeat split. now apply py_eq_refl.
  - assert (Hint : exists z, py_int f = Ok z).
    { destruct f; simpl in *; try discriminate; eauto. }
    destruct Hint as [z Hz]. rewrite Hz. simpl.
    destruct (py_eq (PyFloat f) (PyInt z)) eqn:Heq.
    + exists (setProbability game (PyInt z)). split; [reflexivity|].
      unfold sameFixture. simpl. rewrite Hp. repeat split.
      unfold py_eq, num_compare in *. simpl in *.
      destruct (float_val f) as [| s | q]; try discriminate.
      * destruct s; discriminate.
      * rewrite <- Qcompare_antisym.
        destruct (Qcompare q (inject_Z z)); simpl; congruence.
    + exists game. split; [reflexivity|]. unfold sameFixture.
      rewrite Hp. repeat split. now apply py_eq_refl.
Qed.

Lemma integerizeAll_finite games :
  Forall (fun game => finiteNumber (winProbability game) = true) games ->
  exists games', integerizeAll games = Ok games' /\
                 Forall2 sameFixture games games'.
Proof.
  induction 1 as [| game rest Hg _ IH]; simpl.
  - exists []. split; [reflexivity | constructor].
  - destruct (integerize_finite game Hg) as [game' [-> Hsame]].
    destruct IH as [rest' [-> Hrest]]. simpl.
    exists (game' :: rest'). split; [reflexivity | now constructor].
Qed.

(** C6, as amended.  Loading fails fatally, by [sys.exit(1)] and before any
    trial, whenever the number of rows differs from [9 * team_count // 2].
    The range of a probability is not checked: with the right count, every
    schedule whose stored probabilities are finite is loaded, fixture by
    fixture, whatever their values. *)
Theorem load_checks_count_only
  (bigTwelveTeams : list string) (rawGames : list RawGame) :
  (length rawGames <> expectedGameCount bigTwelveTeams ->
   loadGameData bigTwelveTeams rawGames = Raise (SystemExit 1)) /\
  (length rawGames <> expectedGameCount (loadTeamsFromCSV rawGames) ->
   forall numberOfRuns rng,
     runSimulations numberOfRuns rawGames rng = Raise (SystemExit 1)) /\
  (length rawGames = expectedGameCount bigTwelveTeams ->
   Forall (fun game => finiteNumber (winProbability game) = true)
          (map normalizeGame rawGames) ->
   exists games,
     loadGameData bigTwelveTeams rawGames = Ok games /\
     Forall2 sameFixture (map normalizeGame rawGames) games).
Proof.
  assert (Hfail : forall teams, length rawGames <> expectedGameCount teams ->
                    loadGameData teams rawGames = Raise (SystemExit 1)).
  { intros teams Hne. unfold loadGameData. rewrite length_map.
    apply Nat.eqb_neq in Hne. now rewrite Hne. }
  split; [apply Hfail|]. split.
  - intros Hne n rng. unfold runSimulations. now rewrite (Hfail _ Hne).
  - intros Heq Hfin. unfold loadGameData. rewrite length_map.
    apply Nat.eqb_eq in Heq. rewrite Heq.
    now apply integerizeAll_finite.
Qed.

Lemma load_checks_count_only_witness :
  loadGameData ["A"; "B"] (repeat ("A", "B", half) 8) = Raise (SystemExit 1) /\
  (forall numberOfRuns rng,
     runSimulations numberOfRuns (repeat ("A", "B", half) 8) rng
     = Raise (SystemExit 1)) /\
  (exists games,
     loadGameData ["A"; "B"] rowsOutOfRange = Ok games /\
     Forall2 sameFixture (map normalizeGame rowsOutOfRange) games).
Proof.
  split; [| split].
  - apply (proj1 (load_checks_count_only ["A"; "B"] (repeat ("A", "B", half) 8))).
    vm_compute. discriminate.
  - apply (proj1 (proj2 (load_checks_count_only
                           ["A"; "B"] (repeat ("A", "B", half) 8)))).
    vm_compute. discriminate.
  - apply (proj2 (proj2 (load_checks_count_only ["A"; "B"] rowsOutOfRange))).
    + reflexivity.
    + repeat constructor.
Defined.

(** C6, as stated, fails on nine rows [("A", "B", 1.5)]: the count is right
    for the two teams, every probability is outside [0, 1], and the schedule
    is loaded and simulated. *)
Lemma load_accepts_out_of_range :
  loadTeamsFromCSV rowsOutOfRange = ["A"; "B"] /\
  Forall (fun row : RawGame => inUnitRange (PyFloat (snd row)) = false)
         rowsOutOfRange /\
  loadGameData ["A"; "B"] rowsOutOfRange
  = Ok (repeat (mkGame "A" "B" (PyFloat threeHalves) 0) 9) /\
  (exists run, runSimulations 1 rowsOutOfRange rngHalf = Ok run).
Proof.
  split; [reflexivity|]. split; [repeat constructor|].
  split; [reflexivity|].
  vm_compute. eexists. reflexivity.
Qed.

(* ================================================================== *)
(** ** Strength of schedule *)

Lemma addOpponentWins_sum other teams team :
  addOpponentWins other teams team = addTieWins (winsOf teams other) team.
Proof.
  unfold addOpponentWins, winsOf. revert team.
  induction teams as [| opponent rest IH]; intros team; simpl.
  - destruct team. unfold addTieWins, setTieWins. simpl. f_equal. lia.
  - rewrite IH. destruct (other == name opponent); simpl; [|reflexivity].
    destruct team. unfold addTieWins, setTieWins. simpl. f_equal. lia.
Qed.

Lemma winsOf_setTieWins (k : string -> nat) teams other :
  winsOf (map (fun team => setTieWins team (k (name team))) teams) other
  = winsOf teams other.
Proof.
  unfold winsOf. induction teams as [| team rest IH]; simpl; [reflexivity|].
  destruct (other == name team); simpl; congruence.
Qed.

(** What one game adds to the strength of [teamName]. *)
Lemma opponentsOf_cons game games teamName :
  opponentsOf (game :: games) teamName
  = (if home game == teamName then [away game]
     else if away game == teamName then [home game] else [])
    ++ opponentsOf games teamName.
Proof. reflexivity. Qed.

Lemma strengthGame_step (k : string -> nat) game teams :
  strengthGame game (map (fun team => setTieWins team (k (name team))) teams)
  = map (fun team =>
           setTieWins team
             (k (name team) +
              list_sum (map (winsOf teams)
                          (if home game == name team then [away game]
                           else if away game == name team then [home game]
                           else []))))
        teams.
Proof.
  unfold strengthGame. rewrite map_map. apply map_ext. intros team.
  rewrite !addOpponentWins_sum, !winsOf_setTieWins. simpl.
  destruct (home game == name team); [|destruct (away game == name team)];
    unfold addTieWins, setTieWins; simpl; f_equal; lia.
Qed.

Lemma strength_fold (k : string -> nat) games teams :
  fold_left (fun teams game => strengthGame game teams) games
            (map (fun team => setTieWins team (k (name team))) teams)
  = map (fun team =>
           setTieWins team (k (name team) + strengthPerGame games teams (name team)))
        teams.
Proof.
  revert k. induction games as [| game rest IH]; intros k; simpl.
  - apply map_ext. intros team. unfold strengthPerGame. simpl.
    f_equal. lia.
  - rewrite strengthGame_step.
    rewrite (IH (fun teamName =>
                   k teamName +
                   list_sum (map (winsOf teams)
                               (if home game == teamName then [away game]
                                else if away game == teamName then [home game]
                                else [])))).
    apply map_ext. intros team.
    f_equal. unfold strengthPerGame.
    rewrite opponentsOf_cons, map_app, list_sum_app. lia.
Qed.

(** C7, as amended.  [calculateOpponentStrength] leaves every team with a
    tie metric equal to the sum of its opponents' win totals counted once
    per game played, so an opponent met in several fixtures counts once for
    each of them; for a team that meets no opponent twice this is the sum
    counted once per opponent. *)
Theorem strength_counts_every_game
  (games : list Game) (teams : list Team) (teamList : list string) :
  calculateOpponentStrength games teams teamList
  = map (fun team => setTieWins team (strengthPerGame games teams (name team)))
        teams /\
  (forall teamName,
     NoDup (opponentsOf games teamName) ->
     strengthPerGame games teams teamName
     = strengthPerOpponent games teams teamName).
Proof.
  split.
  - unfold calculateOpponentStrength, resetTieWins.
    rewrite (strength_fold (fun _ => 0)). reflexivity.
  - intros teamName Hnd. unfold strengthPerGame, strengthPerOpponent.
    now rewrite nodup_fixed_point.
Qed.

Lemma strength_counts_every_game_witness :
  calculateOpponentStrength [mkGame "A" "B" (PyInt 1) 1] rematchTeams ["A"; "B"]
  = map (fun team =>
           setTieWins team
             (strengthPerGame [mkGame "A" "B" (PyInt 1) 1] rematchTeams (name team)))
        rematchTeams /\
  strengthPerGame [mkGame "A" "B" (PyInt 1) 1] rematchTeams "A"
  = strengthPerOpponent [mkGame "A" "B" (PyInt 1) 1] rematchTeams "A".
Proof.
  destruct (strength_counts_every_game
              [mkGame "A" "B" (PyInt 1) 1] rematchTeams ["A"; "B"]) as [H1 H2].
  split; [exact H1|]. apply H2. simpl. repeat constructor. simpl. tauto.
Defined.

(** C7, as stated, fails when [A] and [B] meet twice: [B]'s one win is
    counted twice in the strength of [A]. *)
Lemma strength_double_counts :
  map tieWins (calculateOpponentStrength rematchGames rematchTeams ["A"; "B"])
  = [2; 2] /\
  map (fun team => strengthPerOpponent rematchGames rematchTeams (name team))
      rematchTeams = [1; 1].
Proof. split; reflexivity. Qed.

(* ================================================================== *)
(** ** Comparisons of numbers *)

Lemma py_ge_not_lt x y :
  is_nan x = false -> is_nan y = false -> py_ge x y = negb (py_lt x y).
Proof.
  unfold is_nan, py_ge, py_lt, num_compare.
  destruct (number_val x) as [| s1 | q1], (number_val y) as [| s2 | q2];
    try discriminate; intros _ _.
  - destruct s1, s2; reflexivity.
  - destruct s1; reflexivity.
  - destruct s2; reflexivity.
  - destruct (Qcompare q1 q2); reflexivity.
Qed.

Lemma unit_draw_value r :
  unit_draw r ->
  exists q, float_val r = XFin q /\ (0 <= q)%Q /\ (q < 1)%Q.
Proof.
  unfold unit_draw, py_ge, py_lt, num_compare. simpl.
  destruct (float_val r) as [| s | q]; intros [Hge Hlt]; try discriminate.
  - destruct s; discriminate.
  - exists q. split; [reflexivity|]. split.
    + apply Qle_alt. change (inject_Z 0) with 0%Q in Hge.
      destruct (Qcompare q 0) eqn:E; try discriminate;
        rewrite <- Qcompare_antisym; rewrite E; discriminate.
    + apply Qlt_alt. change (inject_Z 1) with 1%Q in Hlt.
      destruct (Qcompare q 1); try discriminate; reflexivity.
Qed.

Lemma unit_draw_not_nan r : unit_draw r -> is_nan (PyFloat r) = false.
Proof.
  intros H. destruct (unit_draw_value r H) as [q [Hq _]].
  unfold is_nan. simpl. now rewrite Hq.
Qed.

(** Against a probability equal to 0 no draw is below it. *)
Lemma draw_against_zero r p :
  unit_draw r -> py_eq p (PyInt 0) = true ->
  py_lt (PyFloat r) p = false /\ py_ge (PyFloat r) p = true.
Proof.
  intros Hr Hp. destruct (unit_draw_value r Hr) as [q [Hq [Hge Hlt]]].
  unfold py_eq, py_lt, py_ge, num_compare in *. simpl in *. rewrite Hq.
  destruct (number_val p) as [| s | qp]; try discriminate.
  - destruct s; discriminate.
  - change (inject_Z 0) with 0%Q in Hp.
    destruct (Qcompare qp 0) eqn:E; try discriminate.
    apply Qeq_alt in E. rewrite E.
    apply Qle_alt in Hge. rewrite <- Qcompare_antisym.
    destruct (Qcompare 0 q) eqn:E0; simpl; try (split; reflexivity).
    contradiction.
Qed.

(** Against a probability equal to 1 every draw is below it. *)
Lemma draw_against_one r p :
  unit_draw r -> py_eq p (PyInt 1) = true ->
  py_lt (PyFloat r) p = true /\ py_ge (PyFloat r) p = false.
Proof.
  intros Hr Hp. destruct (unit_draw_value r Hr) as [q [Hq [Hge Hlt]]].
  unfold py_eq, py_lt, py_ge, num_compare in *. simpl in *. rewrite Hq.
  destruct (number_val p) as [| s | qp]; try discriminate.
  - destruct s; discriminate.
  - change (inject_Z 1) with 1%Q in Hp.
    destruct (Qcompare qp 1) eqn:E; try discriminate.
    apply Qeq_alt in E. rewrite E.
    apply Qlt_alt in Hlt. change ((q ?= 1)%Q = Lt) in Hlt.
    rewrite Hlt. split; reflexivity.
Qed.

(* ================================================================== *)
(** ** Season simulator *)

Lemma creditWinner_names winner teams :
  map name (creditWinner winner teams) = map name teams.
Proof.
  unfold creditWinner. rewrite map_map. apply map_ext.
  intros team. now destruct (name team == winner).
Qed.

Lemma simulateGameTeams_reference r game teams :
  py_lt (PyFloat r) (winProbability game) = true ->
  py_ge (PyFloat r) (winProbability game) = false ->
  simulateGameTeams r game teams
  = (if inb (home game) (map name teams) then setResult game 1 else game,
     creditWinner (home game) teams).
Proof.
  revert game. induction teams as [| team rest IH]; intros game Hlt Hge.
  - reflexivity.
  - simpl. rewrite (String.eqb_sym (name team) (home game)).
    destruct (home game == name team) eqn:E.
    + rewrite Hlt. rewrite (IH (setResult game 1) Hlt Hge). simpl.
      now destruct (inb (home game) (map name rest)).
    + destruct (away game == name team); rewrite ?Hge;
        rewrite (IH game Hlt Hge); reflexivity.
Qed.

Lemma simulateGameTeams_other r game teams :
  py_lt (PyFloat r) (winProbability game) = false ->
  py_ge (PyFloat r) (winProbability game) = true ->
  home game <> away game ->
  simulateGameTeams r game teams = (game, creditWinner (away game) teams).
Proof.
  intros Hlt Hge Hne. induction teams as [| team rest IH].
  - reflexivity.
  - simpl. rewrite (String.eqb_sym (name team) (away game)).
    destruct (home game == name team) eqn:E.
    + rewrite Hlt, IH. apply String.eqb_eq in E.
      destruct (away game == name team) eqn:E2; [|reflexivity].
      apply String.eqb_eq in E2. congruence.
    + destruct (away game == name team); rewrite ?Hge, IH; reflexivity.
Qed.

Lemma inb_In s l : inb s l = true <-> In s l.
Proof.
  unfold inb. rewrite existsb_exists. split.
  - intros [x [Hin Heq]]. apply String.eqb_eq in Heq. now subst.
  - intros Hin. exists s. split; [assumption | apply String.eqb_refl].
Qed.

(** One fixture: the draw decides, the winner is recorded and credited. *)
Lemma simulateGame_spec game teams names rng :
  map name teams = map name names ->
  wellFormedFixture names game ->
  unit_draw (uniformDraws rng (randomCalls rng)) ->
  simulateGame game teams rng
  = (let '(r, rng1) := random_random rng in
     let '(game', winner) :=
       if py_lt (PyFloat r) (winProbability game)
       then (setResult game 1, home game)
       else (setResult game 0, away game) in
     (game', creditWinner winner teams, rng1)).
Proof.
  intros Hnames [Hne [Hhome [Haway Hnan]]] Hdraw.
  unfold simulateGame, random_random.
  set (r := uniformDraws rng (randomCalls rng)) in *.
  pose proof (py_ge_not_lt (PyFloat r) (winProbability game)
                (unit_draw_not_nan r Hdraw) Hnan) as Hge.
  destruct (py_lt (PyFloat r) (winProbability game)) eqn:Hlt; simpl in Hge.
  - rewrite (simulateGameTeams_reference r (setResult game 0) teams Hlt Hge).
    simpl. rewrite Hnames. apply inb_In in Hhome. now rewrite Hhome.
  - now rewrite (simulateGameTeams_other r (setResult game 0) teams Hlt Hge Hne).
Qed.

Lemma validDraws_next rng :
  validDraws rng -> validDraws (snd (random_random rng)).
Proof. intros H k. apply H. Qed.

Lemma simulateLoop_spec games : forall teams names rng,
  map name teams = map name names ->
  Forall (wellFormedFixture names) games ->
  validDraws rng ->
  simulateLoop games teams rng = seasonBySpec games teams rng.
Proof.
  induction games as [| game rest IH]; intros teams names rng Hn Hwf Hv.
  - reflexivity.
  - inversion Hwf as [| ? ? Hg Hrest]; subst.
    cbn [simulateLoop seasonBySpec].
    rewrite (simulateGame_spec game teams names rng Hn Hg (Hv _)).
    unfold random_random.
    destruct (py_lt (PyFloat (uniformDraws rng (randomCalls rng)))
                    (winProbability game));
      (rewrite (IH _ names);
       [reflexivity | now rewrite creditWinner_names | assumption
        | intros k; apply Hv]).
Qed.

(** Under unique names a credited winner is exactly one team. *)
Lemma creditWinner_exactly_one winner teams :
  NoDup (map name teams) -> In winner (map name teams) ->
  exists before team after,
    teams = before ++ team :: after /\ name team = winner /\
    creditWinner winner teams = before ++ addSeasonWin team :: after.
Proof.
  induction teams as [| t rest IH]; intros Hnd Hin; [contradiction|].
  simpl in Hnd. apply NoDup_cons_iff in Hnd as [Hnotin Hnd].
  assert (Hrest : forall w, ~ In w (map name rest) -> creditWinner w rest = rest).
  { intros w Hw. unfold creditWinner. 
    rewrite <- (map_id rest) at 2. apply map_ext_in.
    intros a Ha. destruct (name a == w) eqn:E; [|reflexivity].
    apply String.eqb_eq in E. exfalso. apply Hw. subst. now apply in_map. }
  destruct (String.eqb_spec (name t) winner) as [Heq | Hneq].
  - exists [], t, rest. repeat split; [assumption|]. simpl.
    apply String.eqb_eq in Heq as Heqb. rewrite Heqb. f_equal.
    apply Hrest. now rewrite <- Heq.
  - destruct Hin as [Hin | Hin]; [contradiction|].
    destruct (IH Hnd Hin) as [before [team [after [H1 [H2 H3]]]]].
    exists (t :: before), team, after. repeat split.
    + simpl. now f_equal.
    + assumption.
    + simpl. apply String.eqb_neq in Hneq. rewrite Hneq. now f_equal.
Qed.

Lemma creditWinner_total winner teams :
  NoDup (map name teams) -> In winner (map name teams) ->
  list_sum (map seasonWins (creditWinner winner teams))
  = S (list_sum (map seasonWins teams)).
Proof.
  intros Hnd Hin.
  destruct (creditWinner_exactly_one winner teams Hnd Hin)
    as [before [team [after [H1 [_ H3]]]]].
  rewrite H3, H1, !map_app, !list_sum_app. simpl. lia.
Qed.

Lemma seasonBySpec_facts games : forall teams names rng,
  map name teams = map name names ->
  NoDup (map name names) ->
  Forall (wellFormedFixture names) games ->
  let '(games', teams', rng') := seasonBySpec games teams rng in
  randomCalls rng' = randomCalls rng + length games /\
  randrangeCalls rng' = randrangeCalls rng /\
  map name teams' = map name names /\
  Forall (fun game => gameResult game = 0 \/ gameResult game = 1) games' /\
  list_sum (map seasonWins teams')
  = list_sum (map seasonWins teams) + length games.
Proof.
  induction games as [| game rest IH]; intros teams names rng Hn Hnd Hwf.
  - simpl. repeat split; auto.
  - inversion Hwf as [| ? ? Hg Hrest]; subst.
    destruct Hg as [Hne [Hhome [Haway Hnan]]].
    cbn [seasonBySpec]. unfold random_random.
    set (rng1 := mkRng _ _ _ _).
    destruct (py_lt (PyFloat (uniformDraws rng (randomCalls rng)))
                    (winProbability game)).
    + specialize (IH (creditWinner (home game) teams) names rng1).
      destruct (seasonBySpec rest (creditWinner (home game) teams) rng1)
        as [[games' teams'] rng'].
      destruct IH as [H1 [H2 [H3 [H4 H5]]]];
        [now rewrite creditWinner_names | assumption | assumption |].
      rewrite creditWinner_total in H5 by (rewrite Hn; assumption).
      simpl in *. repeat split; auto; try lia.
    + specialize (IH (creditWinner (away game) teams) names rng1).
      destruct (seasonBySpec rest (creditWinner (away game) teams) rng1)
        as [[games' teams'] rng'].
      destruct IH as [H1 [H2 [H3 [H4 H5]]]];
        [now rewrite creditWinner_names | assumption | assumption |].
      rewrite creditWinner_total in H5 by (rewrite Hn; assumption).
      simpl in *. repeat split; auto; try lia.
Qed.

Lemma resetSeason_names teams : map name (map resetSeason teams) = map name teams.
Proof. rewrite map_map. reflexivity. Qed.

Lemma resetSeason_total teams :
  list_sum (map seasonWins (map resetSeason teams)) = 0.
Proof. induction teams; simpl; auto. Qed.

(** C4.  Over fixtures of the data model and draws in [0, 1),
    [simulateGames] is the simulation the specification words: every team
    starts from zero wins and unplaced; each fixture consumes one draw [r],
    records the reference side as winner and credits only it when
    [r < probability], records and credits only the other side otherwise;
    the credited winner is exactly one team, so the season ends with as many
    wins as fixtures, every fixture decided. *)
Theorem simulateGames_meets_spec
  (games : list Game) (teams : list Team) (rng : Rng) :
  NoDup (map name teams) ->
  Forall (wellFormedFixture teams) games ->
  validDraws rng ->
  simulateGames games teams rng = simulateGamesBySpec games teams rng /\
  Forall (fun team => seasonWins team = 0 /\ currentPlace team = 0)
         (map resetSeason teams) /\
  (forall game winner season,
     In game games -> winner = home game \/ winner = away game ->
     map name season = map name teams ->
     exists before team after,
       season = before ++ team :: after /\ name team = winner /\
       creditWinner winner season = before ++ addSeasonWin team :: after) /\
  (let '(games', teams', rng') := simulateGames games teams rng in
   randomCalls rng' = randomCalls rng + length games /\
   randrangeCalls rng' = randrangeCalls rng /\
   Forall (fun game => gameResult game = 0 \/ gameResult game = 1) games' /\
   list_sum (map seasonWins teams') = length games).
Proof.
  intros Hnd Hwf Hv.
  assert (Heq : simulateGames games teams rng
                = simulateGamesBySpec games teams rng).
  { unfold simulateGames, simulateGamesBySpec.
    apply (simulateLoop_spec games _ teams);
      [apply resetSeason_names | assumption | assumption]. }
  split; [exact Heq|]. split; [|split].
  - apply Forall_forall. intros team Hin.
    apply in_map_iff in Hin as [t [<- _]]. split; reflexivity.
  - intros game winner season Hin Hw Hn.
    rewrite Forall_forall in Hwf.
    destruct (Hwf game Hin) as [_ [Hhome [Haway _]]].
    apply creditWinner_exactly_one; rewrite Hn; [assumption|].
    destruct Hw; subst; assumption.
  - rewrite Heq. unfold simulateGamesBySpec.
    pose proof (seasonBySpec_facts games (map resetSeason teams) teams rng
                  (resetSeason_names teams) Hnd Hwf) as H.
    destruct (seasonBySpec games (map resetSeason teams) rng)
      as [[games' teams'] rng'].
    destruct H as [H1 [H2 [H3 [H4 H5]]]].
    rewrite resetSeason_total in H5. auto.
Qed.

Lemma simulateGames_meets_spec_witness :
  NoDup (map name rematchTeams) /\
  Forall (wellFormedFixture rematchTeams) rematchGames /\
  validDraws rngHalf /\
  simulateGames rematchGames rematchTeams rngHalf
  = simulateGamesBySpec rematchGames rematchTeams rngHalf /\
  (let '(games', teams', rng') :=
     simulateGames rematchGames rematchTeams rngHalf in
   randomCalls rng' = randomCalls rngHalf + length rematchGames /\
   randrangeCalls rng' = randrangeCalls rngHalf /\
   Forall (fun game => gameResult game = 0 \/ gameResult game = 1) games' /\
   list_sum (map seasonWins teams') = length rematchGames).
Proof.
  assert (Hnd : NoDup (map name rematchTeams))
    by (repeat constructor; simpl; intuition discriminate).
  assert (Hwf : Forall (wellFormedFixture rematchTeams) rematchGames).
  { repeat constructor; simpl; auto; discriminate. }
  assert (Hv : validDraws rngHalf) by (intros k; split; reflexivity).
  split; [exact Hnd|]. split; [exact Hwf|]. split; [exact Hv|].
  destruct (simulateGames_meets_spec rematchGames rematchTeams rngHalf
              Hnd Hwf Hv) as [H1 [_ [_ H4]]].
  split; [exact H1 | exact H4].
Defined.

(* ================================================================== *)
(** ** [sorted] on identifiers *)

Lemma nameLe_trans a b c : nameLe a b -> nameLe b c -> nameLe a c.
Proof.
  unfold nameLe, String.leb. intros Hab Hbc.
  destruct (String.compare a b) eqn:Eab; try discriminate.
  - apply String.compare_eq_iff in Eab. now subst.
  - destruct (String.compare b c) eqn:Ebc; try discriminate.
    + apply String.compare_eq_iff in Ebc. subst. now rewrite Eab.
    + apply String_as_OT.cmp_lt in Eab, Ebc.
      pose proof (String_as_OT.lt_trans _ _ _ Eab Ebc) as Hac.
      apply String_as_OT.cmp_lt in Hac. unfold String_as_OT.cmp in Hac.
      now rewrite Hac.
Qed.

Lemma nameLe_total a b : nameLe a b \/ nameLe b a.
Proof. apply String.leb_total. Qed.

Lemma nameLe_antisym a b : nameLe a b -> nameLe b a -> a = b.
Proof. apply String.leb_antisym. Qed.

Lemma insert_perm s l : Permutation (insert s l) (s :: l).
Proof.
  induction l as [| x rest IH]; simpl; [reflexivity|].
  destruct (String.leb s x); [reflexivity|].
  rewrite IH. apply perm_swap.
Qed.

Lemma sorted_perm l : Permutation (sorted l) l.
Proof.
  induction l as [| x rest IH]; simpl; [reflexivity|].
  rewrite insert_perm. now constructor.
Qed.

Lemma insert_sorted s l :
  StronglySorted nameLe l -> StronglySorted nameLe (insert s l).
Proof.
  induction 1 as [| x rest Hrest IH Hx]; simpl.
  - repeat constructor.
  - destruct (String.leb s x) eqn:E.
    + constructor; [now constructor|]. constructor; [exact E|].
      eapply Forall_impl; [|exact Hx]. intros y Hy.
      now apply (nameLe_trans s x y).
    + constructor; [exact IH|].
      apply (Permutation_Forall (Permutation_sym (insert_perm s rest))).
      constructor; [|exact Hx].
      destruct (nameLe_total s x) as [H | H]; [|exact H].
      unfold nameLe in H. congruence.
Qed.

Lemma sorted_sorted l : StronglySorted nameLe (sorted l).
Proof.
  induction l as [| x rest IH]; simpl; [constructor|].
  now apply insert_sorted.
Qed.

(** Two ascending lists with the same elements are the same list. *)
Lemma sorted_unique l1 : forall l2,
  StronglySorted nameLe l1 -> StronglySorted nameLe l2 ->
  Permutation l1 l2 -> l1 = l2.
Proof.
  induction l1 as [| a l1 IH]; intros l2 H1 H2 Hp.
  - apply Permutation_nil in Hp. now subst.
  - destruct l2 as [| b l2].
    + apply Permutation_sym, Permutation_nil in Hp. discriminate.
    + inversion H1 as [| ? ? H1' Ha]; subst.
      inversion H2 as [| ? ? H2' Hb]; subst.
      assert (Hab : a = b).
      { assert (Hin_b : In b (a :: l1))
          by (apply (Permutation_in _ (Permutation_sym Hp)); now left).
        assert (Hin_a : In a (b :: l2))
          by (apply (Permutation_in _ Hp); now left).
        destruct Hin_b as [-> | Hin_b]; [reflexivity|].
        destruct Hin_a as [-> | Hin_a]; [reflexivity|].
        rewrite Forall_forall in Ha, Hb.
        apply nameLe_antisym; [now apply Ha | now apply Hb]. }
      subst b. f_equal. apply IH; try assumption.
      now apply Permutation_cons_inv in Hp.
Qed.

Lemma sorted_fixed l : StronglySorted nameLe l -> sorted l = l.
Proof.
  intros H. apply sorted_unique; [apply sorted_sorted | exact H |].
  apply sorted_perm.
Qed.

Lemma sorted_length l : length (sorted l) = length l.
Proof. apply Permutation_length, sorted_perm. Qed.

Lemma sorted_In s l : In s (sorted l) <-> In s l.
Proof.
  split; apply Permutation_in;
    [apply sorted_perm | apply Permutation_sym, sorted_perm].
Qed.

Lemma sorted_NoDup l : NoDup l -> NoDup (sorted l).
Proof. apply Permutation_NoDup, Permutation_sym, sorted_perm. Qed.

(** An ascending, repetition-free list inside another one of no greater
    length is that list. *)
Lemma sorted_sub_full sub full :
  StronglySorted nameLe sub -> StronglySorted nameLe full ->
  NoDup sub -> NoDup full -> incl sub full ->
  sub <> full -> length sub < length full.
Proof.
  intros Hs1 Hs2 Hn1 Hn2 Hincl Hne.
  pose proof (NoDup_incl_length Hn1 Hincl) as Hle.
  destruct (Nat.eq_dec (length sub) (length full)) as [Heq | Hneq]; [|lia].
  exfalso. apply Hne. apply sorted_unique; try assumption.
  apply NoDup_Permutation; try assumption.
  intros x. split; [apply Hincl|].
  apply (NoDup_length_incl Hn1); [lia | exact Hincl].
Qed.

(* ================================================================== *)
(** ** The criteria touch only the tie metric *)

Lemma sameSeason_refl teams : sameSeason teams teams.
Proof. reflexivity. Qed.

Lemma sameSeason_trans t1 t2 t3 :
  sameSeason t1 t2 -> sameSeason t2 t3 -> sameSeason t1 t3.
Proof. unfold sameSeason. congruence. Qed.

Lemma sameSeason_names teams teams' :
  sameSeason teams teams' -> map name teams' = map name teams.
Proof.
  unfold sameSeason, resetTieWins. intros H.
  apply (f_equal (map name)) in H. rewrite !map_map in H. exact H.
Qed.

Lemma sameSeason_wins teams teams' :
  sameSeason teams teams' -> map seasonWins teams' = map seasonWins teams.
Proof.
  unfold sameSeason, resetTieWins. intros H.
  apply (f_equal (map seasonWins)) in H. rewrite !map_map in H. exact H.
Qed.

Lemma sameSeason_place teams teams' :
  sameSeason teams teams' -> map currentPlace teams' = map currentPlace teams.
Proof.
  unfold sameSeason, resetTieWins. intros H.
  apply (f_equal (map currentPlace)) in H. rewrite !map_map in H. exact H.
Qed.

Lemma sameSeason_map (f : Team -> Team) teams :
  (forall team, setTieWins (f team) 0 = setTieWins team 0) ->
  sameSeason teams (map f teams).
Proof.
  intros Hf. unfold sameSeason, resetTieWins. rewrite map_map.
  apply map_ext. exact Hf.
Qed.

Lemma sameSeason_reset teams : sameSeason teams (resetTieWins teams).
Proof. unfold resetTieWins. now apply sameSeason_map. Qed.

Lemma sameSeason_fold {A : Type} (step : list Team -> A -> list Team) l :
  (forall teams a, sameSeason teams (step teams a)) ->
  forall teams, sameSeason teams (fold_left step l teams).
Proof.
  intros Hstep. induction l as [| a rest IH]; intros teams; simpl.
  - apply sameSeason_refl.
  - eapply sameSeason_trans; [apply Hstep | apply IH].
Qed.

Lemma getHeadToHeadRecord_season games teams teamList :
  sameSeason teams (getHeadToHeadRecord games teams teamList).
Proof.
  unfold getHeadToHeadRecord.
  eapply sameSeason_trans; [apply sameSeason_reset|].
  apply sameSeason_fold. intros ts game.
  destruct (inb (home game) teamList && inb (away game) teamList);
    [|apply sameSeason_refl].
  apply sameSeason_map. intros team. unfold headToHeadGame.
  destruct ((gameResult game =? 1) && (name team == home game));
    [reflexivity|].
  now destruct ((gameResult game =? 0) && (name team == away game)).
Qed.

Lemma recordVsOpponent_season game teamName opponent teams :
  sameSeason teams (recordVsOpponent game teamName opponent teams).
Proof.
  unfold recordVsOpponent.
  destruct ((home game == teamName) && (away game == opponent)).
  - apply sameSeason_map. intros team.
    now destruct ((gameResult game =? 1) && (name team == teamName)).
  - destruct ((away game == teamName) && (home game == opponent));
      [|apply sameSeason_refl].
    apply sameSeason_map. intros team.
    now destruct ((gameResult game =? 0) && (name team == teamName)).
Qed.

Lemma getRecordVsCommonOpponents_season games teams teamList opponentList :
  sameSeason teams
    (getRecordVsCommonOpponents games teams teamList opponentList).
Proof.
  unfold getRecordVsCommonOpponents.
  eapply sameSeason_trans; [apply sameSeason_reset|].
  apply sameSeason_fold. intros ts game.
  apply sameSeason_fold. intros ts' teamName.
  apply sameSeason_fold. intros ts'' opponent.
  apply recordVsOpponent_season.
Qed.

Lemma calculateOpponentStrength_season games teams teamList :
  sameSeason teams (calculateOpponentStrength games teams teamList).
Proof.
  unfold calculateOpponentStrength, resetTieWins.
  rewrite (strength_fold (fun _ => 0)). now apply sameSeason_map.
Qed.

(* ================================================================== *)
(** ** Keeping the candidates at the maximum *)

Lemma fold_max_In l : forall x, In (fold_left Nat.max l x) (x :: l).
Proof.
  induction l as [| a rest IH]; intros x; simpl.
  - now left.
  - destruct (IH (Nat.max x a)) as [H | H]; [|now right; right].
    rewrite <- H. destruct (Nat.max_dec x a) as [E | E]; rewrite E; auto.
Qed.

Lemma py_max_In l m : py_max l = Ok m -> In m l.
Proof.
  destruct l as [| x rest]; simpl; [discriminate|].
  intros H. injection H as <-. apply fold_max_In.
Qed.

Lemma py_max_nonempty l : l <> [] -> exists m, py_max l = Ok m.
Proof. destruct l; [congruence | simpl; eauto]. Qed.

Lemma maxTieWinsAmong_ok teams winners :
  winners <> [] -> incl winners (map name teams) ->
  exists m, maxTieWinsAmong teams winners = Ok m.
Proof.
  intros Hne Hincl. apply py_max_nonempty.
  destruct winners as [| w rest]; [congruence|].
  assert (Hw : In w (map name teams)) by (apply Hincl; now left).
  apply in_map_iff in Hw as [team [Hname Hin]].
  assert (Hf : In team (filter (fun team => inb (name team) (w :: rest)) teams)).
  { apply filter_In. split; [assumption|]. apply inb_In. rewrite Hname. now left. }
  intros Hnil. apply (in_map tieWins) in Hf. rewrite Hnil in Hf. contradiction.
Qed.

Lemma keepByTieWins_In teams winners m s :
  In s (keepByTieWins teams winners m) <->
  exists team, In team teams /\ name team = s /\ In s winners /\ tieWins team = m.
Proof.
  unfold keepByTieWins. rewrite sorted_In, in_map_iff. split.
  - intros [team [Hname Hin]]. apply filter_In in Hin as [Hin Hcond].
    apply andb_true_iff in Hcond as [Hw Hm].
    exists team. repeat split; auto.
    + apply inb_In in Hw. now rewrite <- Hname.
    + now apply Nat.eqb_eq.
  - intros [team [Hin [Hname [Hw Hm]]]]. exists team. split; [assumption|].
    apply filter_In. split; [assumption|]. apply andb_true_iff. split.
    + apply inb_In. now rewrite Hname.
    + now apply Nat.eqb_eq.
Qed.

Lemma keepByTieWins_max teams winners m :
  maxTieWinsAmong teams winners = Ok m -> keepByTieWins teams winners m <> [].
Proof.
  intros Hmax. apply py_max_In in Hmax.
  apply in_map_iff in Hmax as [team [Hm Hin]].
  apply filter_In in Hin as [Hin Hw]. apply inb_In in Hw.
  assert (H : In (name team) (keepByTieWins teams winners m)).
  { apply keepByTieWins_In. exists team. auto. }
  intros Hnil. rewrite Hnil in H. contradiction.
Qed.

Lemma NoDup_map_filter {A B : Type} (f : A -> B) (p : A -> bool) l :
  NoDup (map f l) -> NoDup (map f (filter p l)).
Proof.
  induction l as [| a rest IH]; simpl; intros Hnd; [constructor|].
  apply NoDup_cons_iff in Hnd as [Hnotin Hnd].
  destruct (p a); simpl; [|now apply IH].
  constructor; [|now apply IH].
  intros Hin. apply Hnotin. apply in_map_iff in Hin as [x [Hx Hin]].
  apply filter_In in Hin as [Hin _]. rewrite <- Hx. now apply in_map.
Qed.

(** The kept candidates form a candidate set inside [winners]; when they
    differ from [winners] they are fewer. *)
Lemma keepByTieWins_shrinks teams names winners m :
  map name teams = names -> NoDup names -> Candidates names winners ->
  keepByTieWins teams winners m <> [] ->
  keepByTieWins teams winners m <> winners ->
  Shrinks names winners (Some (keepByTieWins teams winners m)).
Proof.
  intros Hnames Hnd [Hsorted Hnodup Hne Hknown] Hnonempty Hdiff.
  assert (Hincl : incl (keepByTieWins teams winners m) winners).
  { intros s Hs. apply keepByTieWins_In in Hs as [team [_ [_ [Hw _]]]].
    exact Hw. }
  assert (Hkn : NoDup (keepByTieWins teams winners m)).
  { unfold keepByTieWins. apply sorted_NoDup, NoDup_map_filter.
    now rewrite Hnames. }
  assert (Hks : StronglySorted nameLe (keepByTieWins teams winners m))
    by apply sorted_sorted.
  simpl. split; [|split].
  - constructor; auto. intros s Hs. apply Hknown, Hincl, Hs.
  - exact Hincl.
  - now apply sorted_sub_full.
Qed.

(** The shape shared by the criteria: take the maximum of the tie metric
    among the candidates and keep those who reach it. *)
Lemma keep_maximum_ok teams teams1 winners :
  NoDup (map name teams) -> Candidates (map name teams) winners ->
  sameSeason teams teams1 ->
  exists m, maxTieWinsAmong teams1 winners = Ok m /\
    Shrinks (map name teams) winners
      (if names_eq_dec (keepByTieWins teams1 winners m) winners
       then None else Some (keepByTieWins teams1 winners m)).
Proof.
  intros Hnd Hc Hs. pose proof (sameSeason_names _ _ Hs) as Hn.
  destruct (maxTieWinsAmong_ok teams1 winners) as [m Hm].
  - apply Hc.
  - rewrite Hn. apply Hc.
  - exists m. split; [exact Hm|].
    destruct (names_eq_dec (keepByTieWins teams1 winners m) winners);
      [exact I|].
    apply keepByTieWins_shrinks; auto. now apply keepByTieWins_max.
Qed.

(* ================================================================== *)
(** ** Each criterion runs to its end and can only shrink the set *)

Ltac criterion_done :=
  eexists _, _; split; [reflexivity | split; [eassumption|]];
  first [exact I | assumption].

Section Criteria.

Variable games : list Game.
Variable teams0 : list Team.
Hypothesis uniqueNames : NoDup (map name teams0).

Lemma strengthOfSchedule_ok teams winners :
  Candidates (map name teams0) winners -> sameSeason teams0 teams ->
  CriterionOk teams0 winners (strengthOfSchedule games winners teams).
Proof.
  intros Hc Hs. unfold strengthOfSchedule.
  assert (Hs1 : sameSeason teams0 (calculateOpponentStrength games teams winners))
    by (eapply sameSeason_trans; [exact Hs | apply calculateOpponentStrength_season]).
  destruct (keep_maximum_ok teams0 _ winners uniqueNames Hc Hs1) as [m [Hm Hshr]].
  rewrite Hm. cbn [bind]. revert Hshr.
  destruct (names_eq_dec _ winners); intros Hshr; criterion_done.
Qed.

Lemma recordVsAllCommon_ok commonOpponents teams winners :
  Candidates (map name teams0) winners -> sameSeason teams0 teams ->
  CriterionOk teams0 winners
    (recordVsAllCommon games commonOpponents winners teams).
Proof.
  intros Hc Hs. unfold recordVsAllCommon.
  destruct commonOpponents as [| o rest].
  - criterion_done.
  - set (teams1 := getRecordVsCommonOpponents games teams winners (o :: rest)).
    assert (Hs1 : sameSeason teams0 teams1)
      by (eapply sameSeason_trans;
          [exact Hs | apply getRecordVsCommonOpponents_season]).
    destruct (keep_maximum_ok teams0 _ winners uniqueNames Hc Hs1) as [m [Hm Hshr]].
    rewrite Hm. cbn [bind]. revert Hshr.
    destruct (0 <? m); [|intros _; criterion_done].
    destruct (names_eq_dec _ winners); intros Hshr; criterion_done.
Qed.

Lemma commonOpponentTiers_ok commonOpponents winners levels :
  Candidates (map name teams0) winners ->
  forall teams, sameSeason teams0 teams ->
  CriterionOk teams0 winners
    (commonOpponentTiers games commonOpponents winners levels teams).
Proof.
  intros Hc. induction levels as [| recordLevel IH]; intros teams Hs.
  - criterion_done.
  - cbn [commonOpponentTiers].
    destruct (map name (filter _ teams)) as [| o rest] eqn:Hopp;
      [now apply IH|].
    set (teams1 := getRecordVsCommonOpponents games teams winners (o :: rest)).
    assert (Hs1 : sameSeason teams0 teams1)
      by (eapply sameSeason_trans;
          [exact Hs | apply getRecordVsCommonOpponents_season]).
    destruct (keep_maximum_ok teams0 _ winners uniqueNames Hc Hs1) as [m [Hm Hshr]].
    rewrite Hm. cbn [bind]. revert Hshr.
    destruct (0 <? m); [|intros _; now apply IH].
    destruct (names_eq_dec _ winners); intros Hshr; [now apply IH|].
    criterion_done.
Qed.

Lemma groupHeadToHead_ok teams winners :
  Candidates (map name teams0) winners -> sameSeason teams0 teams ->
  CriterionOk teams0 winners (groupHeadToHead games winners teams).
Proof.
  intros Hc Hs. unfold groupHeadToHead.
  set (teams1 := getHeadToHeadRecord games teams winners).
  assert (Hs1 : sameSeason teams0 teams1)
    by (eapply sameSeason_trans; [exact Hs | apply getHeadToHeadRecord_season]).
  destruct (_ =? _).
  - destruct (keep_maximum_ok teams0 _ winners uniqueNames Hc Hs1) as [m [Hm Hshr]].
    rewrite Hm. cbn [bind]. revert Hshr.
    destruct (names_eq_dec _ winners); intros Hshr; criterion_done.
  - destruct (names_eq_dec _ winners) as [Heq | Hdiff]; [criterion_done|].
    destruct (keepByTieWins teams1 winners (length winners - 1))
      as [| w rest] eqn:Hk; [criterion_done|].
    exists teams1, (Some (w :: rest)).
    split; [reflexivity|]. split; [assumption|].
    rewrite <- Hk. apply keepByTieWins_shrinks; auto.
    + now apply sameSeason_names.
    + rewrite Hk. discriminate.
    + now rewrite Hk.
Qed.

Lemma teams_nonempty winners teams :
  Candidates (map name teams0) winners -> sameSeason teams0 teams ->
  exists maxWins, py_max (map seasonWins teams) = Ok maxWins.
Proof.
  intros [_ _ Hne Hknown] Hs. apply py_max_nonempty.
  rewrite (sameSeason_wins _ _ Hs).
  destruct winners as [| w rest]; [congruence|].
  assert (Hw : In w (map name teams0)) by (apply Hknown; now left).
  destruct teams0; [contradiction | discriminate].
Qed.

(** One pass of the multi-team loop reaches step 5 or shrinks the set. *)
Lemma multiTeamCriteria_ok teams winners :
  Candidates (map name teams0) winners -> sameSeason teams0 teams ->
  CriterionOk teams0 winners (multiTeamCriteria games teams winners).
Proof.
  intros Hc Hs. unfold multiTeamCriteria.
  destruct (groupHeadToHead_ok teams winners Hc Hs)
    as [teams1 [shrunk1 [-> [Hs1 Hshr1]]]]. cbn [bind].
  destruct shrunk1; [criterion_done|].
  assert (Hmax : exists maxWins, py_max (map seasonWins teams1) = Ok maxWins)
    by (eapply teams_nonempty; eassumption).
  destruct Hmax as [maxWins ->]. cbn [bind].
  destruct (commonOpponentTiers_ok
              (findCommonOpponents games teams1 winners) winners (S maxWins)
              Hc teams1 Hs1)
    as [teams2 [shrunk2 [-> [Hs2 Hshr2]]]]. cbn [bind].
  destruct shrunk2; [criterion_done|].
  destruct (recordVsAllCommon_ok
              (findCommonOpponents games teams1 winners) teams2 winners Hc Hs2)
    as [teams3 [shrunk3 [-> [Hs3 Hshr3]]]]. cbn [bind].
  destruct shrunk3; [criterion_done|].
  now apply strengthOfSchedule_ok.
Qed.

End Criteria.

(* ================================================================== *)
(** ** The tie-break engine returns one candidate *)

Lemma headToHead_In games w0 w1 w :
  headToHead games w0 w1 = Some w -> w = w0 \/ w = w1.
Proof.
  induction games as [| game rest IH]; simpl; [discriminate|].
  destruct ((home game == w0) && (away game == w1)).
  - intros H. injection H as <-. destruct (gameResult game =? 1); auto.
  - destruct ((home game == w1) && (away game == w0)); [|exact IH].
    intros H. injection H as <-. destruct (gameResult game =? 1); auto.
Qed.

Lemma Candidates_single names w : In w names -> Candidates names [w].
Proof.
  intros Hin. constructor.
  - repeat constructor.
  - repeat constructor. intros [].
  - discriminate.
  - intros s [<- | []]. exact Hin.
Qed.

Lemma Candidates_sorted names tied :
  NoDup tied -> tied <> [] -> incl tied names -> Candidates names (sorted tied).
Proof.
  intros Hnd Hne Hincl. constructor.
  - apply sorted_sorted.
  - now apply sorted_NoDup.
  - intros Hnil. apply Hne. apply length_zero_iff_nil.
    rewrite <- sorted_length, Hnil. reflexivity.
  - intros s Hs. apply Hincl. now apply sorted_In.
Qed.

Lemma orKeep_ok names winners shrunk :
  Candidates names winners -> Shrinks names winners shrunk ->
  Candidates names (orKeep shrunk winners) /\
  incl (orKeep shrunk winners) winners /\
  length (orKeep shrunk winners) <= length winners.
Proof.
  intros Hc Hshr. destruct shrunk as [newWinners |]; simpl in *.
  - destruct Hshr as [H1 [H2 H3]].
    split; [exact H1 | split; [exact H2 | lia]].
  - split; [exact Hc | split; [apply incl_refl | lia]].
Qed.

Lemma randrange_ok n rng :
  n <> 0 ->
  randrange n rng
  = Ok (rangeDraws rng (randrangeCalls rng) mod n, afterRandrange rng) /\
  rangeDraws rng (randrangeCalls rng) mod n < n.
Proof.
  intros Hn. unfold randrange. apply Nat.eqb_neq in Hn as Hb. rewrite Hb.
  split; [reflexivity|]. now apply Nat.mod_upper_bound.
Qed.

Section Engine.

Variable games : list Game.
Variable teams0 : list Team.
Hypothesis uniqueNames : NoDup (map name teams0).

Lemma twoTeamCriteria_ok teams winners :
  Candidates (map name teams0) winners -> sameSeason teams0 teams ->
  exists teams' winners',
    twoTeamCriteria games teams winners = Ok (teams', winners') /\
    sameSeason teams0 teams' /\
    Candidates (map name teams0) winners' /\ incl winners' winners.
Proof.
  intros Hc Hs. unfold twoTeamCriteria.
  set (winners1 := match winners with
                   | [w0; w1] => match headToHead games w0 w1 with
                                 | Some w => [w]
                                 | None => winners
                                 end
                   | _ => winners
                   end).
  assert (H1 : Candidates (map name teams0) winners1 /\ incl winners1 winners).
  { subst winners1. destruct winners as [| w0 [| w1 [| w2 rest]]];
      try (split; [exact Hc | apply incl_refl]).
    destruct (headToHead games w0 w1) as [w |] eqn:Hh;
      [|split; [exact Hc | apply incl_refl]].
    apply headToHead_In in Hh.
    assert (Hin : In w [w0; w1]) by (simpl; destruct Hh; auto).
    split.
    - apply Candidates_single. now apply (candKnown _ _ Hc).
    - intros s [<- | []]. exact Hin. }
  clearbody winners1. destruct H1 as [Hc1 Hi1].
  destruct (length winners1 =? 1); [exists teams, winners1; auto|].
  assert (Hdone : forall teams' winners',
             sameSeason teams0 teams' ->
             Candidates (map name teams0) winners' -> incl winners' winners ->
             exists teams'' winners'',
               Ok (teams', winners') = Ok (teams'', winners'') /\
               sameSeason teams0 teams'' /\
               Candidates (map name teams0) winners'' /\ incl winners'' winners)
    by (intros t w ? ? ?; exists t, w; auto).
  assert (Hmax : exists maxWins, py_max (map seasonWins teams) = Ok maxWins)
    by (eapply teams_nonempty; eassumption).
  destruct Hmax as [maxWins ->]. cbn [bind].
  destruct (commonOpponentTiers_ok games teams0 uniqueNames
              (findCommonOpponents games teams winners1) winners1 (S maxWins)
              Hc1 teams Hs)
    as [teams2 [shrunk2 [-> [Hs2 Hshr2]]]]. cbn [bind].
  destruct (orKeep_ok _ _ _ Hc1 Hshr2) as [Hc2 [Hi2 _]].
  destruct (length (orKeep shrunk2 winners1) =? 1).
  { apply Hdone; auto. eapply incl_tran; eauto. }
  destruct (recordVsAllCommon_ok games teams0 uniqueNames
              (findCommonOpponents games teams winners1) teams2 _ Hc2 Hs2)
    as [teams3 [shrunk3 [-> [Hs3 Hshr3]]]]. cbn [bind].
  destruct (orKeep_ok _ _ _ Hc2 Hshr3) as [Hc3 [Hi3 _]].
  destruct (length (orKeep shrunk3 _) =? 1).
  { apply Hdone; auto.
    eapply incl_tran; [|exact Hi1]. eapply incl_tran; eauto. }
  destruct (strengthOfSchedule_ok games teams0 uniqueNames teams3 _ Hc3 Hs3)
    as [teams4 [shrunk4 [-> [Hs4 Hshr4]]]]. cbn [bind].
  destruct (orKeep_ok _ _ _ Hc3 Hshr4) as [Hc4 [Hi4 _]].
  apply Hdone; auto.
  eapply incl_tran; [|exact Hi1]. eapply incl_tran; [|exact Hi2].
  eapply incl_tran; eauto.
Qed.

(** The two-team procedure ends with one of its candidates. *)
Lemma twoTeamTiebreaker_ok teams winners rng :
  Candidates (map name teams0) winners -> sameSeason teams0 teams ->
  exists teams' w used rng',
    twoTeamTiebreaker games teams winners rng = Ok (teams', [w], used, rng') /\
    In w winners /\ sameSeason teams0 teams'.
Proof.
  intros Hc Hs. unfold twoTeamTiebreaker.
  destruct (twoTeamCriteria_ok teams winners Hc Hs)
    as [teams' [winners' [-> [Hs' [Hc' Hi']]]]]. cbn [bind].
  destruct (length winners' =? 1) eqn:Hlen.
  - apply Nat.eqb_eq in Hlen.
    destruct winners' as [| w [| ? ?]]; try discriminate.
    exists teams', w, false, rng.
    split; [reflexivity|]. split; [|exact Hs']. apply Hi'. now left.
  - apply Nat.eqb_neq in Hlen.
    assert (Hpos : length winners' <> 0).
    { intros H0. apply length_zero_iff_nil in H0. now apply Hc'. }
    assert (Hlt : (1 <? length winners') = true) by (apply Nat.ltb_lt; lia).
    rewrite Hlt. destruct (randrange_ok (length winners') rng Hpos) as [-> Hk].
    cbn [bind]. eexists _, _, _, _. split; [reflexivity|]. split; [|exact Hs'].
    apply Hi'. now apply nth_In.
Qed.

(** The multi-team loop ends within [length winners - 2] passes, on at most
    two candidates of the set it started from. *)
Lemma multiTeamLoop_ok fuel : forall teams winners rng,
  Candidates (map name teams0) winners -> sameSeason teams0 teams ->
  length winners - 2 <= fuel ->
  exists teams' winners' used rng',
    multiTeamLoop fuel games teams winners rng
    = Ok (teams', winners', used, rng') /\
    sameSeason teams0 teams' /\
    Candidates (map name teams0) winners' /\ incl winners' winners /\
    length winners' <= 2.
Proof.
  induction fuel as [| fuel IH]; intros teams winners rng Hc Hs Hfuel.
  - simpl. assert (Hle : (length winners <=? 2) = true) by (apply Nat.leb_le; lia).
    rewrite Hle. exists teams, winners, false, rng.
    split; [reflexivity|]. split; [exact Hs|]. split; [exact Hc|].
    split; [apply incl_refl | lia].
  - cbn [multiTeamLoop]. destruct (length winners <=? 2) eqn:Hle.
    + apply Nat.leb_le in Hle. exists teams, winners, false, rng.
      split; [reflexivity|]. split; [exact Hs|]. split; [exact Hc|].
      split; [apply incl_refl | lia].
    + apply Nat.leb_gt in Hle.
      destruct (multiTeamCriteria_ok games teams0 uniqueNames teams winners Hc Hs)
        as [teams' [shrunk [-> [Hs' Hshr]]]]. cbn [bind].
      destruct shrunk as [newWinners |].
      * destruct Hshr as [Hc' [Hi' Hlt]].
        destruct (IH teams' newWinners rng Hc' Hs') as
          [teams'' [winners'' [used [rng' [Heq [H1 [H2 [H3 H4]]]]]]]]; [lia|].
        exists teams'', winners'', used, rng'.
        split; [exact Heq|]. split; [exact H1|]. split; [exact H2|].
        split; [eapply incl_tran; eauto | exact H4].
      * destruct (randrange_ok (length winners) rng) as [-> Hk]; [lia|].
        cbn [bind]. eexists _, _, _, _. split; [reflexivity|].
        assert (Hin : In (nth (rangeDraws rng (randrangeCalls rng)
                                 mod length winners) winners "") winners)
          by now apply nth_In.
        split; [exact Hs'|]. split; [|split].
        -- apply Candidates_single. now apply (candKnown _ _ Hc).
        -- intros s [<- | []]. exact Hin.
        -- simpl. lia.
Qed.

(** [resolveTiebreaker], given enough passes, returns exactly one of the
    tied teams. *)
Lemma resolveTiebreakerFuel_ok fuel teams tiedTeams rng :
  NoDup tiedTeams -> tiedTeams <> [] -> incl tiedTeams (map name teams0) ->
  sameSeason teams0 teams -> length tiedTeams - 2 <= fuel ->
  exists teams' w used rng',
    resolveTiebreakerFuel fuel games teams tiedTeams rng
    = Ok (teams', [w], used, rng') /\
    In w tiedTeams /\ sameSeason teams0 teams'.
Proof.
  intros Hnd Hne Hincl Hs Hfuel. unfold resolveTiebreakerFuel.
  pose proof (Candidates_sorted _ _ Hnd Hne Hincl) as Hc.
  destruct (length (sorted tiedTeams) =? 1) eqn:H1.
  - apply Nat.eqb_eq in H1.
    destruct (sorted tiedTeams) as [| w [| ? ?]] eqn:Hsorted; try discriminate.
    exists teams, w, false, rng.
    split; [reflexivity|]. split; [|exact Hs].
    apply sorted_In. rewrite Hsorted. now left.
  - destruct (length (sorted tiedTeams) =? 2) eqn:H2.
    + destruct (twoTeamTiebreaker_ok teams (sorted tiedTeams) rng Hc Hs)
        as [teams' [w [used [rng' [-> [Hin Hs']]]]]].
      exists teams', w, used, rng'.
      split; [reflexivity|]. split; [now apply sorted_In | exact Hs'].
    + destruct (multiTeamLoop_ok fuel teams (sorted tiedTeams) rng Hc Hs)
        as [teams' [winners' [used [rng' [-> [Hs' [Hc' [Hi' Hlen]]]]]]]];
        [rewrite sorted_length; lia|]. cbn [bind].
      destruct (length winners' =? 2) eqn:H2'.
      * rewrite (sorted_fixed winners' (candSorted _ _ Hc')).
        destruct (twoTeamTiebreaker_ok teams' winners' rng' Hc' Hs')
          as [teams'' [w [used' [rng'' [-> [Hin Hs'']]]]]].
        exists teams'', w, used', rng''.
        split; [reflexivity|]. split; [|exact Hs''].
        apply sorted_In, Hi', Hin.
      * apply Nat.eqb_neq in H2'.
        assert (Hpos : length winners' <> 0).
        { intros H0. apply length_zero_iff_nil in H0. now apply Hc'. }
        destruct winners' as [| w [| ? ?]]; simpl in *; try lia.
        exists teams', w, used, rng'.
        split; [reflexivity|]. split; [|exact Hs'].
        apply sorted_In, Hi'. now left.
Qed.

End Engine.

(* ================================================================== *)
(** ** The flag and the random module *)

Lemma randrange_inv n rng k rng' :
  randrange n rng = Ok (k, rng') ->
  rng' = afterRandrange rng /\
  k = rangeDraws rng (randrangeCalls rng) mod n.
Proof.
  unfold randrange. destruct (n =? 0); [discriminate|].
  intros H. injection H as <- <-. split; reflexivity.
Qed.

Lemma bind_Ok {A B : Type} (c : result A) (k : A -> result B) b :
  bind c k = Ok b -> exists a, c = Ok a /\ k a = Ok b.
Proof. destruct c; simpl; try discriminate. eauto. Qed.

(** The two-team procedure sets the flag exactly when it calls [randrange],
    and then it calls it once. *)
Lemma twoTeamTiebreaker_flag games teams winners rng teams' winners' used rng' :
  twoTeamTiebreaker games teams winners rng = Ok (teams', winners', used, rng') ->
  fallbackFlag used rng rng'.
Proof.
  unfold twoTeamTiebreaker. intros H.
  apply bind_Ok in H as [[teams1 winners1] [_ H]].
  destruct (length winners1 =? 1).
  - injection H as <- <- <- <-. reflexivity.
  - destruct (1 <? length winners1).
    + apply bind_Ok in H as [[k rng1] [Hr H]].
      injection H as <- <- <- <-. apply randrange_inv in Hr as [-> _].
      reflexivity.
    + injection H as <- <- <- <-. reflexivity.
Qed.

(** Without the flag, the outcome does not depend on the random module. *)
Lemma twoTeamTiebreaker_independent
  games teams winners rng teams' winners' rng' :
  twoTeamTiebreaker games teams winners rng
  = Ok (teams', winners', false, rng') ->
  forall rng2,
    twoTeamTiebreaker games teams winners rng2
    = Ok (teams', winners', false, rng2).
Proof.
  unfold twoTeamTiebreaker. intros H rng2.
  apply bind_Ok in H as [[teams1 winners1] [-> H]]. cbn [bind].
  destruct (length winners1 =? 1).
  - injection H as <- <- <-. reflexivity.
  - destruct (1 <? length winners1).
    + apply bind_Ok in H as [[k rng1] [_ H]]. discriminate.
    + injection H as <- <- <-. reflexivity.
Qed.

Lemma multiTeamLoop_flag games fuel :
  forall teams winners rng teams' winners' used rng',
  multiTeamLoop fuel games teams winners rng
  = Ok (teams', winners', used, rng') ->
  fallbackFlag used rng rng' /\ (used = true -> length winners' = 1).
Proof.
  induction fuel as [| fuel IH];
    intros teams winners rng teams' winners' used rng' H;
    cbn [multiTeamLoop] in H;
    (destruct (length winners <=? 2);
     [injection H as <- <- <- <-; split; [reflexivity | discriminate]|]).
  - discriminate.
  - apply bind_Ok in H as [[teams1 shrunk] [_ H]].
    destruct shrunk as [newWinners |]; [now apply IH in H|].
    apply bind_Ok in H as [[k rng1] [Hr H]].
    injection H as <- <- <- <-. apply randrange_inv in Hr as [-> _].
    split; reflexivity.
Qed.

Lemma multiTeamLoop_independent games fuel :
  forall teams winners rng teams' winners' rng',
  multiTeamLoop fuel games teams winners rng
  = Ok (teams', winners', false, rng') ->
  forall rng2,
    multiTeamLoop fuel games teams winners rng2
    = Ok (teams', winners', false, rng2).
Proof.
  induction fuel as [| fuel IH];
    intros teams winners rng teams' winners' rng' H rng2;
    cbn [multiTeamLoop] in *;
    (destruct (length winners <=? 2);
     [injection H as <- <- <-; reflexivity|]).
  - discriminate.
  - apply bind_Ok in H as [[teams1 shrunk] [-> H]]. cbn [bind].
    destruct shrunk as [newWinners |];
      [exact (IH _ _ _ _ _ _ H rng2)|].
    apply bind_Ok in H as [[k rng1] [_ H]]. discriminate.
Qed.

(** [resolveTiebreaker] sets the flag exactly when it calls [randrange], and
    then it calls it once. *)
Lemma resolveTiebreakerFuel_flag
  fuel games teams tiedTeams rng teams' winners' used rng' :
  resolveTiebreakerFuel fuel games teams tiedTeams rng
  = Ok (teams', winners', used, rng') ->
  fallbackFlag used rng rng'.
Proof.
  unfold resolveTiebreakerFuel. intros H.
  destruct (length (sorted tiedTeams) =? 1).
  - injection H as <- <- <- <-. reflexivity.
  - destruct (length (sorted tiedTeams) =? 2).
    + now apply twoTeamTiebreaker_flag in H.
    + apply bind_Ok in H as [[[[teams1 winners1] used1] rng1] [Hm H]].
      apply multiTeamLoop_flag in Hm as [Hflag Hlen].
      destruct (length winners1 =? 2) eqn:H2.
      * destruct used1.
        -- apply Nat.eqb_eq in H2. rewrite Hlen in H2 by reflexivity.
           discriminate.
        -- simpl in Hflag. subst rng1. now apply twoTeamTiebreaker_flag in H.
      * injection H as <- <- <- <-. exact Hflag.
Qed.

Lemma resolveTiebreakerFuel_independent
  fuel games teams tiedTeams rng teams' winners' rng' :
  resolveTiebreakerFuel fuel games teams tiedTeams rng
  = Ok (teams', winners', false, rng') ->
  forall rng2,
    resolveTiebreakerFuel fuel games teams tiedTeams rng2
    = Ok (teams', winners', false, rng2).
Proof.
  unfold resolveTiebreakerFuel. intros H rng2.
  destruct (length (sorted tiedTeams) =? 1).
  - injection H as <- <- <-. reflexivity.
  - destruct (length (sorted tiedTeams) =? 2).
    + exact (twoTeamTiebreaker_independent _ _ _ _ _ _ _ H rng2).
    + apply bind_Ok in H as [[[[teams1 winners1] used1] rng1] [Hm H]].
      destruct (length winners1 =? 2) eqn:H2.
      * pose proof (multiTeamLoop_flag _ _ _ _ _ _ _ _ _ Hm) as [Hflag Hlen].
        destruct used1.
        -- apply Nat.eqb_eq in H2. rewrite Hlen in H2 by reflexivity.
           discriminate.
        -- rewrite (multiTeamLoop_independent _ _ _ _ _ _ _ _ Hm rng2).
           cbn [bind]. rewrite H2.
           exact (twoTeamTiebreaker_independent _ _ _ _ _ _ _ H rng2).
      * injection H as <- <- -> <-.
        rewrite (multiTeamLoop_independent _ _ _ _ _ _ _ _ Hm rng2).
        cbn [bind]. now rewrite H2.
Qed.

(* ================================================================== *)
(** ** The tie-break engine *)

Lemma fallbackFlag_calls used rng rng' :
  fallbackFlag used rng rng' ->
  randrangeCalls rng' = randrangeCalls rng + (if used then 1 else 0) /\
  randomCalls rng' = randomCalls rng.
Proof.
  destruct used; simpl; intros ->; simpl; split; auto; lia.
Qed.

(** C1.  Over a team list with unique identifiers, for every nonempty
    candidate set of identifiers of that list, [resolveTiebreaker] returns
    exactly one identifier, a member of the candidate set, and a flag that
    is set exactly when the random selection was used: [randrange] has been
    called once when it is set and not at all when it is clear, in which
    case the winner is the same whatever the random module holds. *)
Theorem resolveTiebreaker_one_candidate
  (games : list Game) (teams : list Team) (tiedTeams : list string) (rng : Rng) :
  NoDup (map name teams) ->
  NoDup tiedTeams -> tiedTeams <> [] -> incl tiedTeams (map name teams) ->
  exists teams' winner usedRandom rng',
    resolveTiebreaker games teams tiedTeams rng
    = Ok (teams', [winner], usedRandom, rng') /\
    In winner tiedTeams /\
    fallbackFlag usedRandom rng rng' /\
    randrangeCalls rng' = randrangeCalls rng + (if usedRandom then 1 else 0) /\
    (usedRandom = false ->
     forall rng2,
       resolveTiebreaker games teams tiedTeams rng2
       = Ok (teams', [winner], false, rng2)).
Proof.
  intros Hnames Hnd Hne Hincl. unfold resolveTiebreaker.
  destruct (resolveTiebreakerFuel_ok games teams Hnames (length tiedTeams)
              teams tiedTeams rng Hnd Hne Hincl (sameSeason_refl teams))
    as [teams' [w [used [rng' [Heq [Hin _]]]]]]; [lia|].
  exists teams', w, used, rng'.
  pose proof (resolveTiebreakerFuel_flag _ _ _ _ _ _ _ _ _ Heq) as Hflag.
  split; [exact Heq|]. split; [exact Hin|]. split; [exact Hflag|].
  split; [apply (fallbackFlag_calls _ _ _ Hflag)|].
  intros -> rng2.
  exact (resolveTiebreakerFuel_independent _ _ _ _ _ _ _ _ Heq rng2).
Qed.

Lemma resolveTiebreaker_one_candidate_witness :
  exists teams' winner usedRandom rng',
    resolveTiebreaker [] idleTeams ["C"; "A"; "B"] rngHalf
    = Ok (teams', [winner], usedRandom, rng') /\
    In winner ["C"; "A"; "B"] /\
    fallbackFlag usedRandom rngHalf rng' /\
    randrangeCalls rng' = randrangeCalls rngHalf + (if usedRandom then 1 else 0) /\
    (usedRandom = false ->
     forall rng2,
       resolveTiebreaker [] idleTeams ["C"; "A"; "B"] rng2
       = Ok (teams', [winner], false, rng2)).
Proof.
  apply (resolveTiebreaker_one_candidate [] idleTeams ["C"; "A"; "B"] rngHalf).
  - repeat constructor; simpl; intuition discriminate.
  - repeat constructor; simpl; intuition discriminate.
  - discriminate.
  - intros s Hs. simpl in *. intuition.
Defined.

(** C2.  For [k >= 3] tied teams: every pass of the multi-team loop over a
    candidate set either replaces it by a nonempty, strictly smaller subset
    or reaches the random selection; the loop needs at most [k - 2] passes,
    hence never more than [k], and leaves one candidate, picked at random
    or not, or two with the flag clear; the procedure then returns a single
    winner among the tied teams. *)
Theorem multiTeam_terminates
  (games : list Game) (teams : list Team) (tiedTeams : list string) (rng : Rng) :
  NoDup (map name teams) ->
  NoDup tiedTeams -> incl tiedTeams (map name teams) ->
  3 <= length tiedTeams ->
  (forall teams1 winners,
     sameSeason teams teams1 -> Candidates (map name teams) winners ->
     exists teams2 shrunk,
       multiTeamCriteria games teams1 winners = Ok (teams2, shrunk) /\
       sameSeason teams teams2 /\
       match shrunk with
       | Some newWinners =>
           newWinners <> [] /\ incl newWinners winners /\
           length newWinners < length winners
       | None => True
       end) /\
  (forall fuel,
     length tiedTeams - 2 <= fuel ->
     exists teams' winners' usedRandom rng',
       multiTeamLoop fuel games teams (sorted tiedTeams) rng
       = Ok (teams', winners', usedRandom, rng') /\
       incl winners' tiedTeams /\
       (length winners' = 1 \/ length winners' = 2 /\ usedRandom = false) /\
       fallbackFlag usedRandom rng rng') /\
  (forall fuel,
     length tiedTeams - 2 <= fuel ->
     exists teams' winner usedRandom rng',
       resolveTiebreakerFuel fuel games teams tiedTeams rng
       = Ok (teams', [winner], usedRandom, rng') /\
       In winner tiedTeams) /\
  (exists teams' winner usedRandom rng',
     resolveTiebreaker games teams tiedTeams rng
     = Ok (teams', [winner], usedRandom, rng') /\
     In winner tiedTeams).
Proof.
  intros Hnames Hnd Hincl Hk.
  assert (Hne : tiedTeams <> []) by (intros ->; simpl in Hk; lia).
  assert (Hres : forall fuel,
             length tiedTeams - 2 <= fuel ->
             exists teams' winner usedRandom rng',
               resolveTiebreakerFuel fuel games teams tiedTeams rng
               = Ok (teams', [winner], usedRandom, rng') /\
               In winner tiedTeams).
  { intros fuel Hfuel.
    destruct (resolveTiebreakerFuel_ok games teams Hnames fuel
                teams tiedTeams rng Hnd Hne Hincl (sameSeason_refl teams) Hfuel)
      as [teams' [w [used [rng' [Heq [Hin _]]]]]].
    exists teams', w, used, rng'. auto. }
  split; [|split; [|split]].
  - intros teams1 winners Hs Hc.
    destruct (multiTeamCriteria_ok games teams Hnames teams1 winners Hc Hs)
      as [teams2 [shrunk [Heq [Hs2 Hshr]]]].
    exists teams2, shrunk. split; [exact Heq|]. split; [exact Hs2|].
    destruct shrunk as [newWinners |]; [|exact I].
    destruct Hshr as [Hc' [Hi' Hlt]].
    split; [apply Hc' | split; assumption].
  - intros fuel Hfuel.
    pose proof (Candidates_sorted _ _ Hnd Hne Hincl) as Hc.
    destruct (multiTeamLoop_ok games teams Hnames fuel teams (sorted tiedTeams)
                rng Hc (sameSeason_refl teams))
      as [teams' [winners' [used [rng' [Heq [_ [Hc' [Hi' Hlen]]]]]]]];
      [rewrite sorted_length; lia|].
    exists teams', winners', used, rng'.
    destruct (multiTeamLoop_flag _ _ _ _ _ _ _ _ _ Heq) as [Hflag Hone].
    split; [exact Heq|]. split; [|split; [|exact Hflag]].
    + intros s Hs. apply sorted_In, Hi', Hs.
    + assert (Hpos : length winners' <> 0).
      { intros H0. apply length_zero_iff_nil in H0. now apply Hc'. }
      destruct used; [left; now apply Hone|].
      destruct (Nat.eq_dec (length winners') 1); [now left | right].
      split; [lia | reflexivity].
  - exact Hres.
  - apply Hres. lia.
Qed.

Lemma multiTeam_terminates_witness :
  exists teams' winner usedRandom rng',
    resolveTiebreaker [] idleTeams ["A"; "B"; "C"] rngHalf
    = Ok (teams', [winner], usedRandom, rng') /\
    In winner ["A"; "B"; "C"].
Proof.
  apply (multiTeam_terminates [] idleTeams ["A"; "B"; "C"] rngHalf).
  - repeat constructor; simpl; intuition discriminate.
  - repeat constructor; simpl; intuition discriminate.
  - intros s Hs. simpl in *. intuition.
  - simpl. lia.
Defined.

Lemma headToHead_first games w0 w1 a :
  w0 <> w1 -> a = w0 \/ a = w1 ->
  (exists game, In game games /\ between w0 w1 game) ->
  (forall game, In game games -> between w0 w1 game -> wonBy a game) ->
  headToHead games w0 w1 = Some a.
Proof.
  intros Hne Ha Hex Hwon.
  induction games as [| game rest IH]; [destruct Hex as [? [[] _]]|].
  simpl.
  destruct ((home game == w0) && (away game == w1)) eqn:E1.
  - apply andb_true_iff in E1 as [Eh Ea].
    apply String.eqb_eq in Eh, Ea.
    assert (Hb : between w0 w1 game) by (left; auto).
    specialize (Hwon game (or_introl eq_refl) Hb). f_equal.
    destruct Hwon as [[Hh Hr] | [Haw Hr]].
    + rewrite Hr. simpl. congruence.
    + apply Nat.eqb_neq in Hr. rewrite Hr. congruence.
  - destruct ((home game == w1) && (away game == w0)) eqn:E2.
    + apply andb_true_iff in E2 as [Eh Ea].
      apply String.eqb_eq in Eh, Ea.
      assert (Hb : between w0 w1 game) by (right; auto).
      specialize (Hwon game (or_introl eq_refl) Hb). f_equal.
      destruct Hwon as [[Hh Hr] | [Haw Hr]].
      * rewrite Hr. simpl. congruence.
      * apply Nat.eqb_neq in Hr. rewrite Hr. congruence.
    + apply IH.
      * destruct Hex as [g [[<- | Hin] Hb]]; [|exists g; auto].
        exfalso. destruct Hb as [[Hh Haw] | [Hh Haw]].
        -- rewrite Hh, Haw, !String.eqb_refl in E1. discriminate.
        -- rewrite Hh, Haw, !String.eqb_refl in E2. discriminate.
      * intros g Hin. apply Hwon. now right.
Qed.

(** C3.  For two distinct teams [a] and [b] whose fixture is in the schedule
    and was won by [a] (if they meet more than once, every time), the
    tie-break between them returns [a] alone with the flag clear, whatever
    the other outcomes, the win totals and the random module. *)
Theorem head_to_head_decides
  (games : list Game) (teams : list Team) (a b : string)
  (tiedTeams : list string) (rng : Rng) :
  a <> b -> Permutation tiedTeams [a; b] ->
  (exists game, In game games /\ between a b game) ->
  (forall game, In game games -> between a b game -> wonBy a game) ->
  resolveTiebreaker games teams tiedTeams rng = Ok (teams, [a], false, rng).
Proof.
  intros Hne Hperm Hex Hwon.
  unfold resolveTiebreaker, resolveTiebreakerFuel.
  assert (Hsorted : sorted tiedTeams = sorted [a; b]).
  { apply sorted_unique; try apply sorted_sorted.
    rewrite !sorted_perm. exact Hperm. }
  rewrite Hsorted.
  assert (Hcases : exists w0 w1,
             sorted [a; b] = [w0; w1] /\ w0 <> w1 /\ (a = w0 \/ a = w1) /\
             (forall game, between a b game <-> between w0 w1 game)).
  { simpl. destruct (String.leb a b).
    - exists a, b. repeat split; auto.
    - exists b, a. repeat split; auto; unfold between; tauto. }
  destruct Hcases as [w0 [w1 [-> [Hne' [Ha Hbetween]]]]].
  cbn [length Nat.eqb].
  unfold twoTeamTiebreaker, twoTeamCriteria.
  rewrite (headToHead_first games w0 w1 a Hne' Ha).
  - reflexivity.
  - destruct Hex as [g [Hin Hb]]. exists g. split; [exact Hin|].
    now apply Hbetween.
  - intros g Hin Hb. apply Hwon; [exact Hin|]. now apply Hbetween.
Qed.

Lemma head_to_head_decides_witness :
  resolveTiebreaker [mkGame "A" "B" (PyFloat half) 0] rematchTeams
                    ["B"; "A"] rngHalf
  = Ok (rematchTeams, ["B"], false, rngHalf).
Proof.
  apply (head_to_head_decides
           [mkGame "A" "B" (PyFloat half) 0] rematchTeams "B" "A").
  - discriminate.
  - apply perm_skip. reflexivity.
  - eexists. split; [left; reflexivity|]. right. split; reflexivity.
  - intros g [<- | []] _. right. split; [reflexivity | discriminate].
Defined.

(* ================================================================== *)
(** ** Standings resolver *)

Lemma standingsPass_inv currentPlace games st st' :
  standingsPass currentPlace games st = Ok st' ->
  exists used,
    fallbackFlag used (stRng st) (stRng st') /\
    stRandom st' = stRandom st + (if used then 1 else 0) /\
    (used = false ->
     forall rng2,
       standingsPass currentPlace games (withRng st rng2)
       = Ok (withRng st' rng2)).
Proof.
  unfold standingsPass. cbn [withRng stTeams stRng stFirst stSecond stRandom].
  destruct (findTeamsWithRecord (stTeams st) (maxUnplacedWins (stTeams st)) true)
    as [| tied rest] eqn:Htied.
  - intros H. injection H as <-. exists false. simpl.
    split; [reflexivity|]. split; [lia|]. intros _ rng2. reflexivity.
  - intros H.
    apply bind_Ok in H as [[[[teams1 winners] used] rng1] [Hres H]].
    destruct (assignPlace currentPlace winners teams1 (stFirst st) (stSecond st))
      as [[teams2 first] second] eqn:Hassign.
    injection H as <-. exists used. simpl.
    unfold resolveTiebreaker in *.
    split; [exact (resolveTiebreakerFuel_flag _ _ _ _ _ _ _ _ _ Hres)|].
    split; [destruct used; simpl; lia|].
    intros -> rng2.
    rewrite (resolveTiebreakerFuel_independent _ _ _ _ _ _ _ _ Hres rng2).
    cbn [bind]. rewrite Hassign. reflexivity.
Qed.

Lemma determineStandings_inv games teams rng s :
  determineStandings games teams rng = Ok s ->
  randrangeCalls (rngAfter s) = randrangeCalls rng + randomUsed s /\
  randomCalls (rngAfter s) = randomCalls rng /\
  randomUsed s <= 2 /\
  (randomUsed s = 0 ->
   forall rng2,
     determineStandings games teams rng2
     = Ok (mkStandings (firstPlace s) (secondPlace s) 0 (placedTeams s) rng2)).
Proof.
  unfold determineStandings. intros H.
  apply bind_Ok in H as [st1 [H1 H]]. apply bind_Ok in H as [st2 [H2 H]].
  destruct (stFirst st2) as [f |] eqn:Hf; [|discriminate].
  destruct (stSecond st2) as [g |] eqn:Hg; [|discriminate].
  injection H as <-. simpl.
  apply standingsPass_inv in H1 as [used1 [Hflag1 [Hr1 Hind1]]].
  apply standingsPass_inv in H2 as [used2 [Hflag2 [Hr2 Hind2]]].
  apply fallbackFlag_calls in Hflag1 as [Hc1 Hd1].
  apply fallbackFlag_calls in Hflag2 as [Hc2 Hd2].
  simpl in *.
  split; [|split; [|split]].
  - rewrite Hr2, Hr1. lia.
  - congruence.
  - rewrite Hr2, Hr1. destruct used1, used2; simpl; lia.
  - intros Hzero rng2.
    assert (Hu1 : used1 = false) by (destruct used1; [lia | reflexivity]).
    assert (Hu2 : used2 = false) by (destruct used2; [lia | reflexivity]).
    specialize (Hind1 Hu1 rng2). specialize (Hind2 Hu2 rng2).
    unfold withRng in Hind1 at 1. simpl in Hind1. rewrite Hind1. cbn [bind].
    rewrite Hind2. cbn [bind]. simpl. rewrite Hf, Hg, Hzero. reflexivity.
Qed.

(* ================================================================== *)
(** ** What a season does to the teams and to the random module *)

Lemma simulateGameTeams_inv r teams : forall game game' teams',
  simulateGameTeams r game teams = (game', teams') ->
  map name teams' = map name teams /\
  map currentPlace teams' = map currentPlace teams.
Proof.
  induction teams as [| team rest IH]; intros game game' teams' H.
  - injection H as <- <-. split; reflexivity.
  - cbn [simulateGameTeams] in H.
    destruct (if home game == name team
              then if py_lt (PyFloat r) (winProbability game)
                   then (setResult game 1, addSeasonWin team)
                   else (game, team)
              else if away game == name team
                   then if py_ge (PyFloat r) (winProbability game)
                        then (game, addSeasonWin team)
                        else (game, team)
                   else (game, team)) as [game1 team1] eqn:Hstep.
    assert (Ht : name team1 = name team /\ currentPlace team1 = currentPlace team).
    { destruct (home game == name team);
        [destruct (py_lt (PyFloat r) (winProbability game))
        | destruct (away game == name team);
          [destruct (py_ge (PyFloat r) (winProbability game))|]];
        injection Hstep as <- <-; split; reflexivity. }
    destruct (simulateGameTeams r game1 rest) as [game2 rest'] eqn:Hrest.
    injection H as <- <-. destruct (IH _ _ _ Hrest) as [Hn Hp].
    destruct Ht as [Ht1 Ht2]. simpl. split; congruence.
Qed.

Lemma simulateLoop_inv games : forall teams rng games' teams' rng',
  simulateLoop games teams rng = (games', teams', rng') ->
  map name teams' = map name teams /\
  map currentPlace teams' = map currentPlace teams /\
  randrangeCalls rng' = randrangeCalls rng /\
  randomCalls rng' = randomCalls rng + length games /\
  uniformDraws rng' = uniformDraws rng.
Proof.
  induction games as [| game rest IH]; intros teams rng games' teams' rng' H.
  - injection H as <- <- <-. repeat split; simpl; lia.
  - cbn [simulateLoop] in H. unfold simulateGame, random_random in H.
    destruct (simulateGameTeams _ _ teams) as [game1 teams1] eqn:Hg.
    destruct (simulateLoop rest teams1 _) as [[rest' teams2] rng2] eqn:Hl.
    injection H as <- <- <-.
    apply simulateGameTeams_inv in Hg as [Hn1 Hp1].
    apply IH in Hl as [Hn2 [Hp2 [Hc2 [Hd2 Hu2]]]]. simpl in *.
    repeat split; try congruence; lia.
Qed.

Lemma simulateGames_inv games teams rng games' teams' rng' :
  simulateGames games teams rng = (games', teams', rng') ->
  map name teams' = map name teams /\
  Forall (fun team => currentPlace team = 0) teams' /\
  randrangeCalls rng' = randrangeCalls rng /\
  randomCalls rng' = randomCalls rng + length games.
Proof.
  unfold simulateGames. intros H.
  apply simulateLoop_inv in H as [Hn [Hp [Hc [Hd _]]]].
  rewrite resetSeason_names in Hn. repeat split; auto.
  assert (Hz : Forall (fun p => p = 0) (map currentPlace teams')).
  { rewrite Hp, map_map. apply Forall_forall. intros p Hin.
    apply in_map_iff in Hin as [t [<- _]]. reflexivity. }
  rewrite Forall_map in Hz. exact Hz.
Qed.


(* ================================================================== *)
(** ** Fully determined seasons *)

Lemma simulateGameTeams_same_draw r1 r2 teams : forall game,
  py_lt (PyFloat r1) (winProbability game)
  = py_lt (PyFloat r2) (winProbability game) ->
  py_ge (PyFloat r1) (winProbability game)
  = py_ge (PyFloat r2) (winProbability game) ->
  simulateGameTeams r1 game teams = simulateGameTeams r2 game teams.
Proof.
  induction teams as [| team rest IH]; intros game Hlt Hge; [reflexivity|].
  pose proof (IH (setResult game 1) Hlt Hge) as IH1.
  pose proof (IH game Hlt Hge) as IH0.
  cbn [simulateGameTeams]. rewrite Hlt, Hge.
  destruct (home game == name team).
  - destruct (py_lt (PyFloat r2) (winProbability game));
      [rewrite IH1 | rewrite IH0]; reflexivity.
  - destruct (away game == name team);
      [destruct (py_ge (PyFloat r2) (winProbability game))|];
      rewrite IH0; reflexivity.
Qed.

Lemma decided_draw r1 r2 p :
  unit_draw r1 -> unit_draw r2 ->
  py_eq p (PyInt 0) = true \/ py_eq p (PyInt 1) = true ->
  py_lt (PyFloat r1) p = py_lt (PyFloat r2) p /\
  py_ge (PyFloat r1) p = py_ge (PyFloat r2) p.
Proof.
  intros H1 H2 [Hp | Hp].
  - destruct (draw_against_zero r1 p H1 Hp) as [-> ->].
    destruct (draw_against_zero r2 p H2 Hp) as [-> ->]. auto.
  - destruct (draw_against_one r1 p H1 Hp) as [-> ->].
    destruct (draw_against_one r2 p H2 Hp) as [-> ->]. auto.
Qed.

Lemma simulateLoop_decided games : forall teams rngA rngB,
  decidedSchedule games -> validDraws rngA -> validDraws rngB ->
  fst (simulateLoop games teams rngA) = fst (simulateLoop games teams rngB).
Proof.
  induction games as [| game rest IH]; intros teams rngA rngB Hd HA HB.
  - reflexivity.
  - inversion Hd as [| ? ? Hp Hrest]; subst.
    cbn [simulateLoop]. unfold simulateGame, random_random.
    destruct (decided_draw (uniformDraws rngA (randomCalls rngA))
                (uniformDraws rngB (randomCalls rngB))
                (winProbability (setResult game 0)) (HA _) (HB _) Hp)
      as [Hlt Hge].
    rewrite (simulateGameTeams_same_draw _ _ teams (setResult game 0) Hlt Hge).
    destruct (simulateGameTeams _ (setResult game 0) teams) as [game1 teams1].
    set (rngA1 := mkRng (uniformDraws rngA) _ _ _).
    set (rngB1 := mkRng (uniformDraws rngB) _ _ _).
    specialize (IH teams1 rngA1 rngB1 Hrest).
    destruct (simulateLoop rest teams1 rngA1) as [[restA teamsA] rngA2].
    destruct (simulateLoop rest teams1 rngB1) as [[restB teamsB] rngB2].
    simpl in *. 
    assert (H : (restA, teamsA) = (restB, teamsB))
      by (apply IH; intros k; [apply HA | apply HB]).
    injection H as -> ->. reflexivity.
Qed.

(** C9.  When every probability of the schedule is exactly 0 or exactly 1,
    two runs of a trial over arbitrary draws in [0, 1) record the same
    outcomes and the same win totals, each still drawing once per fixture;
    and when the standings of one run are resolved without random fallback,
    the other run resolves the same standings, without random fallback. *)
Theorem decided_season_is_deterministic
  (games : list Game) (teams : list Team) (rngA rngB : Rng) :
  decidedSchedule games -> validDraws rngA -> validDraws rngB ->
  let '(gamesA, teamsA, rngA') := simulateGames games teams rngA in
  let '(gamesB, teamsB, rngB') := simulateGames games teams rngB in
  gamesA = gamesB /\ teamsA = teamsB /\
  randomCalls rngA' = randomCalls rngA + length games /\
  randomCalls rngB' = randomCalls rngB + length games /\
  (forall standingsA,
     determineStandings gamesA teamsA rngA' = Ok standingsA ->
     randomUsed standingsA = 0 ->
     exists standingsB,
       determineStandings gamesB teamsB rngB' = Ok standingsB /\
       firstPlace standingsB = firstPlace standingsA /\
       secondPlace standingsB = secondPlace standingsA /\
       placedTeams standingsB = placedTeams standingsA /\
       randomUsed standingsB = 0).
Proof.
  intros Hd HA HB.
  pose proof (simulateLoop_decided games (map resetSeason teams) rngA rngB
                Hd HA HB) as Hsame.
  unfold simulateGames in *.
  destruct (simulateLoop games (map resetSeason teams) rngA)
    as [[gamesA teamsA] rngA'] eqn:EA.
  destruct (simulateLoop games (map resetSeason teams) rngB)
    as [[gamesB teamsB] rngB'] eqn:EB.
  simpl in Hsame. injection Hsame as -> ->.
  apply simulateLoop_inv in EA as [_ [_ [_ [HcA _]]]].
  apply simulateLoop_inv in EB as [_ [_ [_ [HcB _]]]].
  repeat split; auto.
  intros sA HsA Hzero.
  apply determineStandings_inv in HsA as [_ [_ [_ Hind]]].
  eexists. split; [apply (Hind Hzero rngB')|]. repeat split.
Qed.

Lemma decided_season_is_deterministic_witness :
  let '(gamesA, teamsA, rngA') :=
    simulateGames rematchGames rematchTeams rngHalf in
  let '(gamesB, teamsB, rngB') :=
    simulateGames rematchGames rematchTeams rngTenth in
  gamesA = gamesB /\ teamsA = teamsB /\
  randomCalls rngA' = randomCalls rngHalf + length rematchGames /\
  randomCalls rngB' = randomCalls rngTenth + length rematchGames /\
  (forall standingsA,
     determineStandings gamesA teamsA rngA' = Ok standingsA ->
     randomUsed standingsA = 0 ->
     exists standingsB,
       determineStandings gamesB teamsB rngB' = Ok standingsB /\
       firstPlace standingsB = firstPlace standingsA /\
       secondPlace standingsB = secondPlace standingsA /\
       placedTeams standingsB = placedTeams standingsA /\
       randomUsed standingsB = 0).
Proof.
  apply (decided_season_is_deterministic
           rematchGames rematchTeams rngHalf rngTenth).
  - constructor; [right; reflexivity|].
    constructor; [left; reflexivity | constructor].
  - intros k. split; reflexivity.
  - intros k. split; reflexivity.
Defined.

(* ================================================================== *)
(** ** First and second place *)

Lemma maxUnplacedWins_fold teams : forall init,
  let m := fold_left
             (fun maxWins team =>
                if (currentPlace team =? 0) && (maxWins <? seasonWins team)
                then seasonWins team else maxWins) teams init in
  init <= m /\
  (forall team, In team teams -> currentPlace team = 0 -> seasonWins team <= m) /\
  (m = init \/
   exists team, In team teams /\ currentPlace team = 0 /\ seasonWins team = m).
Proof.
  induction teams as [| t rest IH]; intros init; simpl.
  - repeat split; auto. intros ? [].
  - set (init' := if (currentPlace t =? 0) && (init <? seasonWins t)
                  then seasonWins t else init).
    destruct (IH init') as [H1 [H2 H3]].
    assert (Hinit : init <= init' /\
                    (currentPlace t = 0 -> seasonWins t <= init') /\
                    (init' = init \/ currentPlace t = 0 /\ seasonWins t = init')).
    { subst init'. destruct (currentPlace t =? 0) eqn:Ep; simpl.
      - apply Nat.eqb_eq in Ep.
        destruct (init <? seasonWins t) eqn:El;
          [apply Nat.ltb_lt in El | apply Nat.ltb_ge in El];
          repeat split; auto; lia.
      - apply Nat.eqb_neq in Ep. repeat split; auto; lia. }
    destruct Hinit as [Ha [Hb Hc]].
    split; [lia|]. split.
    + intros team [<- | Hin] Hp; [specialize (Hb Hp); lia | now apply H2].
    + destruct H3 as [H3 | [team [Hin [Hp Hw]]]].
      * destruct Hc as [Hc | [Hp Hw]]; [left; congruence|].
        right. exists t. repeat split; auto. congruence.
      * right. exists team. auto.
Qed.

Lemma findTeamsWithRecord_In teams wins s :
  In s (findTeamsWithRecord teams wins true) <->
  exists team, In team teams /\ name team = s /\
               seasonWins team = wins /\ currentPlace team = 0.
Proof.
  unfold findTeamsWithRecord. rewrite sorted_In, in_map_iff. simpl. split.
  - intros [team [Hname Hin]]. apply filter_In in Hin as [Hin Hcond].
    apply andb_true_iff in Hcond as [Hw Hp].
    apply Nat.eqb_eq in Hw, Hp. exists team. auto.
  - intros [team [Hin [Hname [Hw Hp]]]]. exists team. split; [assumption|].
    apply filter_In. split; [assumption|].
    apply andb_true_iff. split; now apply Nat.eqb_eq.
Qed.

(** While a team is unplaced, the candidate search finds candidates. *)
Lemma findTeamsWithRecord_max teams :
  (exists team, In team teams /\ currentPlace team = 0) ->
  findTeamsWithRecord teams (maxUnplacedWins teams) true <> [].
Proof.
  intros [t [Hin Hp]]. unfold maxUnplacedWins.
  destruct (maxUnplacedWins_fold teams 0) as [_ [Hmax Hatt]].
  assert (Hex : exists team, In team teams /\ currentPlace team = 0 /\
                             seasonWins team = maxUnplacedWins teams).
  { destruct Hatt as [H0 | Hex]; [|exact Hex].
    exists t. repeat split; auto. specialize (Hmax t Hin Hp).
    unfold maxUnplacedWins. lia. }
  destruct Hex as [team [Hin' [Hp' Hw']]].
  assert (H : In (name team)
                 (findTeamsWithRecord teams (maxUnplacedWins teams) true)).
  { apply findTeamsWithRecord_In. exists team. auto. }
  unfold maxUnplacedWins in H. intros Hnil. rewrite Hnil in H. contradiction.
Qed.

Lemma findTeamsWithRecord_NoDup teams wins :
  NoDup (map name teams) -> NoDup (findTeamsWithRecord teams wins true).
Proof.
  intros Hnd. unfold findTeamsWithRecord.
  now apply sorted_NoDup, NoDup_map_filter.
Qed.

Lemma markPlace_names p w teams : map name (markPlace p w teams) = map name teams.
Proof.
  unfold markPlace. rewrite map_map. apply map_ext. intros team.
  destruct (name team == w); [|reflexivity].
  destruct (p =? 1); [reflexivity|]. now destruct (p =? 2).
Qed.

(** The "Assign place" loop for a single winner. *)
Lemma assignPlace_single p w teams : forall first second,
  assignPlace p [w] teams first second
  = (markPlace p w teams,
     if (p =? 1) && inb w (map name teams) then Some w else first,
     if negb (p =? 1) && (p =? 2) && inb w (map name teams)
     then Some w else second).
Proof.
  unfold markPlace.
  induction teams as [| team rest IH]; intros first second.
  - simpl. now rewrite !andb_false_r.
  - cbn [assignPlace map inb existsb].
    rewrite (String.eqb_sym w (name team)), !orb_false_r.
    destruct (name team == w) eqn:E.
    + apply String.eqb_eq in E. rewrite E.
      destruct (p =? 1); [|destruct (p =? 2)]; cbn iota beta;
        rewrite IH; simpl; unfold inb;
        destruct (existsb (String.eqb w) (map name rest)); reflexivity.
    + cbn iota beta. rewrite IH. reflexivity.
Qed.

Lemma other_team teams w :
  NoDup (map name teams) -> 2 <= length teams ->
  exists team, In team teams /\ name team <> w.
Proof.
  destruct teams as [| t1 [| t2 rest]]; simpl; try lia.
  intros Hnd _. apply NoDup_cons_iff in Hnd as [Hnotin _].
  destruct (string_dec (name t1) w) as [E1 | E1].
  - exists t2. split; [auto|]. intros E2. apply Hnotin. left. congruence.
  - exists t1. auto.
Qed.

(** One pass of the standings loop places exactly the winner it is given
    among the unplaced teams. *)
Lemma standingsPass_ok p games st :
  NoDup (map name (stTeams st)) ->
  (exists team, In team (stTeams st) /\ currentPlace team = 0) ->
  exists teams1 w used rng1,
    standingsPass p games st
    = Ok (mkStanding
            (markPlace p w teams1)
            (if p =? 1 then Some w else stFirst st)
            (if negb (p =? 1) && (p =? 2) then Some w else stSecond st)
            (if used : bool then stRandom st + 1 else stRandom st) rng1) /\
    sameSeason (stTeams st) teams1 /\
    (exists team, In team (stTeams st) /\ name team = w /\
                  currentPlace team = 0).
Proof.
  intros Hnd Hun. unfold standingsPass.
  pose proof (findTeamsWithRecord_max (stTeams st) Hun) as Hne.
  set (tiedTeams := findTeamsWithRecord (stTeams st)
                      (maxUnplacedWins (stTeams st)) true) in *.
  assert (Hincl : incl tiedTeams (map name (stTeams st))).
  { intros s Hs. apply findTeamsWithRecord_In in Hs as [t [Hin [<- _]]].
    now apply in_map. }
  destruct (resolveTiebreakerFuel_ok games (stTeams st) Hnd (length tiedTeams)
              (stTeams st) tiedTeams (stRng st)
              (findTeamsWithRecord_NoDup _ _ Hnd) Hne Hincl
              (sameSeason_refl _))
    as [teams1 [w [used [rng1 [Heq [Hin Hs]]]]]]; [lia|].
  destruct tiedTeams as [| t0 rest0] eqn:Htied; [congruence|].
  unfold resolveTiebreaker. rewrite Heq. cbn [bind].
  rewrite assignPlace_single.
  assert (Hw : inb w (map name teams1) = true).
  { apply inb_In. rewrite (sameSeason_names _ _ Hs). now apply Hincl. }
  rewrite Hw, !andb_true_r.
  exists teams1, w, used, rng1. split; [reflexivity|]. split; [exact Hs|].
  subst tiedTeams. rewrite <- Htied in Hin.
  apply findTeamsWithRecord_In in Hin as [t [Hint [Hname [_ Hp]]]].
  exists t. auto.
Qed.

Lemma markPlace_unplaced p w teams team :
  p <> 0 -> In team (markPlace p w teams) -> currentPlace team = 0 ->
  name team <> w.
Proof.
  intros Hp Hin Hplace Hname. unfold markPlace in Hin.
  apply in_map_iff in Hin as [t [Ht Hin]].
  destruct (name t == w) eqn:E.
  - destruct (p =? 1); [subst team; discriminate|].
    destruct (p =? 2); subst team; simpl in Hplace; [discriminate | lia].
  - apply String.eqb_neq in E. subst team. contradiction.
Qed.

Lemma markPlace_placed p w teams team :
  (p = 1 \/ p = 2) -> In team (markPlace p w teams) -> name team = w ->
  currentPlace team = p.
Proof.
  intros Hp Hin Hname. unfold markPlace in Hin.
  apply in_map_iff in Hin as [t [Ht Hin]].
  destruct (name t == w) eqn:E.
  - destruct Hp as [-> | ->]; subst team; reflexivity.
  - apply String.eqb_neq in E. subst team. contradiction.
Qed.

Lemma markPlace_other p w teams team :
  In team teams -> name team <> w -> In team (markPlace p w teams).
Proof.
  intros Hin Hne. unfold markPlace. apply in_map_iff. exists team.
  split; [|exact Hin]. apply String.eqb_neq in Hne. now rewrite Hne.
Qed.

Lemma sameSeason_unplaced teams teams' :
  sameSeason teams teams' ->
  Forall (fun team => currentPlace team = 0) teams ->
  Forall (fun team => currentPlace team = 0) teams'.
Proof.
  intros Hs Hall. apply sameSeason_place in Hs.
  assert (Hz : Forall (fun p => p = 0) (map currentPlace teams'))
    by (rewrite Hs; now apply Forall_map).
  now apply Forall_map in Hz.
Qed.

(** A trial's standings: both places are filled, by two distinct teams. *)
Lemma determineStandings_ok games teams rng :
  NoDup (map name teams) -> 2 <= length teams ->
  Forall (fun team => currentPlace team = 0) teams ->
  exists standings st1,
    determineStandings games teams rng = Ok standings /\
    firstPlace standings <> secondPlace standings /\
    In (firstPlace standings) (map name teams) /\
    In (secondPlace standings) (map name teams) /\
    map name (placedTeams standings) = map name teams /\
    standingsPass 1 games (mkStanding teams None None 0 rng) = Ok st1 /\
    stFirst st1 = Some (firstPlace standings) /\
    (forall team, In team (stTeams st1) ->
                  name team = firstPlace standings -> currentPlace team = 1) /\
    (forall wins,
       ~ In (firstPlace standings)
            (findTeamsWithRecord (stTeams st1) wins true)).
Proof.
  intros Hnd Hlen Hunplaced.
  (* 1st place *)
  set (st0 := mkStanding teams None None 0 rng).
  destruct (standingsPass_ok 1 games st0 Hnd) as
    [teamsA [w1 [used1 [rngA [Hpass1 [HsA [t1 [Hin1 [Hname1 _]]]]]]]]].
  { destruct teams as [| t rest]; [simpl in Hlen; lia|].
    exists t. split; [now left|]. now inversion Hunplaced. }
  simpl in Hpass1, HsA, Hin1.
  set (st1 := mkStanding (markPlace 1 w1 teamsA) (Some w1) None
                         (if used1 then 1 else 0) rngA) in *.
  assert (HndA : NoDup (map name (stTeams st1))).
  { simpl. rewrite markPlace_names, (sameSeason_names _ _ HsA). exact Hnd. }
  assert (HunA : Forall (fun team => currentPlace team = 0) teamsA)
    by (eapply sameSeason_unplaced; eassumption).
  (* 2nd place *)
  destruct (standingsPass_ok 2 games st1 HndA) as
    [teamsB [w2 [used2 [rngB [Hpass2 [HsB [t2 [Hin2 [Hname2 Hplace2]]]]]]]]].
  { destruct (other_team teamsA w1) as [t [Hin Hne]].
    - now rewrite (sameSeason_names _ _ HsA).
    - rewrite <- (length_map name), (sameSeason_names _ _ HsA), length_map.
      exact Hlen.
    - exists t. split; [now apply markPlace_other|].
      rewrite Forall_forall in HunA. now apply HunA. }
  simpl in Hpass2, Hin2, HsB.
  assert (Hdiff : w1 <> w2).
  { intros Heq. apply (markPlace_unplaced 1 w1 teamsA t2); auto. congruence. }
  eexists _, st1. unfold determineStandings. fold st0.
  rewrite Hpass1. cbn [bind]. rewrite Hpass2. cbn [bind]. simpl.
  split; [reflexivity|]. simpl.
  split; [exact Hdiff|].
  split; [subst w1; now apply in_map|].
  split; [|split; [|split; [reflexivity | split; [reflexivity | split]]]].
  - rewrite <- (sameSeason_names _ _ HsA), <- (markPlace_names 1 w1 teamsA).
    subst w2. now apply in_map.
  - rewrite markPlace_names, (sameSeason_names _ _ HsB), markPlace_names.
    apply (sameSeason_names _ _ HsA).
  - intros team Hin Hname. apply (markPlace_placed 1 w1 teamsA); auto.
  - intros wins Hin. apply findTeamsWithRecord_In in Hin as [t [Hin [Hn [_ Hp]]]].
    apply (markPlace_unplaced 1 w1 teamsA t); auto.
Qed.

(** C10.  In every trial over at least two teams with unique identifiers,
    [determineStandings] returns two distinct teams of the list: the pass
    for 1st place leaves its winner with placement mark 1, no candidate
    search that excludes placed teams finds it afterwards, and the pass for
    2nd place picks among the teams still unplaced. *)
Theorem standings_place_two_teams
  (games : list Game) (teams : list Team) (rng : Rng) :
  NoDup (map name teams) -> 2 <= length teams ->
  let '(games1, teams1, rng1) := simulateGames games teams rng in
  exists standings st1,
    determineStandings games1 teams1 rng1 = Ok standings /\
    firstPlace standings <> secondPlace standings /\
    In (firstPlace standings) (map name teams) /\
    In (secondPlace standings) (map name teams) /\
    standingsPass 1 games1 (mkStanding teams1 None None 0 rng1) = Ok st1 /\
    stFirst st1 = Some (firstPlace standings) /\
    (forall team, In team (stTeams st1) ->
                  name team = firstPlace standings -> currentPlace team = 1) /\
    (forall wins,
       ~ In (firstPlace standings)
            (findTeamsWithRecord (stTeams st1) wins true)).
Proof.
  intros Hnd Hlen.
  destruct (simulateGames games teams rng) as [[games1 teams1] rng1] eqn:Hsim.
  apply simulateGames_inv in Hsim as [Hnames [Hunplaced _]].
  assert (Hnd1 : NoDup (map name teams1)) by now rewrite Hnames.
  assert (Hlen1 : 2 <= length teams1).
  { rewrite <- (length_map name), Hnames, length_map. exact Hlen. }
  destruct (determineStandings_ok games1 teams1 rng1 Hnd1 Hlen1 Hunplaced)
    as [standings [st1 [H1 [H2 [H3 [H4 [_ [H5 [H6 [H7 H8]]]]]]]]]].
  rewrite Hnames in H3, H4.
  exists standings, st1. repeat split; assumption.
Qed.

Lemma standings_place_two_teams_witness :
  let '(games1, teams1, rng1) :=
    simulateGames rematchGames rematchTeams rngHalf in
  exists standings st1,
    determineStandings games1 teams1 rng1 = Ok standings /\
    firstPlace standings <> secondPlace standings /\
    In (firstPlace standings) (map name rematchTeams) /\
    In (secondPlace standings) (map name rematchTeams) /\
    standingsPass 1 games1 (mkStanding teams1 None None 0 rng1) = Ok st1 /\
    stFirst st1 = Some (firstPlace standings) /\
    (forall team, In team (stTeams st1) ->
                  name team = firstPlace standings -> currentPlace team = 1) /\
    (forall wins,
       ~ In (firstPlace standings)
            (findTeamsWithRecord (stTeams st1) wins true)).
Proof.
  apply (standings_place_two_teams rematchGames rematchTeams rngHalf).
  - repeat constructor; simpl; intuition discriminate.
  - simpl. lia.
Defined.
(* ================================================================== *)
(** ** Monte Carlo aggregator *)

Lemma simulationLoop_counts numberOfRuns : forall run run',
  simulationLoop numberOfRuns run = Ok run' ->
  exists fallbacks trials,
    totalRandomTiebreakers run' = totalRandomTiebreakers run + fallbacks /\
    randrangeCalls (runRng run') = randrangeCalls (runRng run) + fallbacks /\
    trialsUsingRandom run' = trialsUsingRandom run + trials /\
    trials <= fallbacks <= 2 * trials /\ trials <= numberOfRuns.
Proof.
  induction numberOfRuns as [| n IH]; intros run run' H.
  - injection H as <-. exists 0, 0. repeat split; lia.
  - cbn [simulationLoop] in H.
    destruct (simulateGames (runGames run) (runTeams run) (runRng run))
      as [[games1 teams1] rng1] eqn:Hsim.
    apply bind_Ok in H as [s [Hs H]].
    apply simulateGames_inv in Hsim as [_ [_ [Hc _]]].
    apply determineStandings_inv in Hs as [Hcalls [_ [Hle _]]].
    apply IH in H as [fallbacks [trials [H1 [H2 [H3 [H4 H5]]]]]].
    simpl in *.
    exists (randomUsed s + fallbacks),
           ((if 0 <? randomUsed s then 1 else 0) + trials).
    destruct (0 <? randomUsed s) eqn:Hpos;
      [apply Nat.ltb_lt in Hpos | apply Nat.ltb_ge in Hpos];
      repeat split; lia.
Qed.

Lemma simulationLoop_ok numberOfRuns : forall run,
  NoDup (map name (runTeams run)) -> 2 <= length (runTeams run) ->
  exists run', simulationLoop numberOfRuns run = Ok run'.
Proof.
  induction numberOfRuns as [| n IH]; intros run Hnd Hlen.
  - exists run. reflexivity.
  - cbn [simulationLoop].
    destruct (simulateGames (runGames run) (runTeams run) (runRng run))
      as [[games1 teams1] rng1] eqn:Hsim.
    apply simulateGames_inv in Hsim as [Hnames [Hunplaced _]].
    assert (Hnd1 : NoDup (map name teams1)) by now rewrite Hnames.
    assert (Hlen1 : 2 <= length teams1).
    { rewrite <- (length_map name), Hnames, length_map. exact Hlen. }
    destruct (determineStandings_ok games1 teams1 rng1 Hnd1 Hlen1 Hunplaced)
      as [s [_ [-> [_ [_ [_ [Hn _]]]]]]].
    cbn [bind]. apply IH; simpl.
    + now rewrite Hn.
    + rewrite <- (length_map name), Hn, length_map. exact Hlen1.
Qed.

Lemma loadTeamsFromCSV_NoDup rows : NoDup (loadTeamsFromCSV rows).
Proof. unfold loadTeamsFromCSV. apply sorted_NoDup, NoDup_nodup. Qed.

Lemma initializeTeamData_names bigTwelveTeams :
  map name (initializeTeamData bigTwelveTeams) = bigTwelveTeams.
Proof.
  unfold initializeTeamData. rewrite map_map. simpl. apply map_id.
Qed.

(** C5, as amended.  Across a whole run, the total random-tiebreak counter
    equals the number of random fallbacks invoked, that is the number of
    calls of [randrange]: a trial contributes one for each of the two
    places filled by a random fallback, so the total lies between the
    number of trials that used a fallback and twice that number. *)
Theorem random_counter_counts_fallbacks
  (numberOfRuns : nat) (rows : list RawGame) (rng : Rng) (games : list Game) :
  loadGameData (loadTeamsFromCSV rows) rows = Ok games ->
  2 <= length (loadTeamsFromCSV rows) ->
  exists run,
    runSimulations numberOfRuns rows rng = Ok run /\
    randrangeCalls (runRng run)
    = randrangeCalls rng + totalRandomTiebreakers run /\
    trialsUsingRandom run <= totalRandomTiebreakers run /\
    totalRandomTiebreakers run <= 2 * trialsUsingRandom run /\
    trialsUsingRandom run <= numberOfRuns.
Proof.
  intros Hload Hlen. unfold runSimulations. rewrite Hload. cbn [bind].
  destruct (simulationLoop_ok numberOfRuns
              (mkRun games (initializeTeamData (loadTeamsFromCSV rows)) 0 0 rng))
    as [run Hrun]; simpl.
  - rewrite initializeTeamData_names. apply loadTeamsFromCSV_NoDup.
  - rewrite <- (length_map name), initializeTeamData_names. exact Hlen.
  - exists run. split; [exact Hrun|].
    apply simulationLoop_counts in Hrun
      as [fallbacks [trials [H1 [H2 [H3 [H4 H5]]]]]].
    simpl in *. repeat split; lia.
Qed.

Lemma random_counter_counts_fallbacks_witness :
  exists run,
    runSimulations 1 pairedRows rngHalf = Ok run /\
    randrangeCalls (runRng run)
    = randrangeCalls rngHalf + totalRandomTiebreakers run /\
    trialsUsingRandom run <= totalRandomTiebreakers run /\
    totalRandomTiebreakers run <= 2 * trialsUsingRandom run /\
    trialsUsingRandom run <= 1.
Proof.
  eapply (random_counter_counts_fallbacks 1 pairedRows rngHalf).
  - vm_compute. reflexivity.
  - vm_compute. lia.
Defined.

(** C5, as stated, fails on one trial of the schedule of three pairs: [A],
    [C] and [E] tie for 1st place on five wins with nothing to separate
    them, the two left tie for 2nd place the same way, and the one trial
    adds 2 to the counter. *)
Lemma random_counter_twice_in_one_trial :
  exists run,
    runSimulations 1 pairedRows rngHalf = Ok run /\
    trialsUsingRandom run = 1 /\
    totalRandomTiebreakers run = 2.
Proof. vm_compute. eexists. repeat split. Qed.

(* ================================================================== *)
(** ** More on schedule loading *)

Lemma integerize_inv game game' :
  integerize game = Ok game' ->
  sameFixture game game' /\ finiteNumber (winProbability game) = true.
Proof.
  unfold integerize. destruct (winProbability game) as [z | f] eqn:Hp.
  - intros H. injection H as <-.
    assert (Hfin : finiteNumber (PyInt z) = true) by reflexivity.
    split; [|exact Hfin]. unfold sameFixture. rewrite Hp.
    repeat split. now apply py_eq_refl.
  - intros H. apply bind_Ok in H as [z [Hz H]].
    assert (Hfin : finiteNumber (PyFloat f) = true)
      by (destruct f; simpl in Hz; try discriminate; reflexivity).
    split; [|exact Hfin].
    destruct (integerize_finite game) as [game'' [Heq Hsame]];
      [now rewrite Hp|].
    unfold integerize in Heq. rewrite Hp, Hz in Heq. cbn [bind] in Heq.
    congruence.
Qed.

Lemma integerizeAll_inv games : forall games',
  integerizeAll games = Ok games' ->
  Forall2 sameFixture games games' /\
  Forall (fun game => finiteNumber (winProbability game) = true) games.
Proof.
  induction games as [| game rest IH]; intros games' H; simpl in H.
  - injection H as <-. split; constructor.
  - apply bind_Ok in H as [game' [Hg H]].
    apply bind_Ok in H as [rest' [Hr H]]. injection H as <-.
    apply integerize_inv in Hg as [Hsame Hfin].
    destruct (IH rest' Hr) as [Hrest Hfins].
    split; constructor; assumption.
Qed.

Lemma integerize_not_finite game :
  finiteNumber (winProbability game) = false ->
  integerize game = Raise ValueError \/ integerize game = Raise OverflowError.
Proof.
  unfold integerize, finiteNumber.
  destruct (winProbability game) as [z | f]; simpl; [discriminate|].
  destruct f; simpl; try discriminate; auto.
Qed.

Lemma integerizeAll_not_finite games :
  Exists (fun game => finiteNumber (winProbability game) = false) games ->
  integerizeAll games = Raise ValueError \/
  integerizeAll games = Raise OverflowError.
Proof.
  induction games as [| game rest IH]; intros Hex; [inversion Hex|].
  simpl. destruct (finiteNumber (winProbability game)) eqn:Hfin.
  - destruct (integerize_finite game Hfin) as [game' [-> _]]. cbn [bind].
    inversion Hex as [? ? Hbad | ? ? Hrest]; subst; [congruence|].
    destruct (IH Hrest) as [-> | ->]; auto.
  - destruct (integerize_not_finite game Hfin) as [-> | ->]; auto.
Qed.

(** X1.  [loadGameData] returns a schedule exactly when the number of rows
    is [9 * team_count // 2] and every stored probability is finite; with
    the right count and a NaN or infinite stored probability it ends in the
    uncaught [ValueError] or [OverflowError] of [int(...)]. *)
Theorem loadGameData_succeeds_iff
  (bigTwelveTeams : list string) (rawGames : list RawGame) :
  ((exists games, loadGameData bigTwelveTeams rawGames = Ok games) <->
   length rawGames = expectedGameCount bigTwelveTeams /\
   Forall (fun game => finiteNumber (winProbability game) = true)
          (map normalizeGame rawGames)) /\
  (length rawGames = expectedGameCount bigTwelveTeams ->
   Exists (fun game => finiteNumber (winProbability game) = false)
          (map normalizeGame rawGames) ->
   loadGameData bigTwelveTeams rawGames = Raise ValueError \/
   loadGameData bigTwelveTeams rawGames = Raise OverflowError).
Proof.
  unfold loadGameData. rewrite length_map. split; [split|].
  - intros [games H].
    destruct (length rawGames =? expectedGameCount bigTwelveTeams) eqn:Hc;
      [|discriminate].
    apply Nat.eqb_eq in Hc. split; [exact Hc|].
    now apply integerizeAll_inv in H.
  - intros [Hc Hfin]. apply Nat.eqb_eq in Hc. rewrite Hc.
    destruct (integerizeAll_finite _ Hfin) as [games [H _]]. eauto.
  - intros Hc Hex. apply Nat.eqb_eq in Hc. rewrite Hc.
    now apply integerizeAll_not_finite.
Qed.

Lemma loadGameData_succeeds_iff_witness :
  loadGameData ["A"; "B"] (repeat ("A", "B", S754_nan) 9) = Raise ValueError \/
  loadGameData ["A"; "B"] (repeat ("A", "B", S754_nan) 9) = Raise OverflowError.
Proof.
  apply (proj2 (loadGameData_succeeds_iff
                  ["A"; "B"] (repeat ("A", "B", S754_nan) 9))).
  - reflexivity.
  - left. reflexivity.
Defined.

Lemma loadTeamsFromCSV_In rows s :
  In s (loadTeamsFromCSV rows) <->
  exists row, In row rows /\ In s (rowNames row).
Proof.
  unfold loadTeamsFromCSV. rewrite sorted_In, nodup_In, in_flat_map.
  reflexivity.
Qed.

(** X2.  [loadTeamsFromCSV] returns the identifiers of the rows, each once,
    in ascending order. *)
Theorem loadTeamsFromCSV_sorted_set (rows : list RawGame) :
  StronglySorted nameLe (loadTeamsFromCSV rows) /\
  NoDup (loadTeamsFromCSV rows) /\
  (forall s, In s (loadTeamsFromCSV rows) <->
             exists row, In row rows /\ In s (rowNames row)).
Proof.
  split; [apply sorted_sorted|]. split; [apply loadTeamsFromCSV_NoDup|].
  apply loadTeamsFromCSV_In.
Qed.

Lemma py_eq_not_nan x y : py_eq x y = true -> is_nan x = false.
Proof.
  unfold py_eq, num_compare, is_nan.
  destruct (number_val x); [discriminate | reflexivity | reflexivity].
Qed.

Lemma normalizeGame_names row :
  In (home (normalizeGame row)) (rowNames row) /\
  In (away (normalizeGame row)) (rowNames row) /\
  gameResult (normalizeGame row) = 0 /\
  (fst (fst row) <> snd (fst row) ->
   String.ltb (home (normalizeGame row)) (away (normalizeGame row)) = true).
Proof.
  unfold normalizeGame, rowNames. destruct row as [[team1 team2] prob]. simpl.
  destruct (String.ltb team1 team2) eqn:E; simpl.
  - repeat split; auto.
  - repeat split; auto. intros Hne.
    destruct (ltb_total _ _ Hne) as [H | H]; [congruence | exact H].
Qed.

(** X3.  What the loader hands to the simulator: for rows with two distinct
    identifiers each, a loaded schedule holds one fixture per row, unplayed,
    the alphabetically earlier identifier on the reference side, both
    identifiers among the teams [loadTeamsFromCSV] found, the probability a
    number; and the initial teams have unique identifiers. *)
Theorem loaded_schedule_is_well_formed
  (rows : list RawGame) (games : list Game) :
  loadGameData (loadTeamsFromCSV rows) rows = Ok games ->
  Forall (fun row : RawGame => fst (fst row) <> snd (fst row)) rows ->
  let teams := initializeTeamData (loadTeamsFromCSV rows) in
  NoDup (map name teams) /\
  length games = length rows /\
  Forall (wellFormedFixture teams) games /\
  Forall (fun game => String.ltb (home game) (away game) = true /\
                      gameResult game = 0) games.
Proof.
  intros Hload Hrows teams. subst teams.
  split; [rewrite initializeTeamData_names; apply loadTeamsFromCSV_NoDup|].
  unfold loadGameData in Hload.
  destruct (_ =? _); [|discriminate].
  apply integerizeAll_inv in Hload as [Hsame _].
  assert (Hlen : length games = length rows).
  { apply Forall2_length in Hsame. now rewrite length_map in Hsame. }
  split; [exact Hlen|].
  assert (Hall : Forall (fun game =>
                   wellFormedFixture
                     (initializeTeamData (loadTeamsFromCSV rows)) game /\
                   (String.ltb (home game) (away game) = true /\
                    gameResult game = 0)) games).
  { clear Hlen. revert games Hsame.
    assert (Hsub : forall row, In row rows -> In row rows) by auto.
    revert Hsub Hrows. generalize rows at 1 3 4 as part.
    induction part as [| row rest IH]; intros Hsub Hne games Hsame;
      simpl in Hsame; inversion Hsame as [| g g' ? ? Hg Hrest]; subst;
      [constructor|].
    inversion Hne as [| ? ? Hrow Hne']; subst.
    constructor; [|apply IH; auto; intros r Hr; apply Hsub; now right].
    destruct Hg as [Hh [Ha [Hr Hp]]].
    destruct (normalizeGame_names row) as [Hin1 [Hin2 [Hres Hlt]]].
    unfold wellFormedFixture.
    rewrite initializeTeamData_names, Hh, Ha, Hr.
    assert (Hrowin : In row rows) by (apply Hsub; now left).
    repeat split; auto.
    - intros Heq. specialize (Hlt Hrow). rewrite Heq in Hlt.
      pose proof (ltb_asym _ _ Hlt) as Hasym. congruence.
    - apply loadTeamsFromCSV_In. eauto.
    - apply loadTeamsFromCSV_In. eauto.
    - eapply py_eq_not_nan; eassumption. }
  split; eapply Forall_impl; try exact Hall; simpl; tauto.
Qed.

Lemma loaded_schedule_is_well_formed_witness :
  exists games,
    loadGameData (loadTeamsFromCSV pairedRows) pairedRows = Ok games /\
    Forall (wellFormedFixture (initializeTeamData (loadTeamsFromCSV pairedRows)))
           games.
Proof.
  destruct (loadGameData (loadTeamsFromCSV pairedRows) pairedRows)
    as [games | e |] eqn:Hload;
    [| vm_compute in Hload; discriminate | vm_compute in Hload; discriminate].
  exists games. split; [reflexivity|].
  apply (loaded_schedule_is_well_formed pairedRows games Hload).
  repeat constructor; discriminate.
Defined.

(* ================================================================== *)
(** ** The table of championship matchups *)

Lemma nth_seq_self (l : list string) :
  map (fun j => nth j l "") (seq 0 (length l)) = l.
Proof.
  induction l as [| x rest IH]; [reflexivity|].
  simpl. f_equal. rewrite <- seq_shift, map_map. exact IH.
Qed.

Lemma flat_map_map_seq {B : Type} (f : nat -> list B) start len :
  flat_map f (seq (S start) len) = flat_map (fun i => f (S i)) (seq start len).
Proof.
  rewrite <- seq_shift. generalize (seq start len) as l.
  induction l as [| i rest IH]; simpl; [reflexivity | now rewrite IH].
Qed.

Lemma filter_none {A : Type} (f : A -> bool) (l : list A) :
  (forall x, In x l -> f x = false) -> filter f l = [].
Proof.
  induction l as [| x rest IH]; intros H; [reflexivity|].
  simpl. rewrite (H x (or_introl eq_refl)). apply IH.
  intros y Hy. apply H. now right.
Qed.

Lemma filter_map_length {A B : Type} (f : B -> bool) (g : A -> B) l :
  length (filter f (map g l)) = length (filter (fun y => f (g y)) l).
Proof.
  induction l as [| y rest IH]; [reflexivity|].
  simpl. destruct (f (g y)); simpl; now rewrite IH.
Qed.

Lemma count_once a (l : list string) :
  NoDup l -> In a l -> length (filter (String.eqb a) l) = 1.
Proof.
  induction l as [| y rest IH]; intros Hnd Hin; [contradiction|].
  apply NoDup_cons_iff in Hnd as [Hy Hnd]. simpl.
  destruct (a == y) eqn:E.
  - apply String.eqb_eq in E. subst y. simpl. f_equal.
    apply length_zero_iff_nil, filter_none. intros z Hz.
    apply String.eqb_neq. intros ->. contradiction.
  - destruct Hin as [-> | Hin]; [rewrite String.eqb_refl in E; discriminate|].
    now apply IH.
Qed.

(** The two index loops enumerate each element with those after it. *)
Lemma initializeChampionshipMatchups_pairings teams :
  initializeChampionshipMatchups teams = pairings teams.
Proof.
  unfold initializeChampionshipMatchups.
  induction teams as [| x rest IH]; [reflexivity|].
  cbn [length seq flat_map pairings]. f_equal.
  - cbn [Nat.add Nat.sub]. rewrite Nat.sub_0_r, <- seq_shift, map_map.
    cbn [nth]. rewrite <- (map_map (fun j => nth j rest "")
                                   (fun other => mkMatchup x other 0)).
    now rewrite nth_seq_self.
  - rewrite flat_map_map_seq, <- IH. apply flat_map_ext. intros i.
    replace (S i + 1) with (S (i + 1)) by lia.
    cbn [Nat.sub]. rewrite <- seq_shift, map_map. reflexivity.
Qed.

Lemma pairings_In teams matchup :
  In matchup (pairings teams) ->
  In (matchupHome matchup) teams /\ In (matchupAway matchup) teams /\
  matchupCount matchup = 0 /\
  (NoDup teams -> matchupHome matchup <> matchupAway matchup).
Proof.
  induction teams as [| x rest IH]; simpl; [contradiction|].
  intros Hin. apply in_app_or in Hin as [Hin | Hin].
  - apply in_map_iff in Hin as [other [<- Hother]]. simpl.
    repeat split; auto. intros Hnd Heq. apply NoDup_cons_iff in Hnd as [Hx _].
    now subst.
  - destruct (IH Hin) as [H1 [H2 [H3 H4]]]. repeat split; auto.
    intros Hnd. apply NoDup_cons_iff in Hnd as [_ Hnd]. auto.
Qed.

Lemma pairings_length teams :
  2 * length (pairings teams) = length teams * (length teams - 1).
Proof.
  induction teams as [| x rest IH]; [reflexivity|].
  cbn [pairings length]. rewrite length_app, length_map.
  destruct (length rest) as [| n] eqn:Hn; simpl in *; nia.
Qed.

(** Among the pairings of a repetition-free list, a pair of its elements
    is found in exactly one row. *)
Lemma pairings_unique teams first second :
  NoDup teams -> In first teams -> In second teams -> first <> second ->
  length (filter (matchupOf first second) (pairings teams)) = 1.
Proof.
  induction teams as [| x rest IH]; intros Hnd Hf Hs Hne; [contradiction|].
  apply NoDup_cons_iff in Hnd as [Hx Hnd].
  cbn [pairings]. rewrite filter_app, length_app.
  assert (Hnone : forall a, ~ In a rest ->
            forall b, filter (matchupOf a b) (pairings rest) = []
                   /\ filter (matchupOf b a) (pairings rest) = []).
  { intros a Ha b.
    assert (H : forall m, In m (pairings rest) ->
                  (a == matchupHome m) = false /\ (a == matchupAway m) = false).
    { intros m Hm. apply pairings_In in Hm as [H1 [H2 _]].
      split; apply String.eqb_neq; intros ->; contradiction. }
    split; apply filter_none; intros m Hm; destruct (H m Hm) as [E1 E2];
      unfold matchupOf; rewrite E1, E2; simpl;
      [reflexivity | now rewrite andb_false_r]. }
  assert (Hrow : forall a, a <> x -> In a rest ->
            length (filter (matchupOf x a)
                      (map (fun other => mkMatchup x other 0) rest)) = 1 /\
            length (filter (matchupOf a x)
                      (map (fun other => mkMatchup x other 0) rest)) = 1).
  { intros a Hax Ha. apply String.eqb_neq in Hax.
    rewrite !filter_map_length.
    rewrite (filter_ext _ (String.eqb a)), (filter_ext (fun y => matchupOf a x _)
                                              (String.eqb a)).
    - split; now apply count_once.
    - intros y. unfold matchupOf. simpl.
      rewrite String.eqb_refl, Hax. simpl. apply andb_true_r.
    - intros y. unfold matchupOf. simpl.
      now rewrite String.eqb_refl, Hax. }
  assert (Hnorow : forall a b, a <> x -> b <> x ->  a <> b ->
            filter (matchupOf a b)
                   (map (fun other => mkMatchup x other 0) rest) = []).
  { intros a b Hax Hbx Hab. apply String.eqb_neq in Hax, Hbx.
    apply filter_none. intros m Hm. apply in_map_iff in Hm as [y [<- _]].
    unfold matchupOf. simpl. rewrite Hax, Hbx. simpl.
    destruct (a == y) eqn:Ea; destruct (b == y) eqn:Eb; simpl; auto.
    apply String.eqb_eq in Ea, Eb. congruence. }
  destruct (string_dec first x) as [-> | Hfx].
  - destruct Hs as [-> | Hs]; [congruence|].
    destruct (Hrow second (not_eq_sym Hne) Hs) as [-> _].
    destruct (Hnone x Hx second) as [-> _]. reflexivity.
  - destruct (string_dec second x) as [-> | Hsx].
    + destruct Hf as [-> | Hf]; [congruence|].
      destruct (Hrow first Hne Hf) as [_ ->].
      destruct (Hnone x Hx first) as [_ ->]. reflexivity.
    + destruct Hf as [-> | Hf]; [congruence|].
      destruct Hs as [-> | Hs]; [congruence|].
      rewrite (Hnorow first second Hfx Hsx Hne). simpl. now apply IH.
Qed.

(** X4.  [initializeChampionshipMatchups] lists [n * (n - 1) / 2] rows, all
    with count 0, each made of two identifiers of the team list; over a
    team list without repetition the two identifiers of a row differ and
    every pair of distinct teams, in either order, is matched by exactly
    one row. *)
Theorem initializeChampionshipMatchups_all_pairs (bigTwelveTeams : list string) :
  length (initializeChampionshipMatchups bigTwelveTeams)
  = length bigTwelveTeams * (length bigTwelveTeams - 1) / 2 /\
  (forall matchup,
     In matchup (initializeChampionshipMatchups bigTwelveTeams) ->
     In (matchupHome matchup) bigTwelveTeams /\
     In (matchupAway matchup) bigTwelveTeams /\
     matchupCount matchup = 0) /\
  (NoDup bigTwelveTeams ->
   (forall matchup,
      In matchup (initializeChampionshipMatchups bigTwelveTeams) ->
      matchupHome matchup <> matchupAway matchup) /\
   (forall first second,
      In first bigTwelveTeams -> In second bigTwelveTeams ->
      first <> second ->
      length (filter (matchupOf first second)
                     (initializeChampionshipMatchups bigTwelveTeams)) = 1)).
Proof.
  rewrite initializeChampionshipMatchups_pairings. split; [|split].
  - rewrite <- pairings_length, Nat.mul_comm. now rewrite Nat.div_mul.
  - intros m Hm. apply pairings_In in Hm. tauto.
  - intros Hnd. split.
    + intros m Hm. apply pairings_In in Hm. now apply Hm.
    + intros first second. now apply pairings_unique.
Qed.

Lemma initializeChampionshipMatchups_all_pairs_witness :
  length (filter (matchupOf "C" "A")
                 (initializeChampionshipMatchups ["A"; "B"; "C"])) = 1.
Proof.
  apply (proj2 (proj2 (proj2 (initializeChampionshipMatchups_all_pairs
                                ["A"; "B"; "C"]))
                      ltac:(repeat constructor; simpl; intuition discriminate)));
    simpl; auto; discriminate.
Defined.

(* ================================================================== *)
(** ** What the tie-break engine never does *)


Lemma sameSeason_step teams teams1 teams2 :
  sameSeason teams teams1 -> sameSeason teams1 teams2 -> sameSeason teams teams2.
Proof. apply sameSeason_trans. Qed.













(* ================================================================== *)
(** ** Candidates the team list does not know *)

Section UnknownCandidates.

Variable games : list Game.
Variable winners : list string.

Lemma unknown_filter teams :
  (forall s, In s winners -> ~ In s (map name teams)) ->
  filter (fun team => inb (name team) winners) teams = [].
Proof.
  intros H. apply filter_none. intros team Hin.
  destruct (inb (name team) winners) eqn:E; [|reflexivity].
  apply inb_In in E. exfalso. apply (H _ E). now apply in_map.
Qed.

Lemma unknown_max teams :
  (forall s, In s winners -> ~ In s (map name teams)) ->
  maxTieWinsAmong teams winners = Raise ValueError.
Proof.
  intros H. unfold maxTieWinsAmong. now rewrite unknown_filter.
Qed.

Lemma unknown_keep teams m :
  (forall s, In s winners -> ~ In s (map name teams)) ->
  keepByTieWins teams winners m = [].
Proof.
  intros H. unfold keepByTieWins.
  rewrite filter_none; [reflexivity|]. intros team Hin.
  destruct (inb (name team) winners) eqn:E; [|reflexivity].
  apply inb_In in E. exfalso. apply (H _ E). now apply in_map.
Qed.

Lemma unknown_season teams teams1 :
  (forall s, In s winners -> ~ In s (map name teams)) ->
  sameSeason teams teams1 ->
  forall s, In s winners -> ~ In s (map name teams1).
Proof. intros H Hs. now rewrite (sameSeason_names _ _ Hs). Qed.

(** A criterion that takes a maximum among unknown candidates raises, and
    one that does not leaves the candidates as they are. *)
Lemma unknown_tiers commonOpponents levels : forall teams,
  (forall s, In s winners -> ~ In s (map name teams)) ->
  commonOpponentTiers games commonOpponents winners levels teams
  = Raise ValueError \/
  exists teams', commonOpponentTiers games commonOpponents winners levels teams
                 = Ok (teams', None) /\ sameSeason teams teams'.
Proof.
  induction levels as [| recordLevel IH]; intros teams H.
  - right. exists teams. split; reflexivity.
  - cbn [commonOpponentTiers].
    destruct (map name (filter _ teams)) as [| o rest]; [now apply IH|].
    left. rewrite unknown_max; [reflexivity|].
    eapply unknown_season; [exact H|].
    apply getRecordVsCommonOpponents_season.
Qed.

Lemma unknown_all_common commonOpponents teams :
  (forall s, In s winners -> ~ In s (map name teams)) ->
  recordVsAllCommon games commonOpponents winners teams = Raise ValueError \/
  recordVsAllCommon games commonOpponents winners teams = Ok (teams, None).
Proof.
  intros H. unfold recordVsAllCommon.
  destruct commonOpponents as [| o rest]; [now right|].
  left. rewrite unknown_max; [reflexivity|].
  eapply unknown_season; [exact H|].
  apply getRecordVsCommonOpponents_season.
Qed.

Lemma unknown_strength teams :
  (forall s, In s winners -> ~ In s (map name teams)) ->
  strengthOfSchedule games winners teams = Raise ValueError.
Proof.
  intros H. unfold strengthOfSchedule. rewrite unknown_max; [reflexivity|].
  eapply unknown_season; [exact H|]. apply calculateOpponentStrength_season.
Qed.

Lemma unknown_group teams :
  (forall s, In s winners -> ~ In s (map name teams)) ->
  3 <= length winners ->
  groupHeadToHead games winners teams
  = Ok (getHeadToHeadRecord games teams winners, None).
Proof.
  intros H Hlen. unfold groupHeadToHead.
  assert (H1 : forall s, In s winners ->
                 ~ In s (map name (getHeadToHeadRecord games teams winners)))
    by (eapply unknown_season; [exact H | apply getHeadToHeadRecord_season]).
  rewrite unknown_filter by exact H1. cbn [map py_sum fold_left].
  assert (Hexp : (0 =? (length winners - 1) * length winners / 2) = false).
  { apply Nat.eqb_neq. intros H0. symmetry in H0.
    apply Nat.div_small_iff in H0; [nia | lia]. }
  rewrite Hexp, unknown_keep by exact H1.
  destruct (names_eq_dec [] winners) as [E | E]; [|reflexivity].
  subst winners. simpl in Hlen. lia.
Qed.

Lemma unknown_pass teams :
  (forall s, In s winners -> ~ In s (map name teams)) ->
  3 <= length winners ->
  multiTeamCriteria games teams winners = Raise ValueError.
Proof.
  intros H Hlen. unfold multiTeamCriteria.
  rewrite unknown_group by assumption. cbn [bind].
  set (teams1 := getHeadToHeadRecord games teams winners).
  assert (H1 : forall s, In s winners -> ~ In s (map name teams1))
    by (eapply unknown_season; [exact H | apply getHeadToHeadRecord_season]).
  destruct (py_max (map seasonWins teams1)) as [maxWins | e |] eqn:Hmax;
    cbn [bind].
  - destruct (unknown_tiers (findCommonOpponents games teams1 winners)
                (S maxWins) teams1 H1) as [-> | [teams2 [-> Hs2]]];
      [reflexivity|]. cbn [bind].
    assert (H2 : forall s, In s winners -> ~ In s (map name teams2))
      by (eapply unknown_season; eassumption).
    destruct (unknown_all_common (findCommonOpponents games teams1 winners)
                teams2 H2) as [-> | ->]; [reflexivity|]. cbn [bind].
    now apply unknown_strength.
  - destruct (map seasonWins teams1); simpl in Hmax; [|discriminate].
    now injection Hmax as <-.
  - destruct (map seasonWins teams1); discriminate.
Qed.

End UnknownCandidates.

(** X6.  Three or more tied identifiers of which none names a team of the
    list make [resolveTiebreaker] raise [ValueError], from a [max()] over no
    team: no winner is returned and no random pick is made. *)
Theorem resolveTiebreaker_unknown_candidates
  (games : list Game) (teams : list Team) (tiedTeams : list string) (rng : Rng) :
  3 <= length tiedTeams ->
  (forall s, In s tiedTeams -> ~ In s (map name teams)) ->
  resolveTiebreaker games teams tiedTeams rng = Raise ValueError.
Proof.
  intros Hlen H. unfold resolveTiebreaker, resolveTiebreakerFuel.
  pose proof (sorted_length tiedTeams) as Hsl.
  assert (H1 : (length (sorted tiedTeams) =? 1) = false)
    by (apply Nat.eqb_neq; lia).
  assert (H2 : (length (sorted tiedTeams) =? 2) = false)
    by (apply Nat.eqb_neq; lia).
  rewrite H1, H2.
  destruct (length tiedTeams) as [| fuel] eqn:Hfuel; [lia|].
  cbn [multiTeamLoop].
  assert (H3 : (length (sorted tiedTeams) <=? 2) = false)
    by (apply Nat.leb_gt; lia).
  rewrite H3, unknown_pass; [reflexivity | | lia].
  intros s Hs. apply H. now apply sorted_In.
Qed.

Lemma resolveTiebreaker_unknown_candidates_witness :
  resolveTiebreaker rematchGames rematchTeams ["X"; "Y"; "Z"] rngHalf
  = Raise ValueError.
Proof.
  apply (resolveTiebreaker_unknown_candidates
           rematchGames rematchTeams ["X"; "Y"; "Z"] rngHalf).
  - simpl. lia.
  - simpl. intros s Hs Hin. intuition (subst; discriminate).
Defined.

(* ================================================================== *)
(** ** Common opponents *)




(* ================================================================== *)
(** ** The head-to-head record *)

Lemma fold_map_pointwise {A : Type} (F : A -> Team -> Team) l : forall teams,
  fold_left (fun teams a => map (F a) teams) l teams
  = map (fun team => fold_left (fun team a => F a team) l team) teams.
Proof.
  induction l as [| a rest IH]; intros teams; simpl.
  - symmetry. apply map_id.
  - rewrite IH, map_map. reflexivity.
Qed.

Lemma fold_left_ext {A B : Type} (f g : A -> B -> A) :
  (forall a b, f a b = g a b) ->
  forall l a, fold_left f l a = fold_left g l a.
Proof.
  intros H. induction l as [| b rest IH]; intros a; simpl; [reflexivity|].
  now rewrite H, IH.
Qed.

Lemma headToHeadGame_credited game team :
  headToHeadGame game team
  = if creditedTo game (name team) then addTieWins 1 team else team.
Proof.
  unfold headToHeadGame, creditedTo.
  destruct ((gameResult game =? 1) && (name team == home game)); [reflexivity|].
  now destruct ((gameResult game =? 0) && (name team == away game)).
Qed.

Lemma headToHeadWins_cons game games teamList teamName :
  headToHeadWins (game :: games) teamList teamName
  = (if inb (home game) teamList && inb (away game) teamList
        && creditedTo game teamName then 1 else 0)
    + headToHeadWins games teamList teamName.
Proof.
  unfold headToHeadWins, groupGames. simpl.
  destruct (inb (home game) teamList && inb (away game) teamList); simpl;
    [|reflexivity].
  now destruct (creditedTo game teamName).
Qed.

Lemma headToHead_team games teamList : forall team,
  fold_left
    (fun team game =>
       if inb (home game) teamList && inb (away game) teamList
       then headToHeadGame game team else team)
    games team
  = setTieWins team (tieWins team + headToHeadWins games teamList (name team)).
Proof.
  induction games as [| game rest IH]; intros team.
  - simpl. destruct team. unfold setTieWins. simpl. f_equal.
    unfold headToHeadWins. simpl. lia.
  - cbn [fold_left]. rewrite IH, headToHeadWins_cons, headToHeadGame_credited.
    destruct (inb (home game) teamList && inb (away game) teamList); simpl;
      [|reflexivity].
    destruct (creditedTo game (name team)); simpl;
      unfold setTieWins; simpl; f_equal; lia.
Qed.

Lemma getHeadToHeadRecord_pointwise games teams teamList :
  getHeadToHeadRecord games teams teamList
  = map (fun team => setTieWins team (headToHeadWins games teamList (name team)))
        teams.
Proof.
  unfold getHeadToHeadRecord.
  rewrite (fold_left_ext _
             (fun teams game =>
                map (fun team =>
                       if inb (home game) teamList && inb (away game) teamList
                       then headToHeadGame game team else team) teams)).
  - rewrite fold_map_pointwise. unfold resetTieWins. rewrite map_map.
    apply map_ext. intros team. now rewrite headToHead_team.
  - intros ts game.
    destruct (inb (home game) teamList && inb (away game) teamList);
      [reflexivity | symmetry; apply map_id].
Qed.

Lemma py_sum_list_sum l : py_sum l = list_sum l.
Proof.
  unfold py_sum.
  assert (H : forall a, fold_left Nat.add l a = a + list_sum l).
  { induction l as [| x rest IH]; intros a; simpl; [lia|].
    rewrite IH. lia. }
  apply H.
Qed.

Lemma sum_swap {A : Type} (c : A -> string -> bool) (G : list A) (N : list string) :
  list_sum (map (fun n => length (filter (fun g => c g n) G)) N)
  = list_sum (map (fun g => length (filter (c g) N)) G).
Proof.
  induction G as [| g rest IH]; simpl.
  - induction N; simpl; auto.
  - rewrite <- IH. clear IH.
    induction N as [| n N' IHN]; simpl; [reflexivity|].
    destruct (c g n); simpl; rewrite IHN; lia.
Qed.

Lemma filter_map_names (f : string -> bool) (k : string -> nat) teams :
  filter (fun team => f (name team))
         (map (fun team => setTieWins team (k (name team))) teams)
  = map (fun team => setTieWins team (k (name team)))
        (filter (fun team => f (name team)) teams).
Proof.
  induction teams as [| t rest IH]; [reflexivity|].
  simpl. destruct (f (name t)); simpl; now rewrite IH.
Qed.

(** X8.  [getHeadToHeadRecord] leaves every team with a tie metric equal to
    the number of games among [teamList] decided in its favour, and changes
    nothing else; a team outside [teamList] is left with 0.  Over a team
    list with unique names that contains [teamList], with every game
    decided, the metrics of the group add up to the number of games among
    the group, the total that is compared with [k * (k - 1) / 2]. *)
Theorem getHeadToHeadRecord_counts
  (games : list Game) (teams : list Team) (teamList : list string) :
  getHeadToHeadRecord games teams teamList
  = map (fun team => setTieWins team (headToHeadWins games teamList (name team)))
        teams /\
  (forall teamName,
     ~ In teamName teamList -> headToHeadWins games teamList teamName = 0) /\
  (NoDup (map name teams) -> incl teamList (map name teams) ->
   Forall (fun game => gameResult game = 0 \/ gameResult game = 1) games ->
   py_sum (map tieWins
             (filter (fun team => inb (name team) teamList)
                     (getHeadToHeadRecord games teams teamList)))
   = length (groupGames games teamList)).
Proof.
  split; [apply getHeadToHeadRecord_pointwise|]. split.
  - intros teamName Hout. unfold headToHeadWins.
    apply length_zero_iff_nil, filter_none. intros game Hin.
    apply filter_In in Hin as [_ Hboth].
    apply andb_true_iff in Hboth as [Hh Ha]. apply inb_In in Hh, Ha.
    unfold creditedTo.
    destruct (teamName == home game) eqn:E1;
      [apply String.eqb_eq in E1; subst; contradiction|].
    destruct (teamName == away game) eqn:E2;
      [apply String.eqb_eq in E2; subst; contradiction|].
    now rewrite !andb_false_r.
  - intros Hnd Hincl Hres.
    rewrite getHeadToHeadRecord_pointwise, py_sum_list_sum.
    rewrite (filter_map_names (fun n => inb n teamList)), map_map.
    cbn [tieWins setTieWins].
    set (N := map name (filter (fun team => inb (name team) teamList) teams)).
    rewrite <- (map_map name (fun n => headToHeadWins games teamList n)).
    fold N. unfold headToHeadWins. rewrite sum_swap.
    assert (HN : NoDup N) by (subst N; now apply NoDup_map_filter).
    assert (HinN : forall s, In s teamList -> In s N).
    { intros s Hs. subst N. apply Hincl in Hs as Hn.
      apply in_map_iff in Hn as [t [<- Ht]]. apply in_map, filter_In.
      split; [exact Ht | now apply inb_In]. }
    assert (Hone : forall game, In game (groupGames games teamList) ->
                     length (filter (creditedTo game) N) = 1).
    { intros game Hin. apply filter_In in Hin as [Hg Hboth].
      apply andb_true_iff in Hboth as [Hh Ha]. apply inb_In in Hh, Ha.
      rewrite Forall_forall in Hres.
      destruct (Hres game Hg) as [Hr | Hr].
      - rewrite (filter_ext _ (String.eqb (away game))).
        + apply count_once; auto.
        + intros n. unfold creditedTo. rewrite Hr. simpl.
          apply String.eqb_sym.
      - rewrite (filter_ext _ (String.eqb (home game))).
        + apply count_once; auto.
        + intros n. unfold creditedTo. rewrite Hr. simpl.
          rewrite orb_false_r. apply String.eqb_sym. }
    revert Hone. generalize (groupGames games teamList) as G.
    induction G as [| g rest IH]; intros Hone; [reflexivity|].
    simpl. rewrite Hone by now left. simpl. f_equal. apply IH.
    intros game Hin. apply Hone. now right.
Qed.

Lemma getHeadToHeadRecord_counts_witness :
  py_sum (map tieWins
            (filter (fun team => inb (name team) ["A"; "B"])
               (getHeadToHeadRecord rematchGames rematchTeams ["A"; "B"])))
  = length (groupGames rematchGames ["A"; "B"]).
Proof.
  apply (proj2 (proj2 (getHeadToHeadRecord_counts
                         rematchGames rematchTeams ["A"; "B"]))).
  - repeat constructor; simpl; intuition discriminate.
  - apply incl_refl.
  - constructor; [right; reflexivity|].
    constructor; [left; reflexivity | constructor].
Defined.

(* ================================================================== *)
(** ** More on the standings resolver *)

(** X9.  [findTeamsWithRecord] returns, in ascending order, exactly the
    names of the teams with [wins] wins, restricted to the unplaced ones
    when [excludePlaced] is set; over unique names it has no repetition. *)
Theorem findTeamsWithRecord_spec
  (teams : list Team) (wins : nat) (excludePlaced : bool) :
  StronglySorted nameLe (findTeamsWithRecord teams wins excludePlaced) /\
  (forall s,
     In s (findTeamsWithRecord teams wins excludePlaced) <->
     exists team, In team teams /\ name team = s /\ seasonWins team = wins /\
                  (excludePlaced = true -> currentPlace team = 0)) /\
  (NoDup (map name teams) ->
   NoDup (findTeamsWithRecord teams wins excludePlaced)).
Proof.
  unfold findTeamsWithRecord. split; [apply sorted_sorted|]. split.
  - intros s. rewrite sorted_In, in_map_iff. split.
    + intros [team [Hname Hin]]. apply filter_In in Hin as [Hin Hcond].
      apply andb_true_iff in Hcond as [Hw Hp]. apply Nat.eqb_eq in Hw.
      exists team. repeat split; auto. intros ->. simpl in Hp.
      now apply Nat.eqb_eq.
    + intros [team [Hin [Hname [Hw Hp]]]]. exists team. split; [exact Hname|].
      apply filter_In. split; [exact Hin|]. apply andb_true_iff.
      split; [now apply Nat.eqb_eq|].
      destruct excludePlaced; [|reflexivity]. simpl.
      apply Nat.eqb_eq. now apply Hp.
  - intros Hnd. now apply sorted_NoDup, NoDup_map_filter.
Qed.

Lemma determineStandings_single games team rng :
  determineStandings games [team] rng = Raise UnboundLocalError.
Proof.
  unfold determineStandings, standingsPass, maxUnplacedWins, findTeamsWithRecord.
  cbn [stTeams stRng stFirst stSecond stRandom fold_left filter].
  destruct (currentPlace team =? 0) eqn:Hp.
  - assert (Hmax : (if true && (0 <? seasonWins team)
                    then seasonWins team else 0) = seasonWins team).
    { simpl. destruct (seasonWins team); reflexivity. }
    rewrite Hmax, Nat.eqb_refl. cbn [andb orb negb map sorted fold_right insert].
    unfold resolveTiebreaker, resolveTiebreakerFuel.
    cbn [sorted fold_right insert length Nat.eqb bind assignPlace inb existsb].
    rewrite String.eqb_refl.
    cbn [orb stTeams stRng stFirst stSecond stRandom fold_left filter
         placeFirst currentPlace seasonWins Nat.eqb andb Nat.ltb Nat.leb
         negb map sorted fold_right bind].
    rewrite andb_false_r. reflexivity.
  - cbn [andb]. rewrite andb_false_r.
    cbn [map sorted fold_right bind stTeams fold_left filter].
    rewrite Hp. cbn [andb]. rewrite andb_false_r. reflexivity.
Qed.

(** X10.  With fewer than two teams [determineStandings] never returns: the
    2nd place, or both places, stay unassigned and its [return] raises
    [UnboundLocalError]; so every run over a schedule that loads with fewer
    than two teams, the empty one included, ends in that error at its first
    trial. *)
Theorem determineStandings_needs_two_teams
  (games : list Game) (teams : list Team) (rng : Rng) :
  length teams <= 1 ->
  determineStandings games teams rng = Raise UnboundLocalError /\
  (forall numberOfRuns rows loaded,
     loadGameData (loadTeamsFromCSV rows) rows = Ok loaded ->
     length (loadTeamsFromCSV rows) <= 1 ->
     runSimulations (S numberOfRuns) rows rng = Raise UnboundLocalError).
Proof.
  assert (Hfew : forall games teams rng,
             length teams <= 1 ->
             determineStandings games teams rng = Raise UnboundLocalError).
  { clear. intros games teams rng Hlen.
    destruct teams as [| team [| ? ?]]; simpl in Hlen; try lia.
    - reflexivity.
    - apply determineStandings_single. }
  intros Hlen. split; [now apply Hfew|].
  intros n rows loaded Hload Hteams. unfold runSimulations.
  rewrite Hload. cbn [bind simulationLoop runGames runTeams runRng].
  destruct (simulateGames loaded (initializeTeamData (loadTeamsFromCSV rows)) rng)
    as [[games1 teams1] rng1] eqn:Hsim.
  apply simulateGames_inv in Hsim as [Hnames _].
  rewrite Hfew; [reflexivity|].
  rewrite <- (length_map name), Hnames, initializeTeamData_names. exact Hteams.
Qed.

Lemma determineStandings_needs_two_teams_witness :
  determineStandings [] [] rngHalf = Raise UnboundLocalError /\
  runSimulations 1 [] rngHalf = Raise UnboundLocalError.
Proof.
  destruct (determineStandings_needs_two_teams [] [] rngHalf) as [H1 H2];
    [simpl; lia|].
  split; [exact H1|]. apply (H2 0 [] []); [reflexivity | simpl; lia].
Defined.





(* ================================================================== *)
(** ** More on the season simulator *)

Lemma simulateGameTeams_fixture r teams : forall game game' teams',
  simulateGameTeams r game teams = (game', teams') ->
  fixtureOf game' = fixtureOf game.
Proof.
  induction teams as [| team rest IH]; intros game game' teams' H.
  - injection H as <- _. reflexivity.
  - cbn [simulateGameTeams] in H.
    destruct (home game == name team).
    + destruct (py_lt (PyFloat r) (winProbability game)).
      * destruct (simulateGameTeams r (setResult game 1) rest)
          as [game2 rest'] eqn:Hrest.
        injection H as <- _. now rewrite (IH _ _ _ Hrest).
      * destruct (simulateGameTeams r game rest) as [game2 rest'] eqn:Hrest.
        injection H as <- _. now apply (IH _ _ _ Hrest).
    + destruct (away game == name team);
        [destruct (py_ge (PyFloat r) (winProbability game))|];
        destruct (simulateGameTeams r game rest) as [game2 rest'] eqn:Hrest;
        injection H as <- _; now apply (IH _ _ _ Hrest).
Qed.

Lemma simulateLoop_fixtures games : forall teams rng games' teams' rng',
  simulateLoop games teams rng = (games', teams', rng') ->
  map fixtureOf games' = map fixtureOf games.
Proof.
  induction games as [| game rest IH]; intros teams rng games' teams' rng' H.
  - injection H as <- _ _. reflexivity.
  - cbn [simulateLoop] in H. unfold simulateGame, random_random in H.
    destruct (simulateGameTeams _ (setResult game 0) teams)
      as [game1 teams1] eqn:Hg.
    destruct (simulateLoop rest teams1 _) as [[rest' teams2] rng2] eqn:Hl.
    injection H as <- _ _. simpl.
    apply simulateGameTeams_fixture in Hg. apply IH in Hl.
    rewrite Hl, Hg. reflexivity.
Qed.

Lemma simulateLoop_forgets games : forall games' teams rng,
  map fixtureOf games = map fixtureOf games' ->
  simulateLoop games teams rng = simulateLoop games' teams rng.
Proof.
  induction games as [| game rest IH]; intros games' teams rng H;
    destruct games' as [| game' rest']; try discriminate; [reflexivity|].
  cbn [map] in H. assert (Hg : fixtureOf game = fixtureOf game') by congruence.
  assert (Hrest : map fixtureOf rest = map fixtureOf rest') by congruence.
  cbn [simulateLoop]. unfold simulateGame.
  change (setResult game 0) with (fixtureOf game).
  change (setResult game' 0) with (fixtureOf game'). rewrite Hg.
  destruct (random_random rng) as [r rng1].
  destruct (simulateGameTeams r (fixtureOf game') teams) as [game1 teams1].
  now rewrite (IH rest' teams1 rng1 Hrest).
Qed.

(** X12.  A trial does not see what the trial before it left: [simulateGames]
    gives the same result on two states that agree on the fixtures, the
    team names and the placement counts, whatever outcomes, win totals, tie
    metrics and places they hold; and it returns the fixtures it was given,
    only their outcomes rewritten. *)
Theorem simulateGames_forgets_previous_trial
  (games games' : list Game) (teams teams' : list Team) (rng : Rng) :
  map fixtureOf games = map fixtureOf games' ->
  map resetSeason teams = map resetSeason teams' ->
  simulateGames games teams rng = simulateGames games' teams' rng /\
  map fixtureOf (fst (fst (simulateGames games teams rng)))
  = map fixtureOf games.
Proof.
  intros Hg Ht. unfold simulateGames. rewrite Ht. split.
  - now apply simulateLoop_forgets.
  - destruct (simulateLoop games (map resetSeason teams') rng)
      as [[games1 teams1] rng1] eqn:H.
    now apply simulateLoop_fixtures in H.
Qed.

Lemma simulateGames_forgets_previous_trial_witness :
  simulateGames rematchGames rematchTeams rngHalf
  = simulateGames (map fixtureOf rematchGames) (map resetSeason rematchTeams)
                  rngHalf.
Proof.
  apply (simulateGames_forgets_previous_trial
           rematchGames (map fixtureOf rematchGames)
           rematchTeams (map resetSeason rematchTeams) rngHalf);
    reflexivity.
Defined.

Lemma Forall2_compose {A : Type} (R1 R2 R3 : A -> A -> Prop) :
  (forall x y z, R1 x y -> R2 y z -> R3 x z) ->
  forall a b c, Forall2 R1 a b -> Forall2 R2 b c -> Forall2 R3 a c.
Proof.
  intros H a b c H1. revert c.
  induction H1 as [| x y a' b' Hxy _ IH]; intros c H2;
    inversion H2; subst; constructor; eauto.
Qed.

Lemma simulateGameTeams_credit r teams : forall game game' teams',
  simulateGameTeams r game teams = (game', teams') ->
  Forall2 (fun team team' =>
             name team' = name team /\
             seasonWins team' <=
             seasonWins team +
             (if (home game == name team) || (away game == name team)
              then 1 else 0))
          teams teams'.
Proof.
  induction teams as [| team rest IH]; intros game game' teams' H.
  - injection H as _ <-. constructor.
  - cbn [simulateGameTeams] in H.
    destruct (home game == name team) eqn:Eh.
    + destruct (py_lt (PyFloat r) (winProbability game)).
      * destruct (simulateGameTeams r (setResult game 1) rest)
          as [game2 rest'] eqn:Hrest.
        injection H as _ <-. constructor; [simpl; rewrite Eh; simpl; split; [reflexivity | lia]|].
        exact (IH _ _ _ Hrest).
      * destruct (simulateGameTeams r game rest) as [game2 rest'] eqn:Hrest.
        injection H as _ <-. constructor; [simpl; rewrite Eh; simpl; split; [reflexivity | lia]|].
        exact (IH _ _ _ Hrest).
    + destruct (away game == name team) eqn:Ea;
        [destruct (py_ge (PyFloat r) (winProbability game))|];
        destruct (simulateGameTeams r game rest) as [game2 rest'] eqn:Hrest;
        injection H as _ <-;
        (constructor; [simpl; rewrite Eh, Ea; simpl; split; [reflexivity | lia]
                     | exact (IH _ _ _ Hrest)]).
Qed.

Lemma simulateLoop_credit games : forall teams rng games' teams' rng',
  simulateLoop games teams rng = (games', teams', rng') ->
  Forall2 (fun team team' =>
             name team' = name team /\
             seasonWins team' <= seasonWins team + gamesPlayed games (name team))
          teams teams'.
Proof.
  induction games as [| game rest IH]; intros teams rng games' teams' rng' H.
  - injection H as _ <- _. induction teams; constructor; auto.
    split; [reflexivity | lia].
  - cbn [simulateLoop] in H. unfold simulateGame, random_random in H.
    destruct (simulateGameTeams _ (setResult game 0) teams)
      as [game1 teams1] eqn:Hg.
    destruct (simulateLoop rest teams1 _) as [[rest' teams2] rng2] eqn:Hl.
    injection H as _ <- _.
    apply simulateGameTeams_credit in Hg. apply IH in Hl.
    eapply Forall2_compose; [|exact Hg | exact Hl].
    intros x y z [Hn1 Hw1] [Hn2 Hw2]. simpl in Hw1.
    split; [congruence|]. rewrite Hn1 in Hw2.
    unfold gamesPlayed in *. cbn [filter].
    destruct ((home game == name x) || (away game == name x));
      cbn [length]; lia.
Qed.

Lemma simulateLoop_bound games start rng games' teams' rng' :
  Forall (fun team => seasonWins team = 0) start ->
  simulateLoop games start rng = (games', teams', rng') ->
  Forall (fun team => seasonWins team <= gamesPlayed games (name team)) teams'.
Proof.
  intros Hzero H. apply simulateLoop_credit in H.
  induction H as [| x y a b [Hn Hw] _ IH]; constructor.
  - inversion Hzero; subst. rewrite Hn. lia.
  - apply IH. now inversion Hzero.
Qed.

Lemma resetSeason_zero teams :
  Forall (fun team => seasonWins team = 0) (map resetSeason teams).
Proof.
  apply Forall_forall. intros t Ht.
  apply in_map_iff in Ht as [t0 [<- _]]. reflexivity.
Qed.

(** X13.  After [simulateGames] no team holds more wins than the schedule
    has games in which it plays. *)
Theorem simulateGames_wins_bounded
  (games : list Game) (teams : list Team) (rng : Rng) :
  Forall (fun team => seasonWins team <= gamesPlayed games (name team))
         (snd (fst (simulateGames games teams rng))).
Proof.
  unfold simulateGames.
  destruct (simulateLoop games (map resetSeason teams) rng)
    as [[games' teams'] rng'] eqn:H.
  simpl. eapply simulateLoop_bound; [apply resetSeason_zero | exact H].
Qed.

(* ================================================================== *)
(** ** The accumulators of a run *)

Lemma update_exactly_one (f : Team -> Team) w teams :
  NoDup (map name teams) -> In w (map name teams) ->
  exists before team after,
    teams = before ++ team :: after /\ name team = w /\
    map (fun team => if name team == w then f team else team) teams
    = before ++ f team :: after.
Proof.
  induction teams as [| t rest IH]; intros Hnd Hin; [contradiction|].
  simpl in Hnd. apply NoDup_cons_iff in Hnd as [Hnotin Hnd].
  destruct (String.eqb_spec (name t) w) as [Heq | Hneq].
  - exists [], t, rest. repeat split; [assumption|]. simpl.
    apply String.eqb_eq in Heq as Heqb. rewrite Heqb. f_equal.
    rewrite <- (map_id rest) at 2. apply map_ext_in.
    intros a Ha. destruct (name a == w) eqn:E; [|reflexivity].
    apply String.eqb_eq in E. exfalso. apply Hnotin.
    rewrite Heq, <- E. now apply in_map.
  - destruct Hin as [Hin | Hin]; [contradiction|].
    destruct (IH Hnd Hin) as [before [team [after [H1 [H2 H3]]]]].
    exists (t :: before), team, after. repeat split.
    + simpl. now f_equal.
    + assumption.
    + simpl. apply String.eqb_neq in Hneq. rewrite Hneq. now f_equal.
Qed.

Lemma tally_map {B : Type} (g : string * nat * nat -> B) teams teams' :
  map tally teams' = map tally teams ->
  map (fun team => g (tally team)) teams'
  = map (fun team => g (tally team)) teams.
Proof. intros H. rewrite <- !(map_map tally g). now rewrite H. Qed.

Lemma tally_totals teams teams' :
  map tally teams' = map tally teams ->
  map name teams' = map name teams /\
  firstsTotal teams' = firstsTotal teams /\
  secondsTotal teams' = secondsTotal teams /\
  (forall teamName,
     placementsOf teams' teamName = placementsOf teams teamName).
Proof.
  intros H. split; [|split; [|split]].
  - exact (tally_map (fun p => fst (fst p)) _ _ H).
  - exact (f_equal list_sum (tally_map (fun p => snd (fst p)) _ _ H)).
  - exact (f_equal list_sum (tally_map (fun p => snd p) _ _ H)).
  - intros teamName.
    exact (f_equal list_sum
             (tally_map (fun p => if fst (fst p) == teamName
                                  then snd (fst p) + snd p else 0) _ _ H)).
Qed.

Lemma markPlace_totals p w teams :
  NoDup (map name teams) -> In w (map name teams) ->
  firstsTotal (markPlace p w teams)
  = firstsTotal teams + (if p =? 1 then 1 else 0) /\
  secondsTotal (markPlace p w teams)
  = secondsTotal teams + (if negb (p =? 1) && (p =? 2) then 1 else 0) /\
  (forall teamName,
     placementsOf (markPlace p w teams) teamName
     = placementsOf teams teamName +
       (if (w == teamName) && ((p =? 1) || (p =? 2)) then 1 else 0)).
Proof.
  intros Hnd Hin. unfold markPlace, firstsTotal, secondsTotal, placementsOf.
  destruct (update_exactly_one
              (fun team => if p =? 1 then placeFirst team
                           else if p =? 2 then placeSecond team
                                else setPlace team p) w teams Hnd Hin)
    as [before [team [after [H1 [H2 H3]]]]].
  rewrite H3, H1, !map_app, !list_sum_app. cbn [map list_sum].
  split; [|split; [|intros teamName]].
  - destruct (p =? 1); [|destruct (p =? 2)]; simpl; lia.
  - destruct (p =? 1); [|destruct (p =? 2)]; simpl; lia.
  - assert (Hname : forall q, name (if q =? 1 then placeFirst team
                                   else if q =? 2 then placeSecond team
                                        else setPlace team q) = w)
      by (intros q; destruct (q =? 1); [|destruct (q =? 2)]; exact H2).
    rewrite !map_app, !list_sum_app. cbn [map list_sum].
    rewrite Hname, H2.
    destruct (w == teamName); [|simpl; lia].
    destruct (p =? 1); [|destruct (p =? 2)]; simpl; lia.
Qed.

Lemma sameSeason_tally teams teams' :
  sameSeason teams teams' -> map tally teams' = map tally teams.
Proof.
  unfold sameSeason, resetTieWins. intros H.
  pose proof (f_equal (map tally) H) as H1.
  rewrite !map_map in H1. exact H1.
Qed.

Lemma simulateGameTeams_tally r teams : forall game game' teams',
  simulateGameTeams r game teams = (game', teams') ->
  map tally teams' = map tally teams.
Proof.
  induction teams as [| team rest IH]; intros game game' teams' H.
  - injection H as _ <-. reflexivity.
  - cbn [simulateGameTeams] in H.
    destruct (home game == name team).
    + destruct (py_lt (PyFloat r) (winProbability game)).
      * destruct (simulateGameTeams r (setResult game 1) rest)
          as [game2 rest'] eqn:Hrest.
        injection H as _ <-. cbn [map]. now rewrite (IH _ _ _ Hrest).
      * destruct (simulateGameTeams r game rest) as [game2 rest'] eqn:Hrest.
        injection H as _ <-. cbn [map]. now rewrite (IH _ _ _ Hrest).
    + destruct (away game == name team);
        [destruct (py_ge (PyFloat r) (winProbability game))|];
        destruct (simulateGameTeams r game rest) as [game2 rest'] eqn:Hrest;
        injection H as _ <-; cbn [map]; now rewrite (IH _ _ _ Hrest).
Qed.

Lemma simulateLoop_tally games : forall teams rng games' teams' rng',
  simulateLoop games teams rng = (games', teams', rng') ->
  map tally teams' = map tally teams.
Proof.
  induction games as [| game rest IH]; intros teams rng games' teams' rng' H.
  - injection H as _ <- _. reflexivity.
  - cbn [simulateLoop] in H. unfold simulateGame, random_random in H.
    destruct (simulateGameTeams _ (setResult game 0) teams)
      as [game1 teams1] eqn:Hg.
    destruct (simulateLoop rest teams1 _) as [[rest' teams2] rng2] eqn:Hl.
    injection H as _ <- _.
    apply simulateGameTeams_tally in Hg. apply IH in Hl. congruence.
Qed.

Lemma gamesPlayed_fixtures games : forall games' teamName,
  map fixtureOf games' = map fixtureOf games ->
  gamesPlayed games' teamName = gamesPlayed games teamName.
Proof.
  unfold gamesPlayed.
  induction games as [| game rest IH]; intros games' teamName H;
    destruct games' as [| game' rest']; try discriminate; [reflexivity|].
  cbn [map] in H. injection H as Hh Ha Hp Hrest.
  cbn [filter]. rewrite Hh, Ha.
  destruct ((home game == teamName) || (away game == teamName));
    cbn [length]; now rewrite (IH rest' teamName Hrest).
Qed.

(** What a trial's season leaves of the state before it. *)
Lemma simulateGames_trial games teams rng games1 teams1 rng1 :
  simulateGames games teams rng = (games1, teams1, rng1) ->
  map fixtureOf games1 = map fixtureOf games /\
  map tally teams1 = map tally teams /\
  Forall (fun team => seasonWins team <= gamesPlayed games (name team)) teams1.
Proof.
  unfold simulateGames. intros H. split; [|split].
  - now apply simulateLoop_fixtures in H.
  - apply simulateLoop_tally in H. rewrite H, map_map. reflexivity.
  - eapply simulateLoop_bound; [apply resetSeason_zero | exact H].
Qed.

Lemma Forall_names_wins (P : string -> nat -> Prop) teams : forall teams',
  map name teams' = map name teams ->
  map seasonWins teams' = map seasonWins teams ->
  Forall (fun team => P (name team) (seasonWins team)) teams ->
  Forall (fun team => P (name team) (seasonWins team)) teams'.
Proof.
  induction teams as [| team rest IH]; intros teams' Hn Hw H;
    destruct teams' as [| team' rest']; try discriminate; constructor.
  - injection Hn as -> _. injection Hw as -> _. now inversion H.
  - injection Hn as _ Hn. injection Hw as _ Hw. apply IH; auto.
    now inversion H.
Qed.

(** The standings of a trial, with the teams as the two passes leave them. *)
Lemma determineStandings_shape games teams rng :
  NoDup (map name teams) -> 2 <= length teams ->
  Forall (fun team => currentPlace team = 0) teams ->
  exists teamsA teamsB w1 w2 used rng',
    determineStandings games teams rng
    = Ok (mkStandings w1 w2 used (markPlace 2 w2 teamsB) rng') /\
    sameSeason teams teamsA /\
    sameSeason (markPlace 1 w1 teamsA) teamsB /\
    w1 <> w2 /\ In w1 (map name teams) /\ In w2 (map name teams).
Proof.
  intros Hnd Hlen Hunplaced.
  set (st0 := mkStanding teams None None 0 rng).
  destruct (standingsPass_ok 1 games st0 Hnd) as
    [teamsA [w1 [used1 [rngA [Hpass1 [HsA [t1 [Hin1 [Hname1 _]]]]]]]]].
  { destruct teams as [| t rest]; [simpl in Hlen; lia|].
    exists t. split; [now left|]. now inversion Hunplaced. }
  simpl in Hpass1, HsA, Hin1.
  set (st1 := mkStanding (markPlace 1 w1 teamsA) (Some w1) None
                         (if used1 then 1 else 0) rngA) in *.
  assert (HndA : NoDup (map name (stTeams st1))).
  { simpl. rewrite markPlace_names, (sameSeason_names _ _ HsA). exact Hnd. }
  assert (HunA : Forall (fun team => currentPlace team = 0) teamsA)
    by (eapply sameSeason_unplaced; eassumption).
  destruct (standingsPass_ok 2 games st1 HndA) as
    [teamsB [w2 [used2 [rngB [Hpass2 [HsB [t2 [Hin2 [Hname2 Hplace2]]]]]]]]].
  { destruct (other_team teamsA w1) as [t [Hin Hne]].
    - now rewrite (sameSeason_names _ _ HsA).
    - rewrite <- (length_map name), (sameSeason_names _ _ HsA), length_map.
      exact Hlen.
    - exists t. split; [now apply markPlace_other|].
      rewrite Forall_forall in HunA. now apply HunA. }
  simpl in Hpass2, Hin2, HsB.
  assert (Hdiff : w1 <> w2).
  { intros Heq. apply (markPlace_unplaced 1 w1 teamsA t2); auto. congruence. }
  exists teamsA, teamsB, w1, w2. eexists _, rngB.
  unfold determineStandings. fold st0.
  rewrite Hpass1. cbn [bind]. rewrite Hpass2. cbn [bind]. simpl.
  split; [reflexivity|]. split; [exact HsA|]. split; [exact HsB|].
  split; [exact Hdiff|]. split; [subst w1; now apply in_map|].
  rewrite <- (sameSeason_names _ _ HsA), <- (markPlace_names 1 w1 teamsA).
  subst w2. now apply in_map.
Qed.

(** A trial adds one 1st place and one 2nd place, to two different teams. *)
Lemma trial_totals games teams rng :
  NoDup (map name teams) -> 2 <= length teams ->
  Forall (fun team => currentPlace team = 0) teams ->
  exists standings,
    determineStandings games teams rng = Ok standings /\
    firstPlace standings <> secondPlace standings /\
    In (firstPlace standings) (map name teams) /\
    In (secondPlace standings) (map name teams) /\
    map name (placedTeams standings) = map name teams /\
    map seasonWins (placedTeams standings) = map seasonWins teams /\
    firstsTotal (placedTeams standings) = S (firstsTotal teams) /\
    secondsTotal (placedTeams standings) = S (secondsTotal teams) /\
    (forall teamName,
       placementsOf (placedTeams standings) teamName
       = placementsOf teams teamName +
         (if (firstPlace standings == teamName) ||
             (secondPlace standings == teamName) then 1 else 0)).
Proof.
  intros Hnd Hlen Hun.
  destruct (determineStandings_shape games teams rng Hnd Hlen Hun)
    as [teamsA [teamsB [w1 [w2 [used [rng' [Heq [HsA [HsB [Hd [H1 H2]]]]]]]]]]].
  eexists. split; [exact Heq|]. simpl.
  pose proof (sameSeason_names _ _ HsA) as HnA.
  pose proof (sameSeason_names _ _ HsB) as HnB.
  rewrite markPlace_names in HnB.
  assert (HndA : NoDup (map name teamsA)) by now rewrite HnA.
  assert (HndB : NoDup (map name teamsB)) by now rewrite HnB, HnA.
  destruct (markPlace_totals 1 w1 teamsA HndA) as [F1 [S1 P1]];
    [now rewrite HnA|].
  destruct (markPlace_totals 2 w2 teamsB HndB) as [F2 [S2 P2]];
    [now rewrite HnB, HnA|].
  destruct (tally_totals _ _ (sameSeason_tally _ _ HsA)) as [_ [FA [SA PA]]].
  destruct (tally_totals _ _ (sameSeason_tally _ _ HsB)) as [_ [FB [SB PB]]].
  simpl in F1, S1, F2, S2.
  split; [exact Hd|]. split; [exact H1|]. split; [exact H2|].
  split; [rewrite markPlace_names; congruence|].
  split; [|split; [lia | split; [lia|]]].
  - unfold markPlace. rewrite map_map.
    rewrite <- (sameSeason_wins _ _ HsA).
    assert (Hw : map seasonWins teamsB = map seasonWins (markPlace 1 w1 teamsA))
      by now apply sameSeason_wins.
    unfold markPlace in Hw. rewrite map_map in Hw.
    transitivity (map seasonWins teamsB).
    + apply map_ext. intros t. now destruct (name t == w2).
    + rewrite Hw. apply map_ext. intros t. now destruct (name t == w1).
  - intros teamName.
    rewrite P2, PB, P1, PA. simpl. rewrite !andb_true_r.
    destruct (String.eqb_spec w1 teamName) as [E1 | E1];
      destruct (String.eqb_spec w2 teamName) as [E2 | E2];
      simpl; try lia.
    exfalso. apply Hd. congruence.
Qed.

(* ------------------------------------------------------------------ *)
(** *** The matchup table *)

Lemma recordMatchup_pairs first second table :
  map matchupPair (recordMatchup first second table) = map matchupPair table.
Proof.
  induction table as [| matchup rest IH]; [reflexivity|].
  cbn [recordMatchup]. destruct (matchupOf first second matchup).
  - reflexivity.
  - cbn [map]. now rewrite IH.
Qed.

Lemma recordMatchup_total first second table :
  filter (matchupOf first second) table <> [] ->
  matchupTotal (recordMatchup first second table) = S (matchupTotal table).
Proof.
  unfold matchupTotal.
  induction table as [| matchup rest IH]; intros H; [now contradiction H|].
  cbn [recordMatchup filter] in *.
  destruct (matchupOf first second matchup).
  - reflexivity.
  - specialize (IH H). simpl in *. lia.
Qed.

Lemma recordMatchup_none first second table :
  filter (matchupOf first second) table = [] ->
  recordMatchup first second table = table.
Proof.
  induction table as [| matchup rest IH]; intros H; [reflexivity|].
  cbn [recordMatchup filter] in *.
  destruct (matchupOf first second matchup); [discriminate|].
  now rewrite (IH H).
Qed.

Lemma matchupOf_pairs first second table : forall table',
  map matchupPair table' = map matchupPair table ->
  length (filter (matchupOf first second) table')
  = length (filter (matchupOf first second) table).
Proof.
  induction table as [| matchup rest IH]; intros table' H;
    destruct table' as [| matchup' rest']; try discriminate; [reflexivity|].
  cbn [map] in H. unfold matchupPair at 1 3 in H.
  injection H as Hh Ha Hrest. cbn [filter].
  assert (E : matchupOf first second matchup'
              = matchupOf first second matchup)
    by (unfold matchupOf; now rewrite Hh, Ha).
  rewrite E. destruct (matchupOf first second matchup); cbn [length];
    now rewrite (IH rest' Hrest).
Qed.

Lemma pairings_total teams : matchupTotal (pairings teams) = 0.
Proof.
  unfold matchupTotal.
  induction teams as [| team rest IH]; [reflexivity|].
  cbn [pairings]. rewrite map_app, list_sum_app, IH, map_map. simpl.
  clear IH. induction rest as [| other rest IH]; [reflexivity | exact IH].
Qed.

(* ------------------------------------------------------------------ *)
(** *** The Iowa State histograms *)

Lemma incrAt_ok l : forall k,
  k < length l ->
  exists l', incrAt k l = InRange l' /\ length l' = length l /\
             list_sum l' = S (list_sum l).
Proof.
  induction l as [| x rest IH]; intros k Hk; [simpl in Hk; lia|].
  destruct k as [| k'].
  - eexists. split; [reflexivity|]. split; reflexivity.
  - cbn [incrAt]. destruct (IH k') as [rest' [-> [Hlen Hsum]]];
      [simpl in Hk; lia|].
    eexists. split; [reflexivity|]. simpl. split; lia.
Qed.

Lemma incrAt_above k : forall upper upper' lower,
  incrAt k upper = InRange upper' ->
  Forall2 le lower upper -> Forall2 le lower upper'.
Proof.
  induction k as [| k' IH]; intros upper upper' lower H Hle;
    destruct upper as [| x rest]; try discriminate;
    inversion Hle as [| y x' lower' rest0 Hyx Hrest]; subst.
  - injection H as <-. constructor; [lia | assumption].
  - cbn [incrAt] in H. destruct (incrAt k' rest) as [rest' |] eqn:E;
      [|discriminate].
    injection H as <-. constructor; [assumption|]. eapply IH; eassumption.
Qed.

Lemma incrAt_both k : forall upper upper' lower lower',
  incrAt k upper = InRange upper' -> incrAt k lower = InRange lower' ->
  Forall2 le lower upper -> Forall2 le lower' upper'.
Proof.
  induction k as [| k' IH]; intros upper upper' lower lower' H H' Hle;
    destruct upper as [| x rest]; try discriminate;
    inversion Hle as [| y x' lower0 rest0 Hyx Hrest]; subst.
  - injection H as <-. injection H' as <-. constructor; [lia | assumption].
  - cbn [incrAt] in H, H'.
    destruct (incrAt k' rest) as [rest' |] eqn:E; [|discriminate].
    destruct (incrAt k' lower0) as [lower1 |] eqn:E'; [|discriminate].
    injection H as <-. injection H' as <-.
    constructor; [assumption|]. eapply IH; eassumption.
Qed.

Lemma trackIowaState_ok teams first second wins chances :
  length wins = 13 -> length chances = 13 -> Forall2 le chances wins ->
  exists wins' chances',
    trackIowaState teams first second wins chances
    = InRange (wins', chances') /\
    length wins' = 13 /\ length chances' = 13 /\
    Forall2 le chances' wins' /\
    list_sum wins' <= S (list_sum wins) /\
    (In "Iowa St." (map name teams) ->
     Forall (fun team => name team = "Iowa St." -> seasonWins team <= 9) teams ->
     list_sum wins' = S (list_sum wins) /\
     list_sum chances'
     = list_sum chances +
       (if (first == "Iowa St.") || (second == "Iowa St.") then 1 else 0)).
Proof.
  intros Hw Hc Hle.
  induction teams as [| team rest IH].
  - exists wins, chances. simpl.
    split; [reflexivity|]. split; [assumption|]. split; [assumption|].
    split; [assumption|]. split; [lia|]. intros [].
  - cbn [trackIowaState].
    destruct (String.eqb_spec (name team) "Iowa St.") as [Hname | Hname].
    + unfold iowaStateNonConferenceWins.
      destruct (seasonWins team + 3 <=? 12) eqn:Hrange.
      * apply Nat.leb_le in Hrange.
        destruct (incrAt_ok wins (seasonWins team + 3))
          as [wins' [Ew [Lw Sw]]]; [lia|].
        destruct (incrAt_ok chances (seasonWins team + 3))
          as [chances' [Ec [Lc Sc]]]; [lia|].
        rewrite Ew.
        destruct ((first == "Iowa St.") || (second == "Iowa St.")).
        -- rewrite Ec. exists wins', chances'.
           split; [reflexivity|]. split; [lia|]. split; [lia|].
           split; [eapply incrAt_both; eassumption|].
           split; [lia|]. intros _ _. split; lia.
        -- exists wins', chances.
           split; [reflexivity|]. split; [lia|]. split; [lia|].
           split; [eapply incrAt_above; eassumption|].
           split; [lia|]. intros _ _. split; lia.
      * apply Nat.leb_gt in Hrange.
        exists wins, chances. split; [reflexivity|].
        split; [assumption|]. split; [assumption|]. split; [assumption|].
        split; [lia|]. intros _ Hall.
        inversion Hall as [| t r Ht _]; subst. specialize (Ht Hname). lia.
    + destruct IH as [wins' [chances' [E [Lw [Lc [Hle' [Hs Hexact]]]]]]].
      exists wins', chances'. split; [exact E|].
      split; [exact Lw|]. split; [exact Lc|]. split; [exact Hle'|].
      split; [exact Hs|]. intros Hin Hall. apply Hexact.
      * destruct Hin as [Hin | Hin]; [contradiction | exact Hin].
      * now inversion Hall.
Qed.

(* ------------------------------------------------------------------ *)
(** *** The whole run *)

Lemma initializeTeamData_tally bigTwelveTeams :
  firstsTotal (initializeTeamData bigTwelveTeams) = 0 /\
  secondsTotal (initializeTeamData bigTwelveTeams) = 0 /\
  forall teamName,
    placementsOf (initializeTeamData bigTwelveTeams) teamName = 0.
Proof.
  unfold initializeTeamData, firstsTotal, secondsTotal, placementsOf.
  rewrite !map_map. simpl.
  split; [|split; [|intros teamName]];
    induction bigTwelveTeams as [| x rest IH]; simpl; auto.
  destruct (x == teamName); simpl; exact IH.
Qed.

Lemma simulationLoopFull_aggregated schedule names numberOfRuns :
  NoDup names -> 2 <= length names ->
  forall trials run,
    Aggregated schedule names trials run ->
    exists run',
      simulationLoopFull numberOfRuns run = Ok (InRange run') /\
      Aggregated schedule names (trials + numberOfRuns) run'.
Proof.
  intros Hnd Hlen.
  induction numberOfRuns as [| n IH]; intros trials run Hagg.
  - exists run. split; [reflexivity|]. now rewrite Nat.add_0_r.
  - cbn [simulationLoopFull].
    destruct (simulateGames (fullGames run) (fullTeams run) (fullRng run))
      as [[games1 teams1] rng1] eqn:Hsim.
    destruct Hagg as [Hfix Hnames Hpairs Hmatch Hfirst Hsecond Hplace
                      Hwl Hcl Hle Hwins Hiowa].
    pose proof (simulateGames_trial _ _ _ _ _ _ Hsim) as [Hfix1 [Htally Hbound]].
    destruct (tally_totals _ _ Htally) as [Hn1 [F1 [S1 P1]]].
    apply simulateGames_inv in Hsim as [_ [Hunplaced _]].
    assert (Hnd1 : NoDup (map name teams1)) by now rewrite Hn1, Hnames.
    assert (Hlen1 : 2 <= length teams1).
    { rewrite <- (length_map name), Hn1, Hnames. exact Hlen. }
    destruct (trial_totals games1 teams1 rng1 Hnd1 Hlen1 Hunplaced)
      as [s [-> [Hdiff [Hin1 [Hin2 [Hns [Hws [Fs [Ss Ps]]]]]]]]].
    cbn [bind].
    destruct (trackIowaState_ok (placedTeams s) (firstPlace s) (secondPlace s)
                (iowaStateWins run) (iowaStateChampionshipChances run)
                Hwl Hcl Hle)
      as [wins' [chances' [-> [Lw [Lc [Hle' [Hs Hexact]]]]]]].
    replace (trials + S n) with (S trials + n) by lia.
    apply IH. constructor; simpl.
    + now rewrite Hfix1.
    + now rewrite Hns, Hn1.
    + now rewrite recordMatchup_pairs.
    + rewrite recordMatchup_total; [now rewrite Hmatch|].
      intros Hnone. apply (f_equal (@length Matchup)) in Hnone.
      rewrite (matchupOf_pairs _ _ _ _ Hpairs) in Hnone.
      rewrite initializeChampionshipMatchups_pairings in Hnone.
      rewrite pairings_unique in Hnone; [discriminate | exact Hnd | | |];
        [now rewrite <- Hnames, <- Hn1
        | now rewrite <- Hnames, <- Hn1 | exact Hdiff].
    + lia.
    + lia.
    + intros teamName. rewrite Ps, P1. specialize (Hplace teamName).
      destruct ((firstPlace s == teamName) || (secondPlace s == teamName)); lia.
    + exact Lw.
    + exact Lc.
    + exact Hle'.
    + lia.
    + intros Hiowa1 Hiowa2. destruct (Hiowa Hiowa1 Hiowa2) as [I1 I2].
      destruct Hexact as [E1 E2].
      * now rewrite Hns, Hn1, Hnames.
      * apply (Forall_names_wins
                 (fun teamName wins => teamName = "Iowa St." -> wins <= 9)
                 teams1 _ Hns Hws).
        eapply Forall_impl; [|exact Hbound]. intros team Hteam Hname.
        cbv beta in Hteam.
        rewrite Hname, (gamesPlayed_fixtures _ _ _ Hfix) in Hteam. lia.
      * split; [lia|]. rewrite E2, Ps, P1, I2. reflexivity.
Qed.

Lemma simulationLoopFull_agrees numberOfRuns : forall run run' trialsUsing,
  simulationLoopFull numberOfRuns run = Ok (InRange run') ->
  exists trialsUsing',
    simulationLoop numberOfRuns
      (mkRun (fullGames run) (fullTeams run) (fullRandomTiebreakers run)
             trialsUsing (fullRng run))
    = Ok (mkRun (fullGames run') (fullTeams run') (fullRandomTiebreakers run')
                trialsUsing' (fullRng run')).
Proof.
  induction numberOfRuns as [| n IH]; intros run run' trialsUsing H.
  - injection H as <-. exists trialsUsing. reflexivity.
  - cbn [simulationLoopFull simulationLoop] in *. cbn [runGames runTeams runRng].
    destruct (simulateGames (fullGames run) (fullTeams run) (fullRng run))
      as [[games1 teams1] rng1].
    destruct (determineStandings games1 teams1 rng1) as [s | e |];
      cbn [bind] in *; try discriminate.
    destruct (trackIowaState _ _ _ _ _) as [[wins' chances'] |];
      [|discriminate].
    apply (IH _ _ (trialsUsing + (if 0 <? randomUsed s then 1 else 0))) in H.
    exact H.
Qed.

Lemma runSimulationsFull_aggregated numberOfRuns rows rng games :
  loadGameData (loadTeamsFromCSV rows) rows = Ok games ->
  2 <= length (loadTeamsFromCSV rows) ->
  exists run,
    runSimulationsFull numberOfRuns rows rng = Ok (InRange run) /\
    Aggregated games (loadTeamsFromCSV rows) numberOfRuns run.
Proof.
  intros Hload Hlen. unfold runSimulationsFull. rewrite Hload. cbn [bind].
  apply (simulationLoopFull_aggregated games (loadTeamsFromCSV rows)
           numberOfRuns (loadTeamsFromCSV_NoDup rows) Hlen 0).
  destruct (initializeTeamData_tally (loadTeamsFromCSV rows)) as [F [S P]].
  constructor; cbn [fullGames fullTeams championshipMatchups iowaStateWins
                    iowaStateChampionshipChances].
  - reflexivity.
  - apply initializeTeamData_names.
  - reflexivity.
  - rewrite initializeChampionshipMatchups_pairings. apply pairings_total.
  - exact F.
  - exact S.
  - intros teamName. now rewrite P.
  - reflexivity.
  - reflexivity.
  - repeat constructor.
  - simpl. lia.
  - intros _ _. now rewrite P.
Qed.

(* ================================================================== *)
(** ** What a run returns *)

(** X14.  Over a schedule that loads, with two teams or more, a run of any
    number of trials completes: no exception, and no histogram write out of
    range, both histograms keeping their 13 entries.  It returns the teams
    of the schedule in their order and the fixtures as loaded, and its
    games, teams, random-tiebreak counter and random state are those of
    [runSimulations] without the matchup table and the histograms. *)
Theorem runSimulationsFull_completes
  (numberOfRuns : nat) (rows : list RawGame) (rng : Rng) (games : list Game) :
  loadGameData (loadTeamsFromCSV rows) rows = Ok games ->
  2 <= length (loadTeamsFromCSV rows) ->
  exists run,
    runSimulationsFull numberOfRuns rows rng = Ok (InRange run) /\
    length (iowaStateWins run) = 13 /\
    length (iowaStateChampionshipChances run) = 13 /\
    map name (fullTeams run) = loadTeamsFromCSV rows /\
    map fixtureOf (fullGames run) = map fixtureOf games /\
    exists trialsUsing,
      runSimulations numberOfRuns rows rng
      = Ok (mkRun (fullGames run) (fullTeams run) (fullRandomTiebreakers run)
                  trialsUsing (fullRng run)).
Proof.
  intros Hload Hlen.
  destruct (runSimulationsFull_aggregated numberOfRuns rows rng games
              Hload Hlen) as [run [Hrun Hagg]].
  exists run. split; [exact Hrun|].
  split; [apply (aggWinsLength _ _ _ _ Hagg)|].
  split; [apply (aggChancesLength _ _ _ _ Hagg)|].
  split; [apply (aggNames _ _ _ _ Hagg)|].
  split; [apply (aggFixtures _ _ _ _ Hagg)|].
  unfold runSimulationsFull in Hrun. unfold runSimulations.
  rewrite Hload in *. cbn [bind] in *.
  apply (simulationLoopFull_agrees _ _ _ 0) in Hrun. exact Hrun.
Qed.

Lemma runSimulationsFull_completes_witness :
  exists run,
    runSimulationsFull 2 iowaRows rngHalf = Ok (InRange run) /\
    length (iowaStateWins run) = 13 /\
    length (iowaStateChampionshipChances run) = 13 /\
    map name (fullTeams run) = loadTeamsFromCSV iowaRows.
Proof.
  edestruct (runSimulationsFull_completes 2 iowaRows rngHalf)
    as [run [Hrun [Hw [Hc [Hn _]]]]].
  - vm_compute. reflexivity.
  - vm_compute. lia.
  - exists run. repeat split; assumption.
Defined.

(** X15.  The matchup table a run returns has the rows it started with,
    every pair of teams once, and its counts add up to the number of
    trials: every trial is counted in exactly one row. *)
Theorem championshipMatchups_add_up
  (numberOfRuns : nat) (rows : list RawGame) (rng : Rng) (games : list Game) :
  loadGameData (loadTeamsFromCSV rows) rows = Ok games ->
  2 <= length (loadTeamsFromCSV rows) ->
  exists run,
    runSimulationsFull numberOfRuns rows rng = Ok (InRange run) /\
    map matchupPair (championshipMatchups run)
    = map matchupPair (initializeChampionshipMatchups (loadTeamsFromCSV rows)) /\
    matchupTotal (championshipMatchups run) = numberOfRuns.
Proof.
  intros Hload Hlen.
  destruct (runSimulationsFull_aggregated numberOfRuns rows rng games
              Hload Hlen) as [run [Hrun Hagg]].
  exists run. split; [exact Hrun|].
  split; [apply (aggPairs _ _ _ _ Hagg) | apply (aggMatchups _ _ _ _ Hagg)].
Qed.

Lemma championshipMatchups_add_up_witness :
  exists run,
    runSimulationsFull 2 iowaRows rngHalf = Ok (InRange run) /\
    matchupTotal (championshipMatchups run) = 2.
Proof.
  edestruct (championshipMatchups_add_up 2 iowaRows rngHalf)
    as [run [Hrun [_ Hm]]].
  - vm_compute. reflexivity.
  - vm_compute. lia.
  - exists run. split; assumption.
Defined.

(** X16.  After a run the 1st-place counts of the teams add up to the
    number of trials, and so do the 2nd-place counts; no team is counted
    in the championship game more often than there were trials. *)
Theorem placement_counts_add_up
  (numberOfRuns : nat) (rows : list RawGame) (rng : Rng) (games : list Game) :
  loadGameData (loadTeamsFromCSV rows) rows = Ok games ->
  2 <= length (loadTeamsFromCSV rows) ->
  exists run,
    runSimulationsFull numberOfRuns rows rng = Ok (InRange run) /\
    firstsTotal (fullTeams run) = numberOfRuns /\
    secondsTotal (fullTeams run) = numberOfRuns /\
    forall teamName, placementsOf (fullTeams run) teamName <= numberOfRuns.
Proof.
  intros Hload Hlen.
  destruct (runSimulationsFull_aggregated numberOfRuns rows rng games
              Hload Hlen) as [run [Hrun Hagg]].
  exists run. split; [exact Hrun|].
  split; [apply (aggFirsts _ _ _ _ Hagg)|].
  split; [apply (aggSeconds _ _ _ _ Hagg) | apply (aggPlacements _ _ _ _ Hagg)].
Qed.

Lemma placement_counts_add_up_witness :
  exists run,
    runSimulationsFull 2 iowaRows rngHalf = Ok (InRange run) /\
    firstsTotal (fullTeams run) = 2 /\
    secondsTotal (fullTeams run) = 2.
Proof.
  edestruct (placement_counts_add_up 2 iowaRows rngHalf)
    as [run [Hrun [Hf [Hs _]]]].
  - vm_compute. reflexivity.
  - vm_compute. lia.
  - exists run. repeat split; assumption.
Defined.

(** X17.  The two Iowa State histograms a run returns: entry by entry the
    championship-chances histogram is at most the wins histogram, and the
    wins histogram counts at most one per trial.  When ["Iowa St."] is a
    team of the schedule and plays at most 9 of its games, every trial is
    counted in the wins histogram, and the championship-chances histogram
    adds up to the 1st and 2nd places counted for ["Iowa St."]. *)
Theorem iowaState_histograms_consistent
  (numberOfRuns : nat) (rows : list RawGame) (rng : Rng) (games : list Game) :
  loadGameData (loadTeamsFromCSV rows) rows = Ok games ->
  2 <= length (loadTeamsFromCSV rows) ->
  exists run,
    runSimulationsFull numberOfRuns rows rng = Ok (InRange run) /\
    Forall2 le (iowaStateChampionshipChances run) (iowaStateWins run) /\
    list_sum (iowaStateWins run) <= numberOfRuns /\
    (In "Iowa St." (loadTeamsFromCSV rows) ->
     gamesPlayed games "Iowa St." <= 9 ->
     list_sum (iowaStateWins run) = numberOfRuns /\
     list_sum (iowaStateChampionshipChances run)
     = placementsOf (fullTeams run) "Iowa St.").
Proof.
  intros Hload Hlen.
  destruct (runSimulationsFull_aggregated numberOfRuns rows rng games
              Hload Hlen) as [run [Hrun Hagg]].
  exists run. split; [exact Hrun|].
  split; [apply (aggChances _ _ _ _ Hagg)|].
  split; [apply (aggWins _ _ _ _ Hagg) | apply (aggIowa _ _ _ _ Hagg)].
Qed.

Lemma iowaState_histograms_consistent_witness :
  exists run,
    runSimulationsFull 2 iowaRows rngHalf = Ok (InRange run) /\
    list_sum (iowaStateWins run) = 2 /\
    list_sum (iowaStateChampionshipChances run)
    = placementsOf (fullTeams run) "Iowa St.".
Proof.
  edestruct (iowaState_histograms_consistent 2 iowaRows rngHalf)
    as [run [Hrun [_ [_ Hiowa]]]].
  - vm_compute. reflexivity.
  - vm_compute. lia.
  - exists run. split; [exact Hrun|]. apply Hiowa.
    + vm_compute. right. left. reflexivity.
    + vm_compute. lia.
Defined.

(* ================================================================== *)
(** ** The import script *)

Lemma endswith_spec s suffix :
  endswith s suffix = true <-> exists prefix, s = (prefix ++ suffix)%string.
Proof.
  split.
  - induction s as [| c rest IH]; cbn [endswith]; intros H.
    + rewrite orb_false_r in H. apply String.eqb_eq in H.
      exists EmptyString. exact H.
    + apply orb_true_iff in H as [H | H].
      * apply String.eqb_eq in H. exists EmptyString. exact H.
      * destruct (IH H) as [prefix ->]. exists (String c prefix). reflexivity.
  - intros [prefix ->].
    induction prefix as [| c rest IH].
    + simpl. destruct suffix; cbn [endswith]; rewrite String.eqb_refl;
        reflexivity.
    + cbn [append endswith]. rewrite IH. apply orb_true_r.
Qed.

Lemma lastChar_app prefix suffix :
  suffix <> EmptyString ->
  lastChar (prefix ++ suffix)%string = lastChar suffix.
Proof.
  intros Hne. induction prefix as [| c rest IH]; [reflexivity|].
  cbn [append lastChar]. rewrite IH.
  destruct (rest ++ suffix)%string eqn:E; [|reflexivity].
  destruct rest; [simpl in E; contradiction | discriminate].
Qed.

Lemma standardized_not_St s : endswith (s ++ ".")%string " St" = false.
Proof.
  destruct (endswith (s ++ ".")%string " St") eqn:E; [|reflexivity].
  apply endswith_spec in E as [prefix E].
  apply (f_equal lastChar) in E.
  rewrite !lastChar_app in E by discriminate. discriminate.
Qed.

Lemma standardizeName_not_St s : endswith (standardizeName s) " St" = false.
Proof.
  unfold standardizeName. destruct (endswith s " St") eqn:E;
    [apply standardized_not_St | exact E].
Qed.

Lemma standardizeName_idempotent s :
  standardizeName (standardizeName s) = standardizeName s.
Proof.
  unfold standardizeName at 1. now rewrite standardizeName_not_St.
Qed.

(** X18.  [standardizeTeamNames] leaves no identifier that ends in [" St"],
    so that a second pass changes nothing; it keeps the number of games
    and their probabilities, and an identifier it changes is the old one
    with a period appended. *)
Theorem standardizeTeamNames_idempotent (games : list RawGame) :
  standardizeTeamNames (standardizeTeamNames games)
  = standardizeTeamNames games /\
  Forall (fun game : RawGame =>
            endswith (fst (fst game)) " St" = false /\
            endswith (snd (fst game)) " St" = false)
         (standardizeTeamNames games) /\
  map snd (standardizeTeamNames games) = map snd games /\
  Forall2 (fun (game game' : RawGame) =>
             (fst (fst game') = fst (fst game) \/
              fst (fst game') = (fst (fst game) ++ ".")%string) /\
             (snd (fst game') = snd (fst game) \/
              snd (fst game') = (snd (fst game) ++ ".")%string))
          games (standardizeTeamNames games).
Proof.
  unfold standardizeTeamNames. split; [|split; [|split]].
  - rewrite map_map. apply map_ext. intros [[a b] p]. simpl.
    now rewrite !standardizeName_idempotent.
  - apply Forall_forall. intros game Hin.
    apply in_map_iff in Hin as [[[a b] p] [<- _]]. simpl.
    split; apply standardizeName_not_St.
  - rewrite map_map. reflexivity.
  - induction games as [| [[a b] p] rest IH]; constructor; [|exact IH].
    simpl. unfold standardizeName.
    destruct (endswith a " St"), (endswith b " St"); auto.
Qed.




(* ------------------------------------------------------------------ *)
(** *** Game counts *)

Lemma countsGet_countsSet d key value key' :
  countsGet (countsSet d key value) key'
  = if key == key' then value else countsGet d key'.
Proof.
  induction d as [| [k v] rest IH]; cbn [countsSet countsGet].
  - reflexivity.
  - destruct (String.eqb_spec k key) as [-> | Hk]; cbn [countsGet].
    + destruct (key == key'); reflexivity.
    + rewrite IH. destruct (String.eqb_spec k key') as [-> | Hk'];
        [|reflexivity].
      apply String.eqb_neq in Hk. rewrite String.eqb_sym in Hk.
      now rewrite Hk.
Qed.

Lemma teamGameCounts_appearances games teamName :
  countsGet (teamGameCounts games) teamName = appearances games teamName.
Proof.
  unfold teamGameCounts, appearances.
  assert (H : forall d,
            countsGet
              (fold_left
                 (fun d (game : RawGame) =>
                    let team1 := fst (fst game) in
                    let team2 := snd (fst game) in
                    let d1 := countsSet d team1 (countsGet d team1 + 1) in
                    countsSet d1 team2 (countsGet d1 team2 + 1))
                 games d) teamName
            = countsGet d teamName +
              list_sum (map (fun game : RawGame =>
                               (if fst (fst game) == teamName then 1 else 0) +
                               (if snd (fst game) == teamName then 1 else 0))
                            games)).
  { induction games as [| [[a b] p] rest IH]; intros d; cbn [fold_left].
    - simpl. lia.
    - rewrite IH. cbn [map list_sum fst snd]. cbv zeta.
      rewrite !countsGet_countsSet.
      destruct (String.eqb_spec b teamName) as [-> | Hb];
        destruct (String.eqb_spec a teamName) as [-> | Ha];
        unfold list_sum; cbn [fold_right]; lia. }
  rewrite H. reflexivity.
Qed.

Lemma list_sum_cons x l : list_sum (x :: l) = x + list_sum l.
Proof. reflexivity. Qed.

Lemma indicator_sum a (l : list string) :
  NoDup l -> In a l ->
  list_sum (map (fun n => if a == n then 1 else 0) l) = 1.
Proof.
  induction l as [| y rest IH]; intros Hnd Hin; [contradiction|].
  apply NoDup_cons_iff in Hnd as [Hy Hnd]. cbn [map list_sum].
  destruct (String.eqb_spec a y) as [-> | Hne].
  - assert (H : list_sum (map (fun n => if y == n then 1 else 0) rest) = 0).
    { clear IH Hin Hnd. induction rest as [| z rest IH]; [reflexivity|].
      cbn [map list_sum].
      destruct (String.eqb_spec y z) as [-> | _];
        [exfalso; apply Hy; now left|].
      apply IH. intros H. apply Hy. now right. }
    simpl. rewrite H. reflexivity.
  - destruct Hin as [-> | Hin]; [contradiction|].
    simpl. now apply IH.
Qed.

Lemma list_sum_map_add {A : Type} (f g : A -> nat) l :
  list_sum (map (fun x => f x + g x) l)
  = list_sum (map f l) + list_sum (map g l).
Proof. induction l; simpl; lia. Qed.

Lemma appearances_total games (names : list string) :
  NoDup names ->
  Forall (fun game : RawGame =>
            In (fst (fst game)) names /\ In (snd (fst game)) names) games ->
  list_sum (map (appearances games) names) = 2 * length games.
Proof.
  intros Hnd Hall. induction Hall as [| [[a b] p] rest [Ha Hb] _ IH].
  - clear Hnd. induction names as [| n rest IH]; [reflexivity | exact IH].
  - cbn [fst snd] in Ha, Hb.
    rewrite (map_ext (appearances ((a, b, p) :: rest))
               (fun n => (if a == n then 1 else 0) + (if b == n then 1 else 0)
                         + appearances rest n)) by reflexivity.
    rewrite (list_sum_map_add
               (fun n => (if a == n then 1 else 0) + (if b == n then 1 else 0))),
            IH.
    rewrite (list_sum_map_add (fun n => if a == n then 1 else 0)
                              (fun n => if b == n then 1 else 0)).
    rewrite (indicator_sum a names Hnd Ha), (indicator_sum b names Hnd Hb).
    cbn [length]. lia.
Qed.

(** X20.  The warnings of [validateGameCounts].  A team is reported when the
    number of rows naming its standardized identifier, a row naming it on
    both sides counted twice, is not 9, with that number; the total is
    reported when the number of rows is not [9 * len(bigTwelveTeams) // 2]. *)
Theorem validateGameCounts_spec
  (bigTwelveTeams : list (string * string)) (games : list RawGame) :
  (forall standardizedName gameCount,
     In (TeamGames standardizedName gameCount)
        (validateGameCounts bigTwelveTeams games) <->
     In standardizedName (listedNames bigTwelveTeams) /\
     gameCount = appearances games standardizedName /\ gameCount <> 9) /\
  (forall expectedGames found,
     In (TotalGames expectedGames found)
        (validateGameCounts bigTwelveTeams games) <->
     expectedGames = 9 * length bigTwelveTeams / 2 /\
     found = length games /\ found <> expectedGames).
Proof.
  unfold validateGameCounts, listedNames. split.
  - intros n c. rewrite in_app_iff, in_flat_map. split.
    + intros [H | [team [Hin H]]].
      * destruct (length games =? _); [contradiction|].
        destruct H as [H | []]. discriminate.
      * cbv zeta in H. rewrite teamGameCounts_appearances in H.
        destruct (Nat.eqb_spec (appearances games (standardizeName (fst team))) 9)
          as [E | E]; [contradiction|].
        destruct H as [H | []]. injection H as <- <-.
        split; [|split; [reflexivity | exact E]].
        apply in_map_iff. exists team. split; [reflexivity | exact Hin].
    + intros [Hin [-> Hne]]. right.
      apply in_map_iff in Hin as [team [<- Hin]].
      exists team. split; [exact Hin|]. cbv zeta.
      rewrite teamGameCounts_appearances.
      destruct (Nat.eqb_spec (appearances games (standardizeName (fst team))) 9)
        as [E | E]; [contradiction|]. now left.
  - intros e f. rewrite in_app_iff, in_flat_map. split.
    + intros [H | [team [_ H]]].
      * destruct (Nat.eqb_spec (length games) (9 * length bigTwelveTeams / 2))
          as [E | E]; [contradiction|].
        destruct H as [H | []]. injection H as <- <-. auto.
      * cbv zeta in H. destruct (_ =? 9); [contradiction|].
        destruct H as [H | []]. discriminate.
    + intros [-> [-> Hne]]. left.
      destruct (Nat.eqb_spec (length games) (9 * length bigTwelveTeams / 2))
        as [E | E]; [contradiction|]. now left.
Qed.

(** X21.  When the listed teams have different standardized identifiers,
    every row of the games is between listed teams and every listed team
    has its 9 games, [validateGameCounts] prints no warning: the total of
    [9 * len(bigTwelveTeams) // 2] games follows from the counts of the
    teams. *)
Theorem validateGameCounts_total_follows
  (bigTwelveTeams : list (string * string)) (games : list RawGame) :
  NoDup (listedNames bigTwelveTeams) ->
  Forall (fun game : RawGame =>
            In (fst (fst game)) (listedNames bigTwelveTeams) /\
            In (snd (fst game)) (listedNames bigTwelveTeams)) games ->
  Forall (fun standardizedName =>
            countsGet (teamGameCounts games) standardizedName = 9)
         (listedNames bigTwelveTeams) ->
  length games = 9 * length bigTwelveTeams / 2 /\
  validateGameCounts bigTwelveTeams games = [].
Proof.
  intros Hnd Hall Hnine.
  pose proof (appearances_total games _ Hnd Hall) as Htotal.
  assert (Hsum : list_sum (map (appearances games) (listedNames bigTwelveTeams))
                 = 9 * length bigTwelveTeams).
  { unfold listedNames in *. rewrite map_map.
    rewrite Forall_map in Hnine. clear Hnd Hall Htotal.
    induction Hnine as [| team rest H _ IH]; [reflexivity|].
    cbn [map length]. rewrite teamGameCounts_appearances in H.
    rewrite list_sum_cons, H, IH. lia. }
  assert (Hlen : length games = 9 * length bigTwelveTeams / 2).
  { replace (9 * length bigTwelveTeams) with (length games * 2) by lia.
    now rewrite Nat.div_mul. }
  split; [exact Hlen|].
  unfold validateGameCounts. rewrite <- Hlen, Nat.eqb_refl. cbn [app].
  unfold listedNames in Hnine. rewrite Forall_map in Hnine.
  clear Hnd Hall Htotal Hsum Hlen.
  induction Hnine as [| team rest H _ IH]; [reflexivity|].
  cbn [flat_map]. cbv zeta. rewrite H, IH. reflexivity.
Qed.

Lemma validateGameCounts_total_follows_witness :
  length nineGames = 9 * length twoListed / 2 /\
  validateGameCounts twoListed nineGames = [].
Proof.
  apply (validateGameCounts_total_follows twoListed nineGames).
  - vm_compute. repeat constructor; simpl; intuition discriminate.
  - apply Forall_forall. intros game Hin. unfold nineGames in Hin.
    apply repeat_spec in Hin. subst game. vm_compute. split; auto.
  - vm_compute. repeat constructor.
Defined.

(* ================================================================== *)
(** ** The record against common opponents *)

Lemma addTieWins_0 team : addTieWins 0 team = team.
Proof.
  destruct team. unfold addTieWins, setTieWins. simpl. f_equal. lia.
Qed.

Lemma addTieWins_add j k team :
  addTieWins k (addTieWins j team) = addTieWins (j + k) team.
Proof. unfold addTieWins, setTieWins. simpl. f_equal. lia. Qed.

(** A loop whose every step adds to the tie metrics a number that depends
    on the name of the team adds their sum. *)
Lemma fold_bump {A : Type} (c : A -> string -> nat)
  (step : list Team -> A -> list Team) (l : list A) :
  (forall a teams,
     step teams a = map (fun team => addTieWins (c a (name team)) team) teams) ->
  forall teams,
    fold_left step l teams
    = map (fun team =>
             addTieWins (list_sum (map (fun a => c a (name team)) l)) team)
          teams.
Proof.
  intros Hstep. induction l as [| a rest IH]; intros teams.
  - simpl. rewrite <- (map_id teams) at 1. apply map_ext.
    intros team. symmetry. apply addTieWins_0.
  - cbn [fold_left]. rewrite IH, Hstep, map_map. apply map_ext.
    intros team. rewrite addTieWins_add. reflexivity.
Qed.

Lemma recordVsOpponent_bump game teamName opponent teams :
  recordVsOpponent game teamName opponent teams
  = map (fun team => addTieWins (vsCredit game teamName opponent (name team)) team)
        teams.
Proof.
  unfold recordVsOpponent, vsCredit.
  destruct ((home game == teamName) && (away game == opponent)).
  - apply map_ext. intros team.
    destruct ((gameResult game =? 1) && (name team == teamName));
      [reflexivity | symmetry; apply addTieWins_0].
  - destruct ((away game == teamName) && (home game == opponent)).
    + apply map_ext. intros team.
      destruct ((gameResult game =? 0) && (name team == teamName));
        [reflexivity | symmetry; apply addTieWins_0].
    + rewrite <- (map_id teams) at 1. apply map_ext.
      intros team. symmetry. apply addTieWins_0.
Qed.

Lemma getRecordVsCommonOpponents_pointwise games teams teamList opponentList :
  getRecordVsCommonOpponents games teams teamList opponentList
  = map (fun team =>
           setTieWins team
             (list_sum
                (map (fun game =>
                        list_sum
                          (map (fun teamName =>
                                  list_sum
                                    (map (fun opponent =>
                                            vsCredit game teamName opponent
                                                     (name team))
                                         opponentList))
                               teamList))
                     games)))
        teams.
Proof.
  unfold getRecordVsCommonOpponents.
  rewrite (fold_bump
             (fun game teamName' =>
                list_sum
                  (map (fun teamName =>
                          list_sum
                            (map (fun opponent =>
                                    vsCredit game teamName opponent teamName')
                                 opponentList))
                       teamList))).
  - unfold resetTieWins. rewrite map_map. apply map_ext. intros team.
    unfold addTieWins, setTieWins. simpl. reflexivity.
  - intros game ts.
    apply (fold_bump
             (fun teamName teamName' =>
                list_sum
                  (map (fun opponent =>
                          vsCredit game teamName opponent teamName')
                       opponentList))).
    intros teamName ts'.
    apply (fold_bump
             (fun opponent teamName' =>
                vsCredit game teamName opponent teamName')).
    intros opponent ts''. apply recordVsOpponent_bump.
Qed.

Lemma list_sum_zero {A : Type} (f : A -> nat) l :
  (forall x, In x l -> f x = 0) -> list_sum (map f l) = 0.
Proof.
  induction l as [| x rest IH]; intros H; [reflexivity|].
  cbn [map]. rewrite list_sum_cons, (H x (or_introl eq_refl)), IH;
    [reflexivity|].
  intros y Hy. apply H. now right.
Qed.

Lemma list_sum_at (f : string -> nat) a (l : list string) :
  NoDup l ->
  list_sum (map (fun x => if a == x then f x else 0) l)
  = if inb a l then f a else 0.
Proof.
  unfold inb. induction l as [| y rest IH]; intros Hnd; [reflexivity|].
  apply NoDup_cons_iff in Hnd as [Hy Hnd].
  cbn [map existsb]. rewrite list_sum_cons.
  destruct (String.eqb_spec a y) as [-> | Hne]; cbn [orb].
  - rewrite list_sum_zero; [lia|].
    intros x Hx. destruct (String.eqb_spec y x) as [-> | _];
      [contradiction | reflexivity].
  - now rewrite IH.
Qed.

Lemma list_sum_filter {A : Type} (f : A -> bool) l :
  list_sum (map (fun x => if f x then 1 else 0) l) = length (filter f l).
Proof.
  induction l as [| x rest IH]; [reflexivity|].
  cbn [map filter]. rewrite list_sum_cons, IH.
  destruct (f x); reflexivity.
Qed.

Lemma vsCredit_opponents game teamName teamName' opponentList :
  NoDup opponentList ->
  list_sum (map (fun opponent => vsCredit game teamName opponent teamName')
                opponentList)
  = if teamName' == teamName
    then if wonAgainst opponentList teamName game then 1 else 0
    else 0.
Proof.
  intros Hnd. unfold wonAgainst.
  destruct (String.eqb_spec teamName' teamName) as [-> | Hne].
  - destruct (String.eqb_spec (home game) teamName) as [Hh | Hh].
    + rewrite (map_ext _ (fun opponent =>
                 if away game == opponent
                 then (fun _ => if gameResult game =? 1 then 1 else 0) opponent
                 else 0)).
      * rewrite list_sum_at by exact Hnd.
        destruct (inb (away game) opponentList), (gameResult game =? 1);
          reflexivity.
      * intros opponent. unfold vsCredit.
        rewrite String.eqb_refl, !andb_true_r.
        apply String.eqb_eq in Hh as Hhb. rewrite Hhb. cbn [andb].
        destruct (String.eqb_spec (away game) opponent) as [Ha | Ha];
          [reflexivity|].
        destruct (String.eqb_spec (away game) teamName) as [Hat | Hat];
          [|reflexivity].
        destruct (String.eqb_spec (home game) opponent) as [Ho | Ho];
          [|reflexivity].
        exfalso. apply Ha. congruence.
    + rewrite (map_ext _ (fun opponent =>
                 if home game == opponent
                 then (fun _ => if (away game == teamName)
                                   && (gameResult game =? 0)
                                then 1 else 0) opponent
                 else 0)).
      * rewrite list_sum_at by exact Hnd.
        destruct (away game == teamName), (inb (home game) opponentList),
          (gameResult game =? 0); reflexivity.
      * intros opponent. unfold vsCredit.
        rewrite String.eqb_refl, !andb_true_r.
        apply String.eqb_neq in Hh as Hhb. rewrite Hhb. cbn [andb].
        destruct (away game == teamName), (home game == opponent),
          (gameResult game =? 0); reflexivity.
  - apply list_sum_zero. intros opponent _. unfold vsCredit.
    apply String.eqb_neq in Hne. rewrite Hne, !andb_false_r.
    destruct ((home game == teamName) && (away game == opponent));
      [reflexivity|].
    now destruct ((away game == teamName) && (home game == opponent)).
Qed.

(** X22.  Over a team list and an opponent list without repetitions,
    [getRecordVsCommonOpponents] leaves a team of [teamList] with a tie
    metric equal to the number of games it won against a team of
    [opponentList], a team outside [teamList] with 0, and changes nothing
    else. *)
Theorem getRecordVsCommonOpponents_counts
  (games : list Game) (teams : list Team) (teamList opponentList : list string) :
  NoDup teamList -> NoDup opponentList ->
  getRecordVsCommonOpponents games teams teamList opponentList
  = map (fun team =>
           setTieWins team
             (if inb (name team) teamList
              then length (filter (wonAgainst opponentList (name team)) games)
              else 0))
        teams.
Proof.
  intros Hteams Hopponents.
  rewrite getRecordVsCommonOpponents_pointwise. apply map_ext.
  intros team. f_equal.
  rewrite (map_ext _ (fun game =>
             if inb (name team) teamList
             then if wonAgainst opponentList (name team) game then 1 else 0
             else 0)).
  - destruct (inb (name team) teamList).
    + apply list_sum_filter.
    + apply list_sum_zero. reflexivity.
  - intros game.
    rewrite (map_ext _ (fun teamName =>
               if name team == teamName
               then (fun teamName =>
                       if wonAgainst opponentList teamName game then 1 else 0)
                      teamName
               else 0)).
    + now rewrite list_sum_at.
    + intros teamName. now rewrite vsCredit_opponents.
Qed.

Lemma getRecordVsCommonOpponents_counts_witness :
  getRecordVsCommonOpponents rematchGames rematchTeams ["A"] ["B"]
  = [mkTeam "A" 1 1 0 0 0; mkTeam "B" 1 0 0 0 0].
Proof.
  rewrite (getRecordVsCommonOpponents_counts rematchGames rematchTeams
             ["A"] ["B"]).
  - reflexivity.
  - repeat constructor; simpl; intuition.
  - repeat constructor; simpl; intuition.
Defined.
